(** * AST definition toolkit: the type-level program of [ast-definition.d.ts]

    The program under study is written in TypeScript's type language: every
    [type F<A, B> = ...] of the source is a function from types to types that
    the checker evaluates.  This development embeds those functions as Rocq
    functions over a datatype [ty] of TypeScript types, keeping the names of
    the source ([ResolveNodeType], [Node], [ParentNode], [MergeNodes],
    [ExtendsRec], ...).

    The checker operations the source relies on (union and intersection
    construction, [extends], [keyof], indexed access, distribution of
    conditional types over unions) are given first.  They follow the checker
    the file was written for (TypeScript 3.5, [strictNullChecks] on; the
    source uses [readonly T[]], new in 3.4, and the pre-3.7 recursion idiom
    [{0: ..; 1: ..}[cond]]):
    - a union is flattened, drops [never] and intersections with an empty
      value domain, drops duplicates and the literals of a primitive that is
      itself present, and is absorbed by [any] / [unknown];
    - an intersection distributes over the unions among its constituents; an
      intersection of distinct literal types is removed when it is a member
      of a union and is kept as written otherwise;
    - a conditional type on a naked type parameter distributes over unions
      and maps [never] to [never]; a check type [any] yields the union of
      both branches; an [infer] position with no candidate is [unknown];
      in the true branch the check type parameter stands for itself when it
      is assignable to the [extends] type with the inferred types put in,
      and for its intersection with that type otherwise.

    Object types have required, string-named properties (the modifiers
    [readonly] and [?] of properties are not represented); the instantiations
    [NodeCommon<D, T>] and [NodeBody<D, T>] are kept as type references
    ([TNodeCommon], [TNodeBody]) whose members are computed on demand, as the
    checker does for interface and mapped-type instantiations; this is what
    makes the resolved node of a self-referential definition a finite value. *)

From Stdlib Require Import List String ZArith Bool Arith Lia.
From Equations Require Import Equations.
Import ListNotations.
Open Scope string_scope.

(* ===================================================================== *)
(** ** Types *)
(* ===================================================================== *)

Unset Elimination Schemes.

Inductive ty : Type :=
| TAny
| TUnknown
| TNever
| TNull
| TUndefined
| TString
| TNumber
| TSymbol
| TBool (b : bool)                      (* the literal types true / false *)
| TStr (s : string)                     (* a string literal type *)
| TNum (n : Z)                          (* a numeric literal type *)
| TNamed (name : string)                (* an imported object type: Range, Location *)
| TObj (props : list (string * ty))     (* { k1: T1; ...; kn: Tn } *)
| TIndexed (value : ty)                 (* { [key: string]: T } *)
| TArr (ro : bool) (elem : ty)          (* T[]  and  readonly T[] *)
| TUnion (ts : list ty)
| TInter (ts : list ty)
| TNodeCommon (def name : ty)           (* NodeCommon<def, name> *)
| TNodeBody (def name : ty).            (* NodeBody<def, name> *)

Set Elimination Schemes.

Section ty_induction.
Variable P : ty -> Prop.
Hypothesis HAny : P TAny.
Hypothesis HUnknown : P TUnknown.
Hypothesis HNever : P TNever.
Hypothesis HNull : P TNull.
Hypothesis HUndefined : P TUndefined.
Hypothesis HString : P TString.
Hypothesis HNumber : P TNumber.
Hypothesis HSymbol : P TSymbol.
Hypothesis HBool : forall b, P (TBool b).
Hypothesis HStr : forall s, P (TStr s).
Hypothesis HNum : forall n, P (TNum n).
Hypothesis HNamed : forall n, P (TNamed n).
Hypothesis HObj : forall ps, Forall (fun kv => P (snd kv)) ps -> P (TObj ps).
Hypothesis HIndexed : forall v, P v -> P (TIndexed v).
Hypothesis HArr : forall ro e, P e -> P (TArr ro e).
Hypothesis HUnion : forall ts, Forall P ts -> P (TUnion ts).
Hypothesis HInter : forall ts, Forall P ts -> P (TInter ts).
Hypothesis HCommon : forall d n, P d -> P n -> P (TNodeCommon d n).
Hypothesis HBody : forall d n, P d -> P n -> P (TNodeBody d n).

Fixpoint ty_induction (t : ty) : P t :=
  let fix all (l : list ty) : Forall P l :=
    match l with
    | [] => Forall_nil _
    | x :: r => Forall_cons x (ty_induction x) (all r)
    end in
  let fix all_props (l : list (string * ty)) : Forall (fun kv => P (snd kv)) l :=
    match l with
    | [] => Forall_nil _
    | (k, v) :: r => Forall_cons (k, v) (ty_induction v) (all_props r)
    end in
  match t with
  | TAny => HAny
  | TUnknown => HUnknown
  | TNever => HNever
  | TNull => HNull
  | TUndefined => HUndefined
  | TString => HString
  | TNumber => HNumber
  | TSymbol => HSymbol
  | TBool b => HBool b
  | TStr s => HStr s
  | TNum n => HNum n
  | TNamed n => HNamed n
  | TObj ps => HObj ps (all_props ps)
  | TIndexed v => HIndexed v (ty_induction v)
  | TArr ro e => HArr ro e (ty_induction e)
  | TUnion ts => HUnion ts (all ts)
  | TInter ts => HInter ts (all ts)
  | TNodeCommon d n => HCommon d n (ty_induction d) (ty_induction n)
  | TNodeBody d n => HBody d n (ty_induction d) (ty_induction n)
  end.
End ty_induction.

Section all2.
Context {A : Type} (f : A -> A -> bool).

(** Both lists have the same length and [f] holds position by position. *)
Fixpoint all2 (l m : list A) : bool :=
  match l, m with
  | [], [] => true
  | x :: l', y :: m' => f x y && all2 l' m'
  | _, _ => false
  end.
End all2.

(** Type identity. *)
Fixpoint ty_eqb (a b : ty) {struct a} : bool :=
  match a, b with
  | TAny, TAny | TUnknown, TUnknown | TNever, TNever | TNull, TNull
  | TUndefined, TUndefined | TString, TString | TNumber, TNumber
  | TSymbol, TSymbol => true
  | TBool x, TBool y => Bool.eqb x y
  | TStr x, TStr y => String.eqb x y
  | TNum x, TNum y => Z.eqb x y
  | TNamed x, TNamed y => String.eqb x y
  | TObj l, TObj m =>
      all2 (fun p q => String.eqb (fst p) (fst q) && ty_eqb (snd p) (snd q)) l m
  | TIndexed x, TIndexed y => ty_eqb x y
  | TArr r x, TArr r' y => Bool.eqb r r' && ty_eqb x y
  | TUnion l, TUnion m => all2 ty_eqb l m
  | TInter l, TInter m => all2 ty_eqb l m
  | TNodeCommon d n, TNodeCommon d' n' => ty_eqb d d' && ty_eqb n n'
  | TNodeBody d n, TNodeBody d' n' => ty_eqb d d' && ty_eqb n n'
  | _, _ => false
  end.

(** Property lookup in an object type literal. *)
Fixpoint lookup (k : string) (ps : list (string * ty)) : option ty :=
  match ps with
  | [] => None
  | (k', v) :: r => if String.eqb k k' then Some v else lookup k r
  end.

Definition is_any (t : ty) : bool := match t with TAny => true | _ => false end.
Definition is_unknown (t : ty) : bool := match t with TUnknown => true | _ => false end.
Definition is_never (t : ty) : bool := match t with TNever => true | _ => false end.

(** Unit types: types with exactly one value. *)
Definition is_unit (t : ty) : bool :=
  match t with
  | TBool _ | TStr _ | TNum _ | TNull | TUndefined => true
  | _ => false
  end.

Definition is_object (t : ty) : bool :=
  match t with
  | TObj _ | TIndexed _ | TArr _ _ | TNamed _ | TNodeCommon _ _ | TNodeBody _ _ => true
  | _ => false
  end.

Definition is_nullable (t : ty) : bool :=
  match t with TNull | TUndefined => true | _ => false end.

(** The primitive domains that exclude one another. *)
Inductive domain : Type := DString | DNumber | DSymbol | DVoid | DNull.

Definition domain_of (t : ty) : option domain :=
  match t with
  | TString | TStr _ => Some DString
  | TNumber | TNum _ => Some DNumber
  | TSymbol => Some DSymbol
  | TUndefined => Some DVoid
  | TNull => Some DNull
  | _ => None
  end.

Definition domain_eqb (a b : domain) : bool :=
  match a, b with
  | DString, DString | DNumber, DNumber | DSymbol, DSymbol
  | DVoid, DVoid | DNull, DNull => true
  | _, _ => false
  end.

(** Two constituents that no value inhabits together. *)
Definition clash (a b : ty) : bool :=
  (is_unit a && is_unit b && negb (ty_eqb a b))
  || match domain_of a, domain_of b with
     | Some x, Some y => negb (domain_eqb x y)
     | _, _ => false
     end
  || (is_nullable a && is_object b)
  || (is_object a && is_nullable b).

Fixpoint empty_members (ts : list ty) : bool :=
  match ts with
  | [] => false
  | t :: r => existsb (clash t) r || empty_members r
  end.

(** An intersection with an empty value domain (another form of never). *)
Definition is_empty_inter (t : ty) : bool :=
  match t with
  | TInter ts => empty_members ts
  | _ => false
  end.

Section dedupe_by.
Context {A : Type} (eqb : A -> A -> bool).

(** The elements of a list without repetition, in order of first
    occurrence. *)
Fixpoint dedupe_by (l : list A) : list A :=
  match l with
  | [] => []
  | x :: r => x :: filter (fun y => negb (eqb x y)) (dedupe_by r)
  end.
End dedupe_by.

Definition dedupe : list ty -> list ty := dedupe_by ty_eqb.

(** The constituents of a type seen as a union: a union type is flat, and
    never is the empty union. *)
Fixpoint alts (t : ty) : list ty :=
  match t with
  | TUnion ts => flat_map alts ts
  | TNever => []
  | _ => [t]
  end.

(** A literal whose primitive type is present in the same union. *)
Definition absorbed (l : list ty) (t : ty) : bool :=
  match t with
  | TStr _ => existsb (ty_eqb TString) l
  | TNum _ => existsb (ty_eqb TNumber) l
  | _ => false
  end.

Definition of_members (l : list ty) : ty :=
  match l with
  | [] => TNever
  | [t] => t
  | _ => TUnion l
  end.

(** Union construction: [A | B | ...]. *)
Definition mk_union (ts : list ty) : ty :=
  let flat := flat_map alts ts in
  if existsb is_any flat then TAny
  else if existsb is_unknown flat then TUnknown
  else
    let l := dedupe (filter (fun t => negb (is_empty_inter t)) flat) in
    of_members (filter (fun t => negb (absorbed l t)) l).

(** The constituents of a type seen as an intersection. *)
Definition parts (t : ty) : list ty :=
  match t with
  | TInter ts => ts
  | _ => [t]
  end.

(** A primitive made redundant by one of its literals in an intersection. *)
Definition redundant (l : list ty) (t : ty) : bool :=
  match t with
  | TString => existsb (fun u => match u with TStr _ => true | _ => false end) l
  | TNumber => existsb (fun u => match u with TNum _ => true | _ => false end) l
  | _ => false
  end.

Definition is_empty_object (t : ty) : bool :=
  match t with TObj [] => true | _ => false end.

Definition is_nonempty_object (t : ty) : bool :=
  is_object t && negb (is_empty_object t).

(** Intersection of constituents none of which is a union, never, any or unknown. *)
Definition inter_of (l : list ty) : ty :=
  let l1 := dedupe l in
  let l2 := filter (fun t => negb (redundant l1 t)) l1 in
  let l3 := if existsb is_nonempty_object l2
            then filter (fun t => negb (is_empty_object t)) l2 else l2 in
  match l3 with
  | [] => TUnknown
  | [t] => t
  | _ => TInter l3
  end.

Definition and_atom (x y : ty) : ty :=
  match x, y with
  | TAny, _ | _, TAny => TAny
  | TUnknown, _ => y
  | _, TUnknown => x
  | _, _ => inter_of (parts x ++ parts y)
  end.

Definition is_union (t : ty) : bool := match t with TUnion _ => true | _ => false end.

(** Intersection construction: [A & B]. *)
Definition ty_and (a b : ty) : ty :=
  if is_never a || is_never b then TNever
  else if is_union a || is_union b
  then mk_union (flat_map (fun x => map (and_atom x) (alts b)) (alts a))
  else and_atom a b.

Definition boolean : ty := TUnion [TBool false; TBool true].

(** [type Key = keyof any] *)
Definition Key : ty := TUnion [TString; TNumber; TSymbol].

(** The string literals among the constituents of a key type: the property
    names a mapped type [{ [P in K]: ... }] declares. *)
Definition names_of (k : ty) : list string :=
  flat_map (fun t => match t with TStr s => [s] | _ => [] end) (alts k).

(** [keyof T] *)
Definition keyof (t : ty) : ty :=
  match t with
  | TObj ps => mk_union (map (fun kv => TStr (fst kv)) ps)
  | TAny | TNever => Key
  | TNodeCommon _ _ => TUnion [TStr "range"; TStr "loc"; TStr "parent"]
  | TIndexed _ => TUnion [TString; TNumber]
  | _ => TNever
  end.

(** Indexed access [T[K]] with a literal key. *)
Definition index1 (t : ty) (k : ty) : ty :=
  match t, k with
  | TAny, _ => TAny
  | TObj ps, TStr s => match lookup s ps with Some v => v | None => TNever end
  | TIndexed v, TStr _ => v
  | TArr _ e, TNum _ => e
  | _, _ => TNever
  end.

(** Indexed access [T[K]]: the union of the accesses when the object or the
    key is a union. *)
Definition index (t : ty) (k : ty) : ty :=
  if is_never t || is_never k then TNever
  else if is_union t || is_union k
  then mk_union (flat_map (fun ti => map (index1 ti) (alts k)) (alts t))
  else index1 t k.

(* ===================================================================== *)
(** ** Assignability and conditional types *)
(* ===================================================================== *)

Section Assignability.

(** The declared members of a type reference, computed on demand.  The
    definitions that build resolved nodes never inspect one, and use
    [no_members]; [ExtractNode] compares resolved nodes with a filter and
    uses [node_members] below. *)
Variable members : ty -> string -> option ty.

Definition declared1 (s : ty) (k : string) : option ty :=
  match s with
  | TObj ps => lookup k ps
  | _ => members s k
  end.

(** A property of an intersection is declared by the constituents that
    have it; its type is the intersection of theirs. *)
Definition declared (s : ty) (k : string) : option ty :=
  match s with
  | TInter ss =>
      match flat_map (fun si => match declared1 si k with
                                | Some v => [v] | None => [] end) ss with
      | [] => None
      | v :: vs => Some (fold_left ty_and vs v)
      end
  | _ => declared1 s k
  end.

(** [extends_to t s]: is [s] assignable to [t]. *)
Fixpoint extends_to (t : ty) : ty -> bool :=
  fix from (s : ty) : bool :=
    match s with
    | TNever => true
    | TUnion ss => forallb from ss
    | TAny => negb (is_never t)
    | _ =>
      match t with
      | TAny | TUnknown => true
      | TUnion ts => existsb (fun ti => extends_to ti s) ts
      | TInter ts => forallb (fun ti => extends_to ti s) ts
      | TObj tps =>
          let has_all :=
            forallb (fun kv => match kv with
                               | (k, tv) => match declared s k with
                                            | Some sv => extends_to tv sv
                                            | None => false
                                            end
                               end) tps in
          match s with
          | TNull | TUndefined | TUnknown => false
          | TInter ss => existsb from ss
                         || (negb (is_empty_object t) && has_all)
          | _ => has_all
          end
      | TIndexed tv =>
          match s with
          | TIndexed sv => extends_to tv sv
          | TObj sps => forallb (fun kv => extends_to tv (snd kv)) sps
          | TInter ss => existsb from ss
          | _ => false
          end
      | TArr rt et =>
          match s with
          | TArr rs es => implb rs rt && extends_to et es
          | TInter ss => existsb from ss
          | _ => false
          end
      | TString =>
          match s with
          | TString | TStr _ => true
          | TInter ss => existsb from ss
          | _ => false
          end
      | TNumber =>
          match s with
          | TNumber | TNum _ => true
          | TInter ss => existsb from ss
          | _ => false
          end
      | _ =>
          match s with
          | TInter ss => ty_eqb s t || existsb from ss
          | _ => ty_eqb s t
          end
      end
    end.

(** [S extends T] *)
Definition extends (s t : ty) : bool := extends_to t s.

(** A conditional type [C extends E ? yes : no] once its check type is
    known. *)
Definition cond (c e : ty) (yes no : ty) : ty :=
  if is_any e || is_unknown e then yes
  else if is_any c then mk_union [yes; no]
  else if extends c e then yes else no.

(** Distribution of a conditional type over its naked type parameter. *)
Definition distribute (t : ty) (f : ty -> ty) : ty :=
  match t with
  | TUnion _ => mk_union (map f (alts t))
  | TNever => TNever
  | _ => f t
  end.

(** A conditional type whose [extends] clause binds an [infer] variable:
    [pat] returns the inferred type when the check type matches. *)
Definition cond_infer (c : ty) (pat : ty -> option ty)
           (yes : ty -> ty) (no : ty) : ty :=
  match c with
  | TAny => mk_union [yes TUnknown; no]
  | _ => match pat c with
         | Some t => yes t
         | None => no
         end
  end.

(** [Extract<T, U>] and [Exclude<T, U>] of the standard library. *)
Definition Extract (t u : ty) : ty := distribute t (fun x => cond x u x TNever).
Definition Exclude (t u : ty) : ty := distribute t (fun x => cond x u TNever x).

End Assignability.

Definition no_members : ty -> string -> option ty := fun _ _ => None.

Definition extends0 : ty -> ty -> bool := extends no_members.
Definition cond0 : ty -> ty -> ty -> ty -> ty := cond no_members.

Definition empty_object : ty := TObj [].

(* ===================================================================== *)
(** ** [Node<Type, ASTDefinition>] *)
(* ===================================================================== *)

(** [interface NodeRef<TType extends string> { $ref: TType }] *)
Definition NodeRef (TType : ty) : ty := TObj [("$ref", TType)].

(** Modelled from the spec: the types [Range] (the byte-range pair) and
    [Location] (the source location) that the source imports from
    [./ast-common], which is not among the sources; they are kept opaque. *)
Definition Range : ty := TNamed "Range".
Definition Location : ty := TNamed "Location".

(** [T extends never ? true : false], distributive in [T]. *)
Definition extends_never (T : ty) : ty :=
  distribute T (fun t => cond0 t TNever (TBool true) (TBool false)).

(** [IsAny<T> = boolean extends (T extends never ? true : false) ? true : false] *)
Definition IsAny (T : ty) : ty :=
  cond0 boolean (extends_never T) (TBool true) (TBool false).

(** [IsNever<T> = false extends (T extends never ? true : false) ? false : true] *)
Definition IsNever (T : ty) : ty :=
  cond0 (TBool false) (extends_never T) (TBool false) (TBool true).

(** [TDef["nodes"]] *)
Definition nodes_of (TDef : ty) : ty := index TDef (TStr "nodes").

(** The chain of conditional types of [ResolveNodeType] below its [IsAny]
    test, at one constituent of [TType]. *)
Definition meta_name (TDef : ty) (t : ty) : ty :=
  cond0 t (TStr "Node") (keyof (nodes_of TDef))
    (cond0 t (TStr "Statement") (index TDef (TStr "statementType"))
       (cond0 t (TStr "Expression") (index TDef (TStr "expressionType"))
          t)).

(** [ResolveNodeType<TType, TDef>] *)
Definition ResolveNodeType (TType TDef : ty) : ty :=
  ty_and (ty_and TString (keyof (nodes_of TDef)))
         (cond0 (IsAny TType) (TBool true)
                (keyof (nodes_of TDef))
                (distribute TType (meta_name TDef))).

(** [type NodeFallback = { [key: string]: undefined }] *)
Definition NodeFallback : ty := TIndexed TUndefined.

(** The two branches of [Node] at one constituent of [TType]. *)
Definition known_node (TDefinition t : ty) : ty :=
  ty_and (ty_and (TNodeCommon TDefinition t) (TNodeBody TDefinition t)) NodeFallback.

Definition unknown_type (t : ty) : ty :=
  ty_and (ty_and empty_object (TStr "UNKNOWN TYPE:")) t.

(** [Node<TType, TDefinition>] *)
Definition Node (TType TDefinition : ty) : ty :=
  distribute TType (fun t =>
    cond0 t (keyof (nodes_of TDefinition))
          (known_node TDefinition t)
          (unknown_type t)).

(** [ResolveNode<TType, TDef> = Node<ResolveNodeType<TType, TDef>, TDef>] *)
Definition ResolveNode (TType TDef : ty) : ty :=
  Node (ResolveNodeType TType TDef) TDef.

(** The pattern [{ $ref: infer T }]: the type of the declared property
    [$ref] of an object type, and of an intersection one of whose
    constituents declares it. *)
Definition match_ref (t : ty) : option ty := declared no_members t "$ref".

(** The check type [TMaybeNodeRef] in the true branch of
    [TMaybeNodeRef extends { $ref: infer T }], for the constituent [t] of
    the inferred [T] at hand: the reference [m] itself when it is assignable
    to [{ $ref: t }], and the intersection [{ $ref: t } & m] otherwise. *)
Definition narrowed (m t : ty) : ty :=
  if extends0 m (TObj [("$ref", t)]) then m
  else ty_and (TObj [("$ref", t)]) m.

(** [ResolveNodeRef<TMaybeNodeRef, TDef>] *)
Definition ResolveNodeRef (TMaybeNodeRef TDef : ty) : ty :=
  distribute TMaybeNodeRef (fun m =>
    cond_infer m match_ref
      (fun T => distribute T (fun t => cond0 t Key (ResolveNode t TDef)
                                            (narrowed m t)))
      m).

(** The pattern [(infer TElement)[]]; a read-only array is not assignable
    to it. *)
Definition match_array (t : ty) : option ty :=
  match t with
  | TArr false e => Some e
  | _ => None
  end.

(** [NodeProperty<TValue, TDef>] *)
Definition NodeProperty (TValue TDef : ty) : ty :=
  distribute TValue (fun v =>
    cond_infer v match_array
      (fun TElement => TArr true (ResolveNodeRef TElement TDef))
      (ResolveNodeRef v TDef)).

(** [type NodeCommonKey = keyof NodeCommon<any, any>] *)
Definition NodeCommonKey : ty := keyof (TNodeCommon TAny TAny).

(** The pattern [{ $ref: infer TType }[]]: every constituent of the element
    type has to declare [$ref]; the payloads are inference candidates for
    the same variable and infer their union. *)
Definition match_ref_array (t : ty) : option ty :=
  match t with
  | TArr false e =>
      match e with
      | TNever | TAny => Some TUnknown
      | _ =>
          if forallb (fun m => match match_ref m with Some _ => true | None => false end)
                     (alts e)
          then Some (mk_union (flat_map (fun m => match match_ref m with
                                                  | Some T => [T]
                                                  | None => []
                                                  end) (alts e)))
          else None
      end
  | _ => None
  end.

(** [NodeRefType<TMaybeNodeRef>] *)
Definition NodeRefType (TMaybeNodeRef : ty) : ty :=
  Extract no_members
    (mk_union
       [ distribute TMaybeNodeRef (fun m => cond_infer m match_ref (fun T => T) TNever);
         distribute TMaybeNodeRef (fun m => cond_infer m match_ref_array (fun T => T) TNever) ])
    Key.

(** [ChildNodeType<TNodeDef, TDef>] *)
Definition ChildNodeType (TNodeDef TDef : ty) : ty :=
  ResolveNodeType
    (mk_union (map (fun P => NodeRefType (index TNodeDef (TStr P)))
                   (names_of (keyof TNodeDef))))
    TDef.

(** [ParentNodeType<TType, TDef>] *)
Definition ParentNodeType (TType TDef : ty) : ty :=
  Extract no_members
    (mk_union
       (map (fun P =>
               distribute TType (fun t =>
                 cond0 t (ChildNodeType (index (nodes_of TDef) (TStr P)) TDef)
                       (TStr P) TNever))
            (names_of (keyof (nodes_of TDef)))))
    TString.

(** [NeverToNull<T> = IsNever<T> extends true ? null : T] *)
Definition NeverToNull (T : ty) : ty :=
  cond0 (IsNever T) (TBool true) TNull T.

(** [ParentNode<TType, TDef>] *)
Definition ParentNode (TType TDef : ty) : ty :=
  NeverToNull (Node (ParentNodeType TType TDef) TDef).

(** The members of [interface NodeCommon<TDef, TType>]. *)
Definition NodeCommon_member (TDef TType : ty) (k : string) : option ty :=
  if String.eqb k "range" then Some Range
  else if String.eqb k "loc" then Some Location
  else if String.eqb k "parent" then Some (ParentNode TType TDef)
  else None.

(** The key type of the mapped type [NodeBody]:
    [Exclude<"type" | keyof TDef["nodes"][TType], NodeCommonKey>]. *)
Definition NodeBody_keys (TDef TType : ty) : ty :=
  Exclude no_members
    (mk_union [TStr "type"; keyof (index (nodes_of TDef) TType)])
    NodeCommonKey.

(** The members of [NodeBody<TDef, TType>]. *)
Definition NodeBody_member (TDef TType : ty) (P : string) : option ty :=
  if existsb (String.eqb P) (names_of (NodeBody_keys TDef TType))
  then Some (cond0 (TStr P) (keyof (index (nodes_of TDef) TType))
                   (NodeProperty (index (index (nodes_of TDef) TType) (TStr P)) TDef)
                   TType)
  else None.

(** The declared members of the two type references. *)
Definition node_members (t : ty) (k : string) : option ty :=
  match t with
  | TNodeCommon TDef TType => NodeCommon_member TDef TType k
  | TNodeBody TDef TType => NodeBody_member TDef TType k
  | _ => None
  end.

(** The string index signature of a type, if it has one. *)
Definition index_signature (t : ty) : option ty :=
  match t with
  | TIndexed v => Some v
  | TInter ss =>
      match flat_map (fun s => match s with TIndexed v => [v] | _ => [] end) ss with
      | [] => None
      | v :: vs => Some (fold_left ty_and vs v)
      end
  | _ => None
  end.

(** The type of the property access [x.k] for [x] of a type [t] that is not
    a union: the declared property, else the string index signature; [None]
    is a type error. *)
Definition member (t : ty) (k : string) : option ty :=
  match t with
  | TAny => Some TAny
  | _ =>
      match declared node_members t k with
      | Some v => Some v
      | None => index_signature t
      end
  end.

(** The type of the property access [x.k] for [x] of type [t]: on a union,
    every constituent has to have the property, and the access has the
    union of their types. *)
Definition property (t : ty) (k : string) : option ty :=
  match t with
  | TUnion _ =>
      match alts t with
      | [] => None
      | l =>
          if forallb (fun a => match member a k with
                               | Some _ => true
                               | None => false
                               end) l
          then Some (mk_union (flat_map (fun a => match member a k with
                                                  | Some v => [v]
                                                  | None => []
                                                  end) l))
          else None
      end
  | _ => member t k
  end.

(** [ExtractNode<TDefinition, TType, TFilter = any>] *)
Definition ExtractNode (TDefinition TType TFilter : ty) : ty :=
  Extract node_members
    (distribute TType (fun t =>
       cond0 t (TUnion [TStr "Node"; TStr "Statement"; TStr "Expression"])
             (ResolveNode t TDefinition)
             (Extract node_members (ResolveNode (TStr "Node") TDefinition)
                      (TObj [("type", t)]))))
    TFilter.

(* ===================================================================== *)
(** ** [Extends<ASTDefinition, ASTEnhancement>] *)
(* ===================================================================== *)

(** The enhancement list is a tuple type: the list of its element types. *)

(** [T extends [infer X, ...any[]] ? X : never] and its three siblings. *)
Definition At0 (T : list ty) : ty :=
  match T with X :: _ => X | _ => TNever end.
Definition At1 (T : list ty) : ty :=
  match T with _ :: X :: _ => X | _ => TNever end.
Definition At2 (T : list ty) : ty :=
  match T with _ :: _ :: X :: _ => X | _ => TNever end.
Definition At3 (T : list ty) : ty :=
  match T with _ :: _ :: _ :: X :: _ => X | _ => TNever end.

(** [((...x: T) => void) extends ((_0, _1, _2, _3, ...xs: infer XS) => void)]:
    a function of fewer than four parameters is assignable to the target
    too, and the rest parameter then infers the empty tuple. *)
Definition Shift4 (T : list ty) : list ty :=
  match T with
  | _ :: _ :: _ :: _ :: XS => XS
  | _ => []
  end.

(** [[TObject] extends [{ [P in TKey]: infer TResult }]]: the type of the
    declared property [TKey]; nothing is inferred from [any] or [never],
    which are assignable to the pattern all the same. *)
Definition infer_prop (TObject : ty) (TKey : string) : option ty :=
  match TObject with
  | TObj ps => lookup TKey ps
  | TAny | TNever => Some TUnknown
  | _ => None
  end.

(** [Prop<TObject, TKey, TExpected = any, TDefault = never>] *)
Definition Prop_ (TObject : ty) (TKey : string) (TExpected TDefault : ty) : ty :=
  match infer_prop TObject TKey with
  | Some TResult =>
      distribute TResult (fun r => cond0 r TExpected r TDefault)
  | None => TDefault
  end.

(** [UniteArray<T> = [T] extends [any[]] ? T[0][] : T] *)
Definition UniteArray (T : ty) : ty :=
  if extends0 T (TArr false TAny) then TArr false (index T (TNum 0)) else T.

(** [P extends keyof T ? T[P] : never] *)
Definition prop_or_never (P : string) (T : ty) : ty :=
  cond0 (TStr P) (keyof T) (index T (TStr P)) TNever.

(** [MergeNodeProperties<T, U, V, W, X>] *)
Definition MergeNodeProperties (T U V W X : ty) : ty :=
  TObj (map (fun P =>
               (P, UniteArray (mk_union [prop_or_never P T; prop_or_never P U;
                                         prop_or_never P V; prop_or_never P W;
                                         prop_or_never P X])))
            (names_of (mk_union [keyof T; keyof U; keyof V; keyof W; keyof X]))).

(** [MergeNodes<T, U, V, W, X>] *)
Definition MergeNodes (T U V W X : ty) : ty :=
  TObj (map (fun P =>
               (P, MergeNodeProperties
                     (Prop_ T P empty_object empty_object)
                     (Prop_ U P empty_object empty_object)
                     (Prop_ V P empty_object empty_object)
                     (Prop_ W P empty_object empty_object)
                     (Prop_ X P empty_object empty_object)))
            (names_of (mk_union [keyof T; keyof U; keyof V; keyof W; keyof X]))).

(** The definition built by one step of [ExtendsRec]: the base merged with
    the enhancements at positions 0 to 3 of the list. *)
Definition merged (TDefinition : ty) (TEnhancements : list ty) : ty :=
  TObj
    [ ("statementType",
        mk_union [ Prop_ TDefinition "statementType" TString TNever;
                   Prop_ (At0 TEnhancements) "statementType" TString TNever;
                   Prop_ (At1 TEnhancements) "statementType" TString TNever;
                   Prop_ (At2 TEnhancements) "statementType" TString TNever;
                   Prop_ (At3 TEnhancements) "statementType" TString TNever ]);
      ("expressionType",
        mk_union [ Prop_ TDefinition "expressionType" TString TNever;
                   Prop_ (At0 TEnhancements) "expressionType" TString TNever;
                   Prop_ (At1 TEnhancements) "expressionType" TString TNever;
                   Prop_ (At2 TEnhancements) "expressionType" TString TNever;
                   Prop_ (At3 TEnhancements) "expressionType" TString TNever ]);
      ("nodes",
        MergeNodes
          (Prop_ TDefinition "nodes" empty_object empty_object)
          (Prop_ (At0 TEnhancements) "nodes" empty_object empty_object)
          (Prop_ (At1 TEnhancements) "nodes" empty_object empty_object)
          (Prop_ (At2 TEnhancements) "nodes" empty_object empty_object)
          (Prop_ (At3 TEnhancements) "nodes" empty_object empty_object)) ].

(** [ExtendsRec<TDefinition, TEnhancements>]: the selector
    [TEnhancements extends [] ? 0 : 1] picks the base case for the empty
    tuple and the recursive case otherwise. *)
Equations? ExtendsRec (TDefinition : ty) (TEnhancements : list ty) : ty
  by wf (List.length TEnhancements) lt :=
  ExtendsRec D [] := D;
  ExtendsRec D (e :: es) := ExtendsRec (merged D (e :: es)) (Shift4 (e :: es)).
Proof. destruct es as [|e1 [|e2 [|e3 r]]]; simpl; lia. Qed.

(** The second argument of [Extends]: [ASTEnhancement | ASTEnhancement[]]. *)
Inductive enhancement_arg : Type :=
| One (e : ty)
| Many (es : list ty).

(** [Extends<TDefinition, TEnhancement>] *)
Definition Extends (TDefinition : ty) (TEnhancement : enhancement_arg) : ty :=
  ExtendsRec TDefinition
             (match TEnhancement with
              | Many es => es
              | One e => [e]
              end).


(* ===================================================================== *)
(** ** Vocabulary of the statements *)
(* ===================================================================== *)

(** One recursive step of [ExtendsRec] on the pair (base, enhancement list). *)
Definition one_step (c : ty * list ty) : ty * list ty :=
  (merged (fst c) (snd c), Shift4 (snd c)).

(** Names without repetition, in order of first occurrence. *)
Definition sdedupe : list string -> list string := dedupe_by String.eqb.

(** The union of the string literal types of a list of distinct names. *)
Definition lits (M : list string) : ty := of_members (map TStr M).

(** The declared member [k] of an object type literal. *)
Definition field (t : ty) (k : string) : option ty :=
  match t with
  | TObj ps => lookup k ps
  | _ => None
  end.

(** The node definitions of a definition or enhancement, the node-shape it
    gives to node-type [N], and the type it declares there for property [p]. *)
Definition nodes_list (E : ty) : list (string * ty) :=
  match field E "nodes" with
  | Some (TObj ns) => ns
  | _ => []
  end.

Definition shape_list (E : ty) (N : string) : list (string * ty) :=
  match lookup N (nodes_list E) with
  | Some (TObj s) => s
  | _ => []
  end.

Definition node_prop (E : ty) (N p : string) : option ty :=
  lookup p (shape_list E N).

Definition is_object_literal (t : ty) : bool :=
  match t with TObj _ => true | _ => false end.

(** An enhancement (or a base definition) as far as the merge of [nodes]
    reads it: an object type whose [nodes] member, when present, maps
    node-type names to object types. *)
Definition nodes_ok (E : ty) : bool :=
  match E with
  | TObj ps =>
      match lookup "nodes" ps with
      | Some (TObj ns) => forallb (fun kv => is_object_literal (snd kv)) ns
      | Some _ => false
      | None => true
      end
  | _ => false
  end.

(** A slot of the batch of four: an enhancement, or [never] past the end of
    the list. *)
Definition slot_ok (E : ty) : bool := nodes_ok E || is_never E.

(** The type a definition or enhancement contributes to property [p] of
    node-type [N] in a merge: the declared type, [never] when it declares
    none. *)
Definition declared_type (E : ty) (N p : string) : ty :=
  match node_prop E N p with
  | Some v => v
  | None => TNever
  end.

(** The property names of the merge of five object types. *)
Definition merge_keys (a b c d e : list (string * ty)) : list string :=
  sdedupe (sdedupe (map fst a) ++ sdedupe (map fst b) ++ sdedupe (map fst c)
           ++ sdedupe (map fst d) ++ sdedupe (map fst e)).

(** The element type of the array that unites the arrays of element types
    [l]. *)
Definition elem_union (l : list ty) : ty :=
  match l with
  | [x] => x
  | _ => mk_union l
  end.

(** A base definition and two enhancements used as running examples:
    node-type [Program] with a [body] sequence, extended twice. *)
Definition ex_base : ty :=
  TObj [("nodes",
          TObj [("Identifier", TObj [("name", TString)]);
                ("Program", TObj [("body", TArr false (TObj [("$ref", TStr "Statement")]))])]);
        ("statementType", TStr "Identifier");
        ("expressionType", TStr "Identifier")].

Definition ex_enh_comments : ty :=
  TObj [("nodes", TObj [("Program", TObj [("comments", TArr false TString)])])].

Definition ex_enh_tokens : ty :=
  TObj [("nodes", TObj [("Program", TObj [("tokens", TArr false TNumber);
                                          ("comments", TArr false TNumber)])])].

(** Two enhancements that redeclare, as sequences, a property that the base
    declares with the non-sequence type [string]. *)
Definition ex_enh_name_a : ty :=
  TObj [("nodes", TObj [("Identifier", TObj [("name", TArr false TNumber)])])].

Definition ex_enh_name_b : ty :=
  TObj [("nodes", TObj [("Identifier", TObj [("name", TArr false TSymbol)])])].

(** A type that names node types: a union of string literal types,
    [string], or [never]. *)
Definition name_type (t : ty) : bool :=
  forallb (fun a => match a with TStr _ | TString => true | _ => false end) (alts t).

(** A type in the form the checker gives it: building the union of its
    constituents yields the type itself. *)
Definition checked (t : ty) : bool := ty_eqb (mk_union [t]) t.

(** [TDef extends ASTDefinition]: an object type whose [nodes] member maps
    node-type names to object types and whose [statementType] and
    [expressionType] members name node types. *)
Definition ASTDefinition (D : ty) : bool :=
  match D with
  | TObj ps =>
      match lookup "nodes" ps, lookup "statementType" ps, lookup "expressionType" ps with
      | Some (TObj ns), Some st, Some ex =>
          forallb (fun kv => is_object_literal (snd kv)) ns
          && name_type st && checked st && name_type ex && checked ex
      | _, _, _ => false
      end
  | _ => false
  end.

(** The node-type names of a definition, without repetition. *)
Definition node_names (D : ty) : list string := sdedupe (map fst (nodes_list D)).

(** The names of the members of [NodeCommon]. *)
Definition is_common_key (k : string) : bool :=
  String.eqb k "range" || String.eqb k "loc" || String.eqb k "parent".

(** The three meta-names. *)
Definition is_meta_name (k : string) : bool :=
  String.eqb k "Node" || String.eqb k "Statement" || String.eqb k "Expression".

(** A definition whose node-shape [Literal] declares [type] and [range]
    itself. *)
Definition ex_typed : ty :=
  TObj [("nodes",
          TObj [("Literal", TObj [("type", TStr "Lit"); ("range", TString);
                                  ("value", TString)])]);
        ("statementType", TNever);
        ("expressionType", TStr "Literal")].

(** No constituent of the type is one of the three meta-names. *)
Definition names_no_meta (t : ty) : bool :=
  forallb (fun a => match a with
                    | TStr s => negb (is_meta_name s)
                    | _ => true
                    end) (alts t).

(** A definition whose [statementType] is the meta-name ["Expression"]. *)
Definition ex_statement_meta : ty :=
  TObj [("nodes", TObj [("A", TObj []); ("B", TObj [])]);
        ("statementType", TStr "Expression");
        ("expressionType", TStr "B")].




(** The name [B] is assignable to the type [t]: [t] names the node-type
    [B]. *)
Definition has (B : string) (t : ty) : bool := extends0 (TStr B) t.

(** No constituent of the type is [any]. *)
Definition no_any (t : ty) : bool := forallb (fun a => negb (is_any a)) (alts t).



(** The node-types of [D] whose node-shape refers to [B]: the parent
    candidates of [B]. *)
Definition parents (D : ty) (B : string) : list string :=
  filter (fun P => has B (ChildNodeType (index (nodes_of D) (TStr P)) D))
         (node_names D).



(** A fifth enhancement for the running example: it adds [sourceType] to
    [Program]. *)
Definition ex_enh_source_type : ty :=
  TObj [("nodes", TObj [("Program", TObj [("sourceType", TString)])])].

(** A type with a constituent, none of whose constituents is [any] or
    assignable to [never]. *)
Definition inhabited (T : ty) : bool :=
  match alts T with
  | [] => false
  | l => forallb (fun a => negb (is_any a) && negb (extends0 a TNever)) l
  end.

(** [type ASTEnhancement = Partial<ASTDefinition>]: an object type in which
    each of the three members of a definition may be absent; [nodes], when
    present, maps node-type names to object types, and [statementType] and
    [expressionType], when present, name node types. *)
Definition names_ok (E : ty) (k : string) : bool :=
  match field E k with
  | Some s => name_type s
  | None => true
  end.

Definition ASTEnhancement (E : ty) : bool :=
  nodes_ok E && names_ok E "statementType" && names_ok E "expressionType".

(** The definition or enhancement [E] declares property [p] of node-type
    [N]. *)
Definition declares (E : ty) (N p : string) : bool :=
  match node_prop E N p with
  | Some _ => true
  | None => false
  end.

(** The member [k] ([statementType] or [expressionType]) of [E] names the
    node-type [B]. *)
Definition lists (E : ty) (k B : string) : bool :=
  match field E k with
  | Some s => has B s
  | None => false
  end.

(** A declared property type that is not assignable to [any[]]. *)
Definition not_sequence (v : ty) : bool := negb (extends0 v (TArr false TAny)).

(* ===================================================================== *)
(** ** The ES2017 definition ([ast-es2017.d.ts]) *)
(* ===================================================================== *)

Module ES2017.

(** [ASTEnhancements.AsyncFunction] *)
Definition AsyncFunction : ty :=
  TObj [("nodes",
          TObj [("ArrowFunctionExpression", TObj [("async", boolean)]);
                ("FunctionDeclaration", TObj [("async", boolean)]);
                ("FunctionExpression", TObj [("async", boolean)]);
                ("AwaitExpression",
                  TObj [("argument", NodeRef (TStr "Expression"))])]);
        ("expressionType", TStr "AwaitExpression")].

(** [interface ASTDefinition extends
       Def.Extends<es2016.ASTDefinition, ASTEnhancements.AsyncFunction> {}];
    the ES2016 definition comes from [./ast-es2016], which is not among the
    sources, and is a parameter here. *)
Definition ASTDefinition (es2016 : ty) : ty :=
  Extends es2016 (One AsyncFunction).

(** [type Node<T extends string = "Node", TFilter = any> =
       Def.ExtractNode<ASTDefinition, T, TFilter>] *)
Definition Node (es2016 T TFilter : ty) : ty :=
  ExtractNode (ASTDefinition es2016) T TFilter.

End ES2017.

(* ===================================================================== *)
(** ** The definition used by the rules ([rule.d.ts]) *)
(* ===================================================================== *)

Module Rule.

(** [interface ASTDefinition extends
       Def.Extends<ES2019.ASTDefinition, { nodes: {} }> {}]; the ES2019
    definition comes from [../../types/ast], which is not among the sources,
    and is a parameter here. *)
Definition ASTDefinition (ES2019 : ty) : ty :=
  Extends ES2019 (One (TObj [("nodes", TObj [])])).

(** [type AST<T extends string = "Node", TFilter = any> =
       Def.ExtractNode<ASTDefinition, T, TFilter>] *)
Definition AST (ES2019 T TFilter : ty) : ty :=
  ExtractNode (ASTDefinition ES2019) T TFilter.

End Rule.
(* ===================================================================== *)
(** ** Facts about the checker operations *)
(* ===================================================================== *)

Lemma ty_eqb_refl (t : ty) : ty_eqb t t = true.
Proof.
  induction t using ty_induction; simpl; auto using Bool.eqb_reflx, String.eqb_refl, Z.eqb_refl.
  - induction H as [|[k v] r Hv _ IH]; simpl in *; auto.
    now rewrite String.eqb_refl, Hv, IH.
  - now rewrite Bool.eqb_reflx.
  - induction H; simpl; auto. now rewrite H, IHForall.
  - induction H; simpl; auto. now rewrite H, IHForall.
  - now rewrite IHt1, IHt2.
  - now rewrite IHt1, IHt2.
Qed.

Lemma ty_eqb_eq (a b : ty) : ty_eqb a b = true -> a = b.
Proof.
  revert b. induction a using ty_induction; intros [] E; simpl in E; try discriminate; auto.
  - f_equal. now apply Bool.eqb_prop.
  - f_equal. now apply String.eqb_eq.
  - f_equal. now apply Z.eqb_eq.
  - f_equal. now apply String.eqb_eq.
  - f_equal. revert props E.
    induction H as [|[k v] r Hv _ IH]; intros [|[k' v'] r'] E;
      simpl in E; try discriminate; auto.
    apply andb_prop in E as [E Er]. apply andb_prop in E as [Ek Ev].
    apply String.eqb_eq in Ek. apply Hv in Ev. simpl in Ev.
    subst. f_equal. now apply IH.
  - f_equal. auto.
  - apply andb_prop in E as [Er Ee]. apply Bool.eqb_prop in Er.
    apply IHa in Ee. now subst.
  - f_equal. revert ts0 E.
    induction H as [|x r Hx _ IH]; intros [|y r'] E;
      simpl in E; try discriminate; auto.
    apply andb_prop in E as [Ex Er]. f_equal; auto.
  - f_equal. revert ts0 E.
    induction H as [|x r Hx _ IH]; intros [|y r'] E;
      simpl in E; try discriminate; auto.
    apply andb_prop in E as [Ex Er]. f_equal; auto.
  - apply andb_prop in E as [E1 E2]. f_equal; auto.
  - apply andb_prop in E as [E1 E2]. f_equal; auto.
Qed.

Lemma ty_eqb_neq (a b : ty) : a <> b -> ty_eqb a b = false.
Proof.
  intros N. destruct (ty_eqb a b) eqn:E; auto.
  apply ty_eqb_eq in E. contradiction.
Qed.

Lemma extends_to_union (m : ty -> string -> option ty) (t : ty) (ss : list ty) :
  extends_to m t (TUnion ss) = forallb (extends_to m t) ss.
Proof. now destruct t. Qed.

Lemma extends_to_any (m : ty -> string -> option ty) (s : ty) :
  extends_to m TAny s = true.
Proof.
  induction s using ty_induction; try reflexivity.
  rewrite extends_to_union. now apply forallb_forall, Forall_forall.
Qed.

Lemma flat_map_alts_lits (L : list string) :
  flat_map alts (map TStr L) = map TStr L.
Proof. induction L; simpl; congruence. Qed.

Lemma alts_lits (M : list string) : alts (lits M) = map TStr M.
Proof.
  destruct M as [|x [|y r]]; try reflexivity.
  unfold lits, of_members. cbn [map alts].
  change (TStr x :: TStr y :: map TStr r) with (map TStr (x :: y :: r)).
  apply flat_map_alts_lits.
Qed.

Lemma names_of_lits (M : list string) : names_of (lits M) = M.
Proof.
  unfold names_of. rewrite alts_lits.
  induction M; simpl; congruence.
Qed.

Lemma In_sdedupe (x : string) (L : list string) : In x (sdedupe L) <-> In x L.
Proof.
  unfold sdedupe.
  induction L as [|y r IH]; simpl; [tauto|].
  rewrite filter_In, IH. destruct (String.eqb_spec y x); simpl; intuition congruence.
Qed.

Lemma filter_all {A} (f : A -> bool) (l : list A) :
  (forall x, In x l -> f x = true) -> filter f l = l.
Proof.
  induction l as [|a r IH]; simpl; intros H; auto.
  rewrite (H a) by auto. f_equal. auto.
Qed.

Lemma existsb_none {A} (f : A -> bool) (l : list A) :
  (forall x, In x l -> f x = false) -> existsb f l = false.
Proof.
  induction l as [|a r IH]; simpl; intros H; auto.
  rewrite (H a) by auto. auto.
Qed.

(** *** Unions of types tagged by an index *)

Section Tagged.
Context {I : Type} (ieqb : I -> I -> bool) (h : I -> ty).
Hypothesis h_alts : forall x, alts (h x) = [h x].
Hypothesis h_any : forall x, is_any (h x) = false.
Hypothesis h_unknown : forall x, is_unknown (h x) = false.
Hypothesis h_inhabited : forall x, is_empty_inter (h x) = false.
Hypothesis h_kept : forall L x, absorbed (map h L) (h x) = false.
Hypothesis h_eqb : forall x y, ty_eqb (h x) (h y) = ieqb x y.

Lemma flat_map_alts_tagged (L : list I) :
  flat_map alts (map h L) = map h L.
Proof. induction L; simpl; rewrite ?h_alts; simpl; congruence. Qed.

Lemma dedupe_tagged (L : list I) :
  dedupe (map h L) = map h (dedupe_by ieqb L).
Proof.
  unfold dedupe.
  induction L as [|x r IH]; simpl; auto.
  f_equal. rewrite IH. clear IH.
  induction (dedupe_by ieqb r) as [|y t IHt]; simpl; auto.
  rewrite h_eqb. destruct (ieqb x y); simpl; congruence.
Qed.

(** The union built from a flattened list whose inhabited members are
    tagged types. *)
Lemma mk_union_filtered (ts : list ty) (L : list I) :
  existsb is_any (flat_map alts ts) = false ->
  existsb is_unknown (flat_map alts ts) = false ->
  filter (fun t => negb (is_empty_inter t)) (flat_map alts ts) = map h L ->
  mk_union ts = of_members (map h (dedupe_by ieqb L)).
Proof.
  intros A U E. unfold mk_union. rewrite A, U, E.
  rewrite dedupe_tagged.
  rewrite filter_all; auto.
  intros t [x [<- _]]%in_map_iff. now rewrite h_kept.
Qed.

Lemma mk_union_tagged (ts : list ty) (L : list I) :
  flat_map alts ts = map h L ->
  mk_union ts = of_members (map h (dedupe_by ieqb L)).
Proof.
  intros E. apply mk_union_filtered; rewrite E.
  - apply existsb_none. intros t [x [<- _]]%in_map_iff; apply h_any.
  - apply existsb_none. intros t [x [<- _]]%in_map_iff; apply h_unknown.
  - apply filter_all. intros t [x [<- _]]%in_map_iff; now rewrite h_inhabited.
Qed.

Lemma alts_of_tagged (L : list I) : alts (of_members (map h L)) = map h L.
Proof.
  destruct L as [|x [|y r]]; try reflexivity.
  - simpl. apply h_alts.
  - unfold of_members. cbn [map alts].
    change (h x :: h y :: map h r) with (map h (x :: y :: r)).
    apply flat_map_alts_tagged.
Qed.
End Tagged.

Lemma absorbed_lits (L : list string) (x : string) :
  absorbed (map TStr L) (TStr x) = false.
Proof. simpl. apply existsb_none. now intros t [y [<- _]]%in_map_iff. Qed.

Lemma mk_union_lits (ts : list ty) (L : list string) :
  flat_map alts ts = map TStr L -> mk_union ts = lits (sdedupe L).
Proof.
  apply (mk_union_tagged String.eqb TStr); auto using absorbed_lits.
Qed.

Lemma keyof_obj (ps : list (string * ty)) :
  keyof (TObj ps) = lits (sdedupe (map fst ps)).
Proof.
  simpl. apply mk_union_lits.
  rewrite <- (map_map fst TStr). apply flat_map_alts_lits.
Qed.

Lemma extends_lits (m : ty -> string -> option ty) (k : string) (M : list string) :
  extends m (TStr k) (lits M) = existsb (String.eqb k) M.
Proof.
  unfold extends.
  destruct M as [|x [|y r]]; try reflexivity.
  - simpl. now rewrite orb_false_r.
  - unfold lits, of_members. cbn [extends_to map].
    cbn [existsb]. f_equal. f_equal.
    induction r; simpl; congruence.
Qed.

Lemma lits_not_any (M : list string) : is_any (lits M) = false.
Proof. now destruct M as [|x [|y r]]. Qed.

Lemma lits_not_unknown (M : list string) : is_unknown (lits M) = false.
Proof. now destruct M as [|x [|y r]]. Qed.

Lemma existsb_eqb_In (k : string) (M : list string) :
  existsb (String.eqb k) M = true <-> In k M.
Proof.
  rewrite existsb_exists. split.
  - intros [x [H E]]. apply String.eqb_eq in E. now subst.
  - intros H. exists k. split; auto. apply String.eqb_refl.
Qed.

(* ===================================================================== *)
(** ** The extension merger *)
(* ===================================================================== *)

(** C6.  Merging an empty enhancement list into a base definition yields the
    base definition itself, through [ExtendsRec] and through [Extends]. *)
Theorem Extends_empty_list (D : ty) :
  ExtendsRec D [] = D /\ Extends D (Many []) = D.
Proof.
  split; [|unfold Extends]; now simp ExtendsRec.
Qed.

Lemma Shift4_skipn (es : list ty) : Shift4 es = skipn 4 es.
Proof. now destruct es as [|e0 [|e1 [|e2 [|e3 r]]]]. Qed.

Lemma merged_firstn (D : ty) (es : list ty) :
  merged D es = merged D (firstn 4 es).
Proof. now destruct es as [|e0 [|e1 [|e2 [|e3 r]]]]. Qed.

Lemma ExtendsRec_step (D : ty) (es : list ty) :
  es <> [] -> ExtendsRec D es = ExtendsRec (merged D es) (Shift4 es).
Proof.
  destruct es; [congruence|]. intros _. now simp ExtendsRec.
Qed.

Lemma iter_one_step_list (k : nat) (D : ty) (es : list ty) :
  snd (Nat.iter k one_step (D, es)) = skipn (4 * k) es.
Proof.
  induction k as [|k IH].
  - reflexivity.
  - change (Nat.iter (S k) one_step (D, es))
      with (one_step (Nat.iter k one_step (D, es))).
    unfold one_step at 1. cbn [snd].
    rewrite IH, Shift4_skipn, skipn_skipn. f_equal. lia.
Qed.

Lemma ExtendsRec_iter (n : nat) :
  forall D es,
    List.length es <= 4 * n < List.length es + 4 ->
    ExtendsRec D es = fst (Nat.iter n one_step (D, es)).
Proof.
  induction n as [|n IH]; intros D es Hn.
  - destruct es; simpl in Hn; [|lia]. now simp ExtendsRec.
  - assert (Hne : es <> []) by (intros ->; simpl in Hn; lia).
    rewrite ExtendsRec_step by assumption.
    rewrite Nat.iter_succ_r. apply IH.
    destruct es as [|e0 [|e1 [|e2 [|e3 r]]]]; simpl in *; lia.
Qed.


Lemma lookup_map (F : string -> ty) (k : string) (L : list string) :
  lookup k (map (fun P => (P, F P)) L)
  = if existsb (String.eqb k) L then Some (F k) else None.
Proof.
  induction L as [|x r IH]; simpl; auto.
  destruct (String.eqb_spec k x); simpl; [now subst|auto].
Qed.

Lemma lookup_None (k : string) (ps : list (string * ty)) :
  lookup k ps = None <-> ~ In k (map fst ps).
Proof.
  induction ps as [|[k' v] r IH]; simpl; [tauto|].
  destruct (String.eqb_spec k k'); [|rewrite IH]; intuition congruence.
Qed.

Lemma existsb_keys (k : string) (ps : list (string * ty)) :
  existsb (String.eqb k) (sdedupe (map fst ps))
  = match lookup k ps with Some _ => true | None => false end.
Proof.
  destruct (lookup k ps) eqn:E.
  - apply existsb_eqb_In, In_sdedupe.
    destruct (in_dec string_dec k (map fst ps)) as [|n]; auto.
    apply lookup_None in n. congruence.
  - apply lookup_None in E.
    destruct (existsb _ _) eqn:X; auto.
    apply existsb_eqb_In in X. rewrite In_sdedupe in X. contradiction.
Qed.

Lemma In_merge_keys (k : string) (a b c d e : list (string * ty)) :
  existsb (String.eqb k) (merge_keys a b c d e)
  = existsb (fun l => match lookup k l with Some _ => true | None => false end)
            [a; b; c; d; e].
Proof.
  unfold merge_keys. cbn [existsb]. rewrite orb_false_r.
  rewrite <- !existsb_keys.
  apply Bool.eq_iff_eq_true.
  rewrite !orb_true_iff, !existsb_eqb_In, In_sdedupe, !in_app_iff.
  tauto.
Qed.

Lemma names_of_five_keyof (a b c d e : list (string * ty)) :
  names_of (mk_union [keyof (TObj a); keyof (TObj b); keyof (TObj c);
                      keyof (TObj d); keyof (TObj e)])
  = merge_keys a b c d e.
Proof.
  rewrite (mk_union_lits _ (sdedupe (map fst a) ++ sdedupe (map fst b)
                            ++ sdedupe (map fst c) ++ sdedupe (map fst d)
                            ++ sdedupe (map fst e))).
  - apply names_of_lits.
  - cbn [flat_map]. rewrite !keyof_obj, !alts_lits, app_nil_r, !map_app.
    reflexivity.
Qed.

Lemma cond0_object (v : ty) :
  is_object_literal v = true -> cond0 v empty_object v empty_object = v.
Proof. now destruct v. Qed.

Lemma slot_ok_shapes (E : ty) :
  slot_ok E = true ->
  forallb (fun kv => is_object_literal (snd kv)) (nodes_list E) = true.
Proof.
  unfold slot_ok, nodes_ok, nodes_list, field.
  destruct E; try discriminate; auto.
  destruct (lookup "nodes" props) as [[]|]; try discriminate; auto.
  now rewrite orb_false_r.
Qed.

Lemma Prop_nodes (E : ty) :
  slot_ok E = true ->
  Prop_ E "nodes" empty_object empty_object = TObj (nodes_list E).
Proof.
  unfold slot_ok, nodes_ok, nodes_list, field, Prop_, infer_prop.
  destruct E; try discriminate; auto.
  destruct (lookup "nodes" props) as [[]|]; try discriminate; auto.
Qed.

Lemma Prop_shape (E : ty) (N : string) :
  slot_ok E = true ->
  Prop_ (TObj (nodes_list E)) N empty_object empty_object = TObj (shape_list E N).
Proof.
  intros H. apply slot_ok_shapes in H.
  unfold shape_list, Prop_, infer_prop.
  destruct (lookup N (nodes_list E)) as [v|] eqn:L; auto.
  assert (O : is_object_literal v = true).
  { rewrite forallb_forall in H.
    clear -H L. induction (nodes_list E) as [|[k w] r IH]; [discriminate|].
    simpl in L. destruct (String.eqb N k).
    - injection L as <-. apply (H (k, w)). now left.
    - apply IH; auto. intros x Hx. apply H. now right. }
  destruct v; try discriminate. reflexivity.
Qed.

Lemma prop_or_never_obj (p : string) (s : list (string * ty)) :
  prop_or_never p (TObj s)
  = match lookup p s with Some v => v | None => TNever end.
Proof.
  unfold prop_or_never, cond0, cond. rewrite keyof_obj.
  rewrite lits_not_any, lits_not_unknown, extends_lits, existsb_keys.
  cbn [is_any orb].
  destruct (lookup p s) eqn:L; auto.
  unfold index. cbn. now rewrite L.
Qed.

Lemma MergeNodeProperties_obj (a b c d e : list (string * ty)) :
  MergeNodeProperties (TObj a) (TObj b) (TObj c) (TObj d) (TObj e)
  = TObj (map (fun P =>
                 (P, UniteArray
                       (mk_union
                          (map (fun s => match lookup P s with
                                         | Some v => v
                                         | None => TNever
                                         end) [a; b; c; d; e]))))
              (merge_keys a b c d e)).
Proof.
  unfold MergeNodeProperties. rewrite names_of_five_keyof.
  f_equal. apply map_ext. intros P. now rewrite !prop_or_never_obj.
Qed.

(** The property [p] of node-type [N] after one merge step, for a base and
    enhancements that are object types. *)
Lemma node_prop_merged (D : ty) (es : list ty) (N p : string) :
  slot_ok D = true -> slot_ok (At0 es) = true -> slot_ok (At1 es) = true ->
  slot_ok (At2 es) = true -> slot_ok (At3 es) = true ->
  node_prop (merged D es) N p
  = if existsb (fun E => match node_prop E N p with Some _ => true | None => false end)
               [D; At0 es; At1 es; At2 es; At3 es]
    then Some (UniteArray
                 (mk_union (map (fun E => declared_type E N p)
                                [D; At0 es; At1 es; At2 es; At3 es])))
    else None.
Proof.
  intros HD H0 H1 H2 H3.
  unfold node_prop at 1. unfold shape_list at 1. unfold nodes_list at 1.
  unfold merged. cbn [field lookup String.eqb Ascii.eqb Bool.eqb].
  rewrite !Prop_nodes by assumption.
  unfold MergeNodes. rewrite names_of_five_keyof, lookup_map, In_merge_keys.
  rewrite !Prop_shape by assumption.
  rewrite MergeNodeProperties_obj.
  cbn [existsb map]. unfold declared_type, node_prop.
  destruct (lookup N (nodes_list D) ) eqn:LD;
  destruct (lookup N (nodes_list (At0 es))) eqn:L0;
  destruct (lookup N (nodes_list (At1 es))) eqn:L1;
  destruct (lookup N (nodes_list (At2 es))) eqn:L2;
  destruct (lookup N (nodes_list (At3 es))) eqn:L3;
  cbn [orb]; rewrite ?lookup_map, ?In_merge_keys; cbn [existsb map];
  unfold shape_list; rewrite ?LD, ?L0, ?L1, ?L2, ?L3; cbn [lookup orb];
  try reflexivity.
Qed.

Lemma mk_union_arrays (ts els : list ty) :
  flat_map alts ts = map (TArr false) els ->
  mk_union ts = of_members (map (TArr false) (dedupe els)).
Proof.
  apply (mk_union_tagged ty_eqb (TArr false)); auto.
Qed.

Lemma extends_to_arr (m : ty -> string -> option ty) (rt rs : bool) (et es : ty) :
  extends_to m (TArr rt et) (TArr rs es) = implb rs rt && extends_to m et es.
Proof. reflexivity. Qed.

Lemma UniteArray_arrays (l : list ty) :
  l <> [] ->
  UniteArray (of_members (map (TArr false) l)) = TArr false (elem_union l).
Proof.
  destruct l as [|x [|y r]]; [congruence| |]; intros _.
  - unfold UniteArray, extends0, extends. cbn [of_members map].
    now rewrite extends_to_arr, extends_to_any.
  - change (of_members (map (TArr false) (x :: y :: r)))
      with (TUnion (map (TArr false) (x :: y :: r))).
    unfold UniteArray, extends0, extends.
    rewrite extends_to_union.
    replace (forallb _ _) with true.
    + f_equal. unfold index. cbn [is_never is_union orb alts].
      unfold elem_union. f_equal.
      rewrite (flat_map_alts_tagged (TArr false)) by auto.
      generalize (x :: y :: r). intros l.
      induction l as [|a l IH]; simpl in *; congruence.
    + symmetry. apply forallb_forall.
      intros t [e [<- _]]%in_map_iff.
      now rewrite extends_to_arr, extends_to_any.
Qed.

Lemma Extends_two (D E1 E2 : ty) :
  Extends D (Many [E1; E2]) = merged D [E1; E2].
Proof. unfold Extends. now simp ExtendsRec. Qed.

Lemma dedupe_cons_ne (x : ty) (l : list ty) : dedupe (x :: l) <> [].
Proof. discriminate. Qed.


(* ===================================================================== *)
(** ** Resolved nodes *)
(* ===================================================================== *)

Lemma sdedupe_idem_filter (x : string) (L : list string) :
  ~ In x L -> filter (fun y => negb (String.eqb x y)) L = L.
Proof.
  intros N. apply filter_all. intros y Hy.
  destruct (String.eqb_spec x y); [subst; contradiction|reflexivity].
Qed.

Lemma NoDup_sdedupe (L : list string) : NoDup (sdedupe L).
Proof.
  unfold sdedupe.
  induction L as [|x r IH]; simpl; constructor.
  - rewrite filter_In. intros [_ H]. now rewrite String.eqb_refl in H.
  - now apply NoDup_filter.
Qed.

Lemma sdedupe_NoDup (L : list string) : NoDup L -> sdedupe L = L.
Proof.
  unfold sdedupe.
  induction 1 as [|x r Hx _ IH]; simpl; auto.
  rewrite IH. f_equal. now apply sdedupe_idem_filter.
Qed.

Lemma sdedupe_idem (L : list string) : sdedupe (sdedupe L) = sdedupe L.
Proof. apply sdedupe_NoDup, NoDup_sdedupe. Qed.

(** Distribution of a conditional type over a union of names, when each
    name is either dropped or mapped to a tagged type. *)
Section DistributeNames.
Variable h : string -> ty.
Hypothesis h_alts : forall x, alts (h x) = [h x].
Hypothesis h_any : forall x, is_any (h x) = false.
Hypothesis h_unknown : forall x, is_unknown (h x) = false.
Hypothesis h_inhabited : forall x, is_empty_inter (h x) = false.
Hypothesis h_kept : forall L x, absorbed (map h L) (h x) = false.
Hypothesis h_eqb : forall x y, ty_eqb (h x) (h y) = String.eqb x y.

Lemma distribute_names (f : ty -> ty) (g : string -> bool) (M : list string) :
  (forall x, In x M -> f (TStr x) = if g x then h x else TNever) ->
  distribute (lits M) f = of_members (map h (sdedupe (filter g M))).
Proof.
  intros Hf.
  destruct M as [|x [|y r]].
  - reflexivity.
  - change (lits [x]) with (TStr x). unfold distribute.
    rewrite Hf by (now left). unfold sdedupe. cbn [filter].
    now destruct (g x).
  - change (lits (x :: y :: r)) with (TUnion (map TStr (x :: y :: r))).
    unfold distribute.
    change (alts (TUnion (map TStr (x :: y :: r))))
      with (flat_map alts (map TStr (x :: y :: r))).
    rewrite flat_map_alts_lits.
    apply (mk_union_tagged String.eqb h); auto.
    revert Hf. generalize (x :: y :: r). clear - h_alts.
    intros M Hf. induction M as [|a M IH]; simpl; auto.
    rewrite Hf by (now left).
    destruct (g a); simpl; rewrite ?h_alts; simpl; f_equal;
      apply IH; intros z Hz; apply Hf; now right.
Qed.
End DistributeNames.

Lemma distribute_lits (f : ty -> ty) (g : string -> bool) (M : list string) :
  (forall x, In x M -> f (TStr x) = if g x then TStr x else TNever) ->
  distribute (lits M) f = lits (sdedupe (filter g M)).
Proof.
  apply (distribute_names TStr); auto using absorbed_lits.
Qed.

(** *** The shape of a known node *)

Lemma known_node_eq (D t : ty) :
  known_node D t = TInter [TNodeCommon D t; TNodeBody D t; NodeFallback].
Proof. reflexivity. Qed.

Lemma known_node_eqb (D : ty) (x y : string) :
  ty_eqb (known_node D (TStr x)) (known_node D (TStr y)) = String.eqb x y.
Proof.
  rewrite !known_node_eq. cbn. rewrite ty_eqb_refl.
  now destruct (String.eqb x y).
Qed.

Lemma ASTDefinition_nodes (D : ty) :
  ASTDefinition D = true -> nodes_of D = TObj (nodes_list D).
Proof.
  unfold ASTDefinition, nodes_of, nodes_list, field, index.
  destruct D; try discriminate. cbn.
  destruct (lookup "nodes" props) as [[]|]; try discriminate; auto.
Qed.

Lemma ASTDefinition_keys (D : ty) :
  ASTDefinition D = true -> keyof (nodes_of D) = lits (node_names D).
Proof.
  intros H. rewrite (ASTDefinition_nodes _ H). apply keyof_obj.
Qed.

Lemma ASTDefinition_slot (D : ty) : ASTDefinition D = true -> slot_ok D = true.
Proof.
  unfold ASTDefinition, slot_ok, nodes_ok.
  destruct D; try discriminate.
  destruct (lookup "nodes" props) as [[]|]; try discriminate.
  destruct (lookup "statementType" props); try discriminate.
  destruct (lookup "expressionType" props); try discriminate.
  intros H. repeat (apply andb_prop in H as [H _]). now rewrite H.
Qed.

Lemma lookup_In (k : string) (v : ty) (ps : list (string * ty)) :
  lookup k ps = Some v -> In (k, v) ps.
Proof.
  induction ps as [|[k' w] r IH]; simpl; [discriminate|].
  destruct (String.eqb_spec k k'); intros E.
  - injection E as <-. subst. now left.
  - right. auto.
Qed.

(** The node-shape of a node-type of a definition is an object type. *)
Lemma ASTDefinition_shape (D : ty) (N : string) :
  ASTDefinition D = true -> In N (node_names D) ->
  index (nodes_of D) (TStr N) = TObj (shape_list D N).
Proof.
  intros H HN. rewrite (ASTDefinition_nodes _ H).
  unfold node_names in HN. rewrite In_sdedupe in HN.
  unfold index. cbn [is_never is_union orb index1]. unfold shape_list.
  destruct (lookup N (nodes_list D)) as [v|] eqn:L.
  - pose proof (slot_ok_shapes _ (ASTDefinition_slot _ H)) as O.
    rewrite forallb_forall in O. specialize (O _ (lookup_In _ _ _ L)).
    destruct v; try discriminate O. reflexivity.
  - apply lookup_None in L. contradiction.
Qed.

Lemma ASTDefinition_is_key (D : ty) (t : string) :
  ASTDefinition D = true ->
  extends0 (TStr t) (keyof (nodes_of D)) = existsb (String.eqb t) (node_names D).
Proof.
  intros H. rewrite (ASTDefinition_keys _ H). apply extends_lits.
Qed.

Lemma Node_literal (D : ty) (t : string) :
  ASTDefinition D = true ->
  Node (TStr t) D
  = if existsb (String.eqb t) (node_names D)
    then known_node D (TStr t) else unknown_type (TStr t).
Proof.
  intros H. unfold Node, distribute, cond0, cond.
  fold (extends0 (TStr t) (keyof (nodes_of D))).
  rewrite ASTDefinition_is_key by assumption.
  rewrite (ASTDefinition_keys _ H), lits_not_any, lits_not_unknown.
  reflexivity.
Qed.

Lemma Node_known (D : ty) (N : string) :
  ASTDefinition D = true -> In N (node_names D) ->
  Node (TStr N) D = known_node D (TStr N).
Proof.
  intros H HN. rewrite Node_literal by assumption.
  apply existsb_eqb_In in HN. now rewrite HN.
Qed.

Lemma Node_unknown (D : ty) (T : string) :
  ASTDefinition D = true -> ~ In T (node_names D) ->
  Node (TStr T) D = unknown_type (TStr T).
Proof.
  intros H HN. rewrite Node_literal by assumption.
  destruct (existsb _ _) eqn:E; auto.
  apply existsb_eqb_In in E. contradiction.
Qed.

Lemma Exclude_common (x : string) :
  cond no_members (TStr x) NodeCommonKey TNever (TStr x)
  = if negb (is_common_key x) then TStr x else TNever.
Proof.
  unfold cond, NodeCommonKey, is_common_key. cbn.
  destruct (String.eqb x "range"), (String.eqb x "loc"), (String.eqb x "parent");
    reflexivity.
Qed.

Lemma NodeBody_keys_names (D : ty) (N : string) :
  ASTDefinition D = true -> In N (node_names D) ->
  names_of (NodeBody_keys D (TStr N))
  = sdedupe (filter (fun x => negb (is_common_key x))
                    (sdedupe ("type" :: sdedupe (map fst (shape_list D N))))).
Proof.
  intros H HN. unfold NodeBody_keys.
  rewrite ASTDefinition_shape, keyof_obj by assumption.
  rewrite (mk_union_lits _ ("type" :: sdedupe (map fst (shape_list D N)))).
  - unfold Exclude. rewrite (distribute_lits _ (fun x => negb (is_common_key x))).
    + apply names_of_lits.
    + intros x _. apply Exclude_common.
  - cbn [flat_map alts]. now rewrite alts_lits, app_nil_r.
Qed.

(** The members of the body of a resolved node. *)
Lemma NodeBody_member_spec (D : ty) (N P : string) :
  ASTDefinition D = true -> In N (node_names D) ->
  NodeBody_member D (TStr N) P
  = if is_common_key P then None
    else match node_prop D N P with
         | Some v => Some (NodeProperty v D)
         | None => if String.eqb P "type" then Some (TStr N) else None
         end.
Proof.
  intros H HN. unfold NodeBody_member.
  rewrite NodeBody_keys_names by assumption.
  rewrite ASTDefinition_shape by assumption.
  assert (E : existsb (String.eqb P)
                (sdedupe (filter (fun x => negb (is_common_key x))
                   (sdedupe ("type" :: sdedupe (map fst (shape_list D N))))))
              = negb (is_common_key P)
                && (String.eqb P "type"
                    || match node_prop D N P with Some _ => true | None => false end)).
  { unfold node_prop. rewrite <- existsb_keys.
    apply Bool.eq_iff_eq_true.
    rewrite andb_true_iff, orb_true_iff, !existsb_eqb_In, In_sdedupe, filter_In,
      In_sdedupe. cbn [In]. rewrite String.eqb_eq. intuition congruence. }
  rewrite E. clear E.
  destruct (is_common_key P); [reflexivity|]. cbn [negb andb].
  fold (prop_or_never P (TObj (shape_list D N))).
  unfold cond0, cond. rewrite keyof_obj, lits_not_any, lits_not_unknown.
  rewrite extends_lits, existsb_keys. cbn [is_any orb].
  unfold node_prop.
  destruct (lookup P (shape_list D N)) eqn:L.
  - rewrite orb_true_r. unfold index. cbn. now rewrite L.
  - rewrite orb_false_r. reflexivity.
Qed.

Lemma NodeCommon_member_spec (D t : ty) (k : string) :
  is_common_key k = false -> NodeCommon_member D t k = None.
Proof.
  unfold is_common_key, NodeCommon_member.
  destruct (String.eqb k "range"), (String.eqb k "loc"), (String.eqb k "parent");
    try discriminate; reflexivity.
Qed.

Lemma NodeCommon_member_common (D t : ty) (k : string) :
  is_common_key k = true -> exists v, NodeCommon_member D t k = Some v.
Proof.
  unfold is_common_key, NodeCommon_member.
  destruct (String.eqb k "range"), (String.eqb k "loc"), (String.eqb k "parent");
    try discriminate; eauto.
Qed.

(** Property access on a resolved node: the common members, then the
    members of the body, then the index signature of [NodeFallback]. *)
Lemma property_known_node (D : ty) (N k : string) :
  ASTDefinition D = true -> In N (node_names D) ->
  property (known_node D (TStr N)) k
  = if is_common_key k then NodeCommon_member D (TStr N) k
    else match NodeBody_member D (TStr N) k with
         | Some v => Some v
         | None => Some TUndefined
         end.
Proof.
  intros H HN. rewrite known_node_eq.
  unfold property, member, declared, declared1, index_signature, NodeFallback.
  cbn [flat_map node_members app].
  destruct (is_common_key k) eqn:C.
  - rewrite NodeBody_member_spec, C by assumption.
    destruct (NodeCommon_member_common D (TStr N) k C) as [v ->].
    reflexivity.
  - rewrite NodeCommon_member_spec by assumption.
    destruct (NodeBody_member D (TStr N) k); reflexivity.
Qed.

(** C9.  The resolved node of a node-type of the definition accepts the
    lookup of any string-keyed property: the lookup is never a type error,
    and for a key that is neither a property declared by the node-shape nor
    a common field ([range], [loc], [parent], [type]) it yields
    [undefined]. *)
Theorem node_accepts_any_key (D : ty) (N k : string) :
  ASTDefinition D = true -> In N (node_names D) ->
  (exists v, property (Node (TStr N) D) k = Some v) /\
  (is_common_key k = false -> k <> "type" -> node_prop D N k = None ->
   property (Node (TStr N) D) k = Some TUndefined).
Proof.
  intros H HN. rewrite Node_known, property_known_node by assumption.
  split.
  - destruct (is_common_key k) eqn:C.
    + now apply NodeCommon_member_common.
    + destruct (NodeBody_member D (TStr N) k); eauto.
  - intros C T P. rewrite C, NodeBody_member_spec, C, P by assumption.
    apply String.eqb_neq in T. now rewrite T.
Qed.

Lemma In_Program_ex_base : In "Program" (node_names ex_base).
Proof. right. now left. Defined.

Lemma node_accepts_any_key_witness :
  property (Node (TStr "Program") ex_base) "computed" = Some TUndefined.
Proof.
  apply (node_accepts_any_key ex_base "Program" "computed" eq_refl In_Program_ex_base).
  - reflexivity.
  - discriminate.
  - reflexivity.
Defined.

(** C10.  In the resolved node of a node-type: a property named [type]
    declared by the node-shape gives the node its [type] member, after
    reference resolution, in place of the node-type name, which is the
    [type] member otherwise; the body never has a member named [range],
    [loc] or [parent], whatever the node-shape declares, so these three
    members are those of [NodeCommon]. *)
Theorem node_type_and_reserved_names (D : ty) (N : string) :
  ASTDefinition D = true -> In N (node_names D) ->
  (forall v, node_prop D N "type" = Some v ->
             property (Node (TStr N) D) "type" = Some (NodeProperty v D)) /\
  (node_prop D N "type" = None ->
   property (Node (TStr N) D) "type" = Some (TStr N)) /\
  (forall k, is_common_key k = true -> NodeBody_member D (TStr N) k = None) /\
  property (Node (TStr N) D) "range" = Some Range /\
  property (Node (TStr N) D) "loc" = Some Location /\
  property (Node (TStr N) D) "parent" = Some (ParentNode (TStr N) D).
Proof.
  intros H HN. rewrite Node_known by assumption.
  repeat split.
  - intros v P. rewrite property_known_node by assumption.
    cbn [is_common_key String.eqb Ascii.eqb Bool.eqb orb].
    rewrite NodeBody_member_spec by assumption.
    cbn [is_common_key String.eqb Ascii.eqb Bool.eqb orb]. now rewrite P.
  - intros P. rewrite property_known_node by assumption.
    cbn [is_common_key String.eqb Ascii.eqb Bool.eqb orb].
    rewrite NodeBody_member_spec by assumption.
    cbn [is_common_key String.eqb Ascii.eqb Bool.eqb orb]. now rewrite P.
  - intros k C. rewrite NodeBody_member_spec by assumption. now rewrite C.
  - now rewrite property_known_node by assumption.
  - now rewrite property_known_node by assumption.
  - now rewrite property_known_node by assumption.
Qed.

Lemma In_Literal_ex_typed : In "Literal" (node_names ex_typed).
Proof. now left. Defined.

Lemma node_type_and_reserved_names_witness :
  property (Node (TStr "Literal") ex_typed) "type"
  = Some (NodeProperty (TStr "Lit") ex_typed)
  /\ property (Node (TStr "Literal") ex_typed) "range" = Some Range.
Proof.
  pose proof (node_type_and_reserved_names ex_typed "Literal" eq_refl
                                           In_Literal_ex_typed) as H.
  split.
  - apply (proj1 H). reflexivity.
  - apply (proj1 (proj2 (proj2 (proj2 H)))).
Defined.

(** *** The union of all nodes *)

Lemma IsAny_literal (t : string) : IsAny (TStr t) = TBool false.
Proof. reflexivity. Qed.

Lemma ResolveNodeType_literal (t : string) (D : ty) :
  ResolveNodeType (TStr t) D
  = ty_and (ty_and TString (keyof (nodes_of D))) (meta_name D (TStr t)).
Proof. reflexivity. Qed.

Lemma and_atom_lits (a b : string) :
  and_atom (TStr a) (TStr b)
  = if String.eqb a b then TStr a else TInter [TStr a; TStr b].
Proof.
  unfold and_atom, inter_of, dedupe. cbn.
  destruct (String.eqb a b); reflexivity.
Qed.

Lemma ty_and_string_lits (M : list string) :
  NoDup M -> ty_and TString (lits M) = lits M.
Proof.
  intros ND. destruct M as [|x [|y r]]; try reflexivity.
  change (lits (x :: y :: r)) with (TUnion (map TStr (x :: y :: r))).
  unfold ty_and. cbn [is_never is_union orb].
  change (alts (TUnion (map TStr (x :: y :: r))))
    with (flat_map alts (map TStr (x :: y :: r))).
  rewrite flat_map_alts_lits. cbn [alts flat_map]. rewrite app_nil_r, map_map.
  rewrite (mk_union_lits _ (x :: y :: r)).
  - now rewrite sdedupe_NoDup.
  - generalize (x :: y :: r). intros M.
    induction M as [|a M IH]; [reflexivity|].
    cbn [map flat_map]. rewrite IH. reflexivity.
Qed.

Lemma filter_eqb_absent (a : string) (M : list string) :
  ~ In a M -> filter (String.eqb a) M = [].
Proof.
  induction M as [|x r IH]; simpl; auto. intros N.
  destruct (String.eqb_spec a x); [subst; tauto|]. apply IH. tauto.
Qed.

Lemma flat_map_ext_in {A B} (f g : A -> list B) (l : list A) :
  (forall a, In a l -> f a = g a) -> flat_map f l = flat_map g l.
Proof.
  induction l as [|x r IH]; simpl; intros H; auto.
  rewrite H by auto. f_equal. auto.
Qed.

Lemma diagonal_NoDup (M : list string) :
  NoDup M -> flat_map (fun a => filter (String.eqb a) M) M = M.
Proof.
  induction 1 as [|x r Hx ND IH]; simpl; auto.
  rewrite String.eqb_refl, filter_eqb_absent by assumption. simpl. f_equal.
  rewrite <- IH at 2. apply flat_map_ext_in. intros a Ha.
  destruct (String.eqb_spec a x); [subst; contradiction|reflexivity].
Qed.

(** One row of the intersection of a union of names with itself. *)
Lemma and_row (a : string) (M : list string) :
  flat_map alts (map (and_atom (TStr a)) (map TStr M))
  = map (and_atom (TStr a)) (map TStr M)
  /\ existsb is_any (map (and_atom (TStr a)) (map TStr M)) = false
  /\ existsb is_unknown (map (and_atom (TStr a)) (map TStr M)) = false
  /\ filter (fun t => negb (is_empty_inter t)) (map (and_atom (TStr a)) (map TStr M))
     = map TStr (filter (String.eqb a) M).
Proof.
  induction M as [|x r (IH1 & IH2 & IH3 & IH4)]; [now repeat split|].
  cbn [map flat_map existsb filter].
  rewrite and_atom_lits, IH1, IH2, IH3, IH4.
  destruct (String.eqb a x) eqn:E;
    [apply String.eqb_eq in E; subst x; rewrite ?String.eqb_refl|];
    repeat split; cbn; unfold clash; cbn; rewrite ?E; reflexivity.
Qed.

Lemma flat_map_nested {A B C} (f : A -> list B) (g : B -> list C) (l : list A) :
  flat_map g (flat_map f l) = flat_map (fun x => flat_map g (f x)) l.
Proof.
  induction l as [|x r IH]; simpl; auto.
  now rewrite flat_map_app, IH.
Qed.

Lemma filter_flat_map {A B} (p : B -> bool) (f : A -> list B) (l : list A) :
  filter p (flat_map f l) = flat_map (fun x => filter p (f x)) l.
Proof.
  induction l as [|x r IH]; simpl; auto.
  now rewrite filter_app, IH.
Qed.

Lemma flat_map_map {A B C} (f : A -> B) (g : B -> list C) (l : list A) :
  flat_map g (map f l) = flat_map (fun x => g (f x)) l.
Proof. induction l; simpl; congruence. Qed.

Lemma map_flat_map {A B C} (f : A -> list B) (g : B -> C) (l : list A) :
  map g (flat_map f l) = flat_map (fun x => map g (f x)) l.
Proof.
  induction l as [|x r IH]; simpl; auto.
  now rewrite map_app, IH.
Qed.

Lemma ty_and_lits_self (M : list string) :
  NoDup M -> ty_and (lits M) (lits M) = lits M.
Proof.
  intros ND. destruct M as [|x [|y r]]; try reflexivity.
  - cbn. unfold and_atom, inter_of, dedupe. cbn. now rewrite String.eqb_refl.
  - change (lits (x :: y :: r)) with (TUnion (map TStr (x :: y :: r))).
    unfold ty_and. cbn [is_never is_union orb].
    change (alts (TUnion (map TStr (x :: y :: r))))
      with (flat_map alts (map TStr (x :: y :: r))).
    rewrite flat_map_alts_lits.
    remember (x :: y :: r) as M eqn:EM.
    assert (F : flat_map alts
                  (flat_map (fun x0 => map (and_atom x0) (map TStr M)) (map TStr M))
                = flat_map (fun a => map (and_atom (TStr a)) (map TStr M)) M).
    { rewrite flat_map_nested, flat_map_map. apply flat_map_ext_in.
      intros a _. apply and_row. }
    rewrite (mk_union_filtered String.eqb TStr) with (L := M);
      auto using absorbed_lits; rewrite ?F.
    + change (dedupe_by String.eqb M) with (sdedupe M).
      rewrite sdedupe_NoDup by assumption. now subst M.
    + apply existsb_none. intros t [a [_ Ht]]%in_flat_map.
      destruct (and_row a M) as (_ & E2 & _).
      destruct (is_any t) eqn:A; auto.
      assert (existsb is_any (map (and_atom (TStr a)) (map TStr M)) = true)
        by (apply existsb_exists; eauto).
      congruence.
    + apply existsb_none. intros t [a [_ Ht]]%in_flat_map.
      destruct (and_row a M) as (_ & _ & E3 & _).
      destruct (is_unknown t) eqn:A; auto.
      assert (existsb is_unknown (map (and_atom (TStr a)) (map TStr M)) = true)
        by (apply existsb_exists; eauto).
      congruence.
    + rewrite filter_flat_map.
      rewrite <- (diagonal_NoDup _ ND) at 2. rewrite map_flat_map.
      apply flat_map_ext_in. intros a _. apply and_row.
Qed.

Lemma known_node_inhabited (D : ty) (x : string) :
  is_empty_inter (known_node D (TStr x)) = false.
Proof. reflexivity. Qed.

Lemma mk_union_nodes (D : ty) (ts : list ty) (L : list string) :
  flat_map alts ts = map (fun P => known_node D (TStr P)) L ->
  mk_union ts = of_members (map (fun P => known_node D (TStr P)) (sdedupe L)).
Proof.
  apply (mk_union_tagged String.eqb (fun P => known_node D (TStr P))); auto.
  intros x y. apply known_node_eqb.
Qed.

(** The nodes of a union of node-type names of the definition. *)
Lemma Node_lits (D : ty) (M : list string) :
  ASTDefinition D = true -> NoDup M -> incl M (node_names D) ->
  Node (lits M) D = of_members (map (fun P => known_node D (TStr P)) M).
Proof.
  intros H ND HM. unfold Node.
  rewrite (distribute_names (fun P => known_node D (TStr P)))
    with (g := fun _ => true); auto.
  - rewrite filter_all by auto. now rewrite sdedupe_NoDup.
  - intros x y. apply known_node_eqb.
  - intros x Hx. apply (Node_known _ _ H (HM _ Hx)).
Qed.

Lemma NoDup_node_names (D : ty) : NoDup (node_names D).
Proof. apply NoDup_sdedupe. Qed.

Lemma ResolveNodeType_Node (D : ty) :
  ASTDefinition D = true ->
  ResolveNodeType (TStr "Node") D = lits (node_names D).
Proof.
  intros H. rewrite ResolveNodeType_literal.
  change (meta_name D (TStr "Node")) with (keyof (nodes_of D)).
  rewrite (ASTDefinition_keys _ H).
  rewrite ty_and_string_lits, ty_and_lits_self; auto using NoDup_node_names.
Qed.

(** The union of all nodes of a definition. *)
Lemma ResolveNode_Node (D : ty) :
  ASTDefinition D = true ->
  ResolveNode (TStr "Node") D
  = of_members (map (fun P => known_node D (TStr P)) (node_names D)).
Proof.
  intros H. unfold ResolveNode. rewrite ResolveNodeType_Node by assumption.
  apply Node_lits; auto using NoDup_node_names, incl_refl.
Qed.

(** C5.  Resolving the meta-name ["Node"] yields the union, over the keys of
    [D.nodes], of the node of each key. *)
Theorem ResolveNode_Node_is_union_of_nodes (D : ty) :
  ASTDefinition D = true ->
  ResolveNode (TStr "Node") D
  = mk_union (map (fun K => Node (TStr K) D) (map fst (nodes_list D))).
Proof.
  intros H. rewrite ResolveNode_Node by assumption.
  symmetry. apply mk_union_nodes.
  rewrite (map_ext_in (fun K => Node (TStr K) D) (fun P => known_node D (TStr P))).
  - now apply (flat_map_alts_tagged (fun P => known_node D (TStr P))).
  - intros K HK. apply Node_known; auto.
    unfold node_names. now rewrite In_sdedupe.
Qed.

Lemma ResolveNode_Node_is_union_of_nodes_witness :
  ResolveNode (TStr "Node") ex_base
  = mk_union (map (fun K => Node (TStr K) ex_base) (map fst (nodes_list ex_base))).
Proof.
  apply (ResolveNode_Node_is_union_of_nodes ex_base). reflexivity.
Defined.

(** *** Unknown node-type names *)

Lemma unknown_type_literal (T : string) :
  unknown_type (TStr T)
  = if String.eqb "UNKNOWN TYPE:" T
    then TInter [empty_object; TStr "UNKNOWN TYPE:"]
    else TInter [empty_object; TStr "UNKNOWN TYPE:"; TStr T].
Proof.
  unfold unknown_type, ty_and, and_atom, inter_of, dedupe.
  cbn -[String.eqb].
  destruct (String.eqb "UNKNOWN TYPE:" T)%string; reflexivity.
Qed.

Lemma distribute_all_never (t : ty) (f : ty -> ty) :
  (forall a, In a (alts t) -> f a = TNever) -> distribute t f = TNever.
Proof.
  intros H. destruct t; try (apply H; now left); try reflexivity.
  unfold distribute, mk_union.
  replace (flat_map alts (map f (alts (TUnion ts)))) with (@nil ty); auto.
  induction (alts (TUnion ts)) as [|a r IH]; simpl; auto.
  rewrite H by (now left). apply IH. intros b Hb. apply H. now right.
Qed.

(** A node whose body takes its [type] member from the node-type name is
    not assignable to [{ type: T }] for another name [T]. *)
Lemma known_node_not_type (D : ty) (P T : string) :
  ASTDefinition D = true -> In P (node_names D) ->
  node_prop D P "type" = None -> P <> T ->
  extends node_members (known_node D (TStr P)) (TObj [("type", TStr T)]) = false.
Proof.
  intros H HP HT NE.
  pose proof (NodeBody_member_spec D P "type" H HP) as B.
  rewrite HT in B. cbn in B.
  rewrite known_node_eq. unfold extends, NodeFallback.
  cbn [extends_to existsb forallb declared declared1 node_members flat_map
       is_empty_object negb andb orb app NodeCommon_member String.eqb
       Ascii.eqb Bool.eqb].
  rewrite B. cbn. apply String.eqb_neq in NE. now rewrite NE.
Qed.

(** C1 (as amended).  For a name [T] that is not a key of [D.nodes]:
    [Node<T, D>] is the unknown-type marker, the intersection
    [{} & "UNKNOWN TYPE:" & T], which carries [T] as a literal and is
    neither [never] nor a node; [ExtractNode<D, T>] selects the nodes whose
    [type] member is [T] and, when [T] is not a meta-name and no node-shape
    redeclares [type], is the empty union [never]. *)
Theorem unknown_node_type (D : ty) (T : string) :
  ASTDefinition D = true -> ~ In T (node_names D) ->
  Node (TStr T) D = unknown_type (TStr T) /\
  (exists l, Node (TStr T) D = TInter l /\
             In empty_object l /\ In (TStr "UNKNOWN TYPE:") l /\ In (TStr T) l) /\
  Node (TStr T) D <> TNever /\
  Node (TStr T) D <> known_node D (TStr T) /\
  (is_meta_name T = false ->
   (forall P, node_prop D P "type" = None) ->
   ExtractNode D (TStr T) TAny = TNever).
Proof.
  intros H HT. rewrite Node_unknown by assumption.
  split; [reflexivity|]. rewrite unknown_type_literal.
  split; [|split; [|split]].
  - destruct (String.eqb_spec "UNKNOWN TYPE:" T); eexists;
      (split; [reflexivity|]); subst; cbn; tauto.
  - destruct (String.eqb "UNKNOWN TYPE:" T); discriminate.
  - rewrite known_node_eq. destruct (String.eqb "UNKNOWN TYPE:" T); discriminate.
  - intros M NT. unfold ExtractNode.
    assert (E : distribute (TStr T)
                  (fun t => cond0 t (TUnion [TStr "Node"; TStr "Statement"; TStr "Expression"])
                              (ResolveNode t D)
                              (Extract node_members (ResolveNode (TStr "Node") D)
                                       (TObj [("type", t)])))
                = TNever).
    { unfold distribute, cond0, cond, extends. cbn [is_any is_unknown orb extends_to existsb].
      unfold is_meta_name in M. cbn [ty_eqb]. rewrite !orb_false_r.
      rewrite <- orb_assoc in M. rewrite M.
      unfold Extract. apply distribute_all_never. intros a Ha.
      rewrite ResolveNode_Node in Ha by assumption.
      rewrite (alts_of_tagged (fun P => known_node D (TStr P))) in Ha by reflexivity.
      apply in_map_iff in Ha as [P [<- HP]].
      unfold cond. cbn [is_any is_unknown orb].
      rewrite known_node_not_type; auto.
      intros ->. contradiction. }
    rewrite E. reflexivity.
Qed.

Lemma unknown_node_type_witness :
  Node (TStr "Bogus") ex_base
  = TInter [empty_object; TStr "UNKNOWN TYPE:"; TStr "Bogus"].
Proof.
  apply (unknown_node_type ex_base "Bogus" eq_refl).
  intros [H|[H|[]]]; discriminate H.
Defined.

(** C1, counterexample: for the name ["Bogus"], absent from the nodes of
    the example definition, [ExtractNode] yields [never] and not the marker
    that [Node] yields. *)
Lemma ExtractNode_unknown_is_never :
  ExtractNode ex_base (TStr "Bogus") TAny = TNever
  /\ ExtractNode ex_base (TStr "Bogus") TAny <> unknown_type (TStr "Bogus").
Proof.
  assert (E : ExtractNode ex_base (TStr "Bogus") TAny = TNever)
    by (vm_compute; reflexivity).
  split; [exact E|]. rewrite E. discriminate.
Qed.

(* ===================================================================== *)
(** ** Meta-names *)
(* ===================================================================== *)

Lemma alts_atom (t a : ty) :
  In a (alts t) -> is_union a = false /\ is_never a = false /\ alts a = [a].
Proof.
  induction t using ty_induction; simpl; try tauto;
    try (intros [<-|[]]; now repeat split).
  intros [x [Hx Ha]]%in_flat_map.
  rewrite Forall_forall in H. eauto.
Qed.

Lemma alts_idem (t : ty) : flat_map alts (alts t) = alts t.
Proof.
  assert (G : forall l, (forall a, In a l -> alts a = [a]) -> flat_map alts l = l).
  { induction l as [|x r IH]; simpl; auto. intros H.
    rewrite (H x) by auto. simpl. f_equal. auto. }
  apply G. intros a Ha. now apply (alts_atom t).
Qed.

Lemma distribute_atom (t : ty) (f : ty -> ty) :
  is_union t = false -> is_never t = false -> distribute t f = f t.
Proof. destruct t; try discriminate; reflexivity. Qed.

Lemma mk_union_alts (t : ty) : mk_union (alts t) = mk_union [t].
Proof. unfold mk_union. cbn [flat_map]. now rewrite alts_idem, app_nil_r. Qed.

(** A conditional type that maps each constituent of a checked type to
    itself yields the type. *)
Lemma distribute_id (t : ty) (f : ty -> ty) :
  checked t = true -> (forall a, In a (alts t) -> f a = a) ->
  distribute t f = t.
Proof.
  intros C H. apply ty_eqb_eq in C.
  destruct t; try reflexivity;
    try (apply H; now left).
  unfold distribute. rewrite (map_ext_in f (fun a => a)) by assumption.
  now rewrite map_id, mk_union_alts.
Qed.

(** The union of copies of one type. *)
Lemma mk_union_const {A} (c : ty) (l : list A) :
  alts c = [c] -> is_any c = false -> is_unknown c = false ->
  is_empty_inter c = false -> (forall m, absorbed m c = false) ->
  l <> [] ->
  mk_union (map (fun _ => c) l) = c.
Proof.
  intros H1 H2 H3 H4 H5 NE.
  rewrite (mk_union_tagged (fun _ _ : unit => true) (fun _ => c))
    with (L := map (fun _ => tt) l); auto using ty_eqb_refl.
  - destruct l; [congruence|]. cbn.
    match goal with |- context [filter ?f ?l] =>
      replace (filter f l) with (@nil unit); auto end.
    induction (dedupe_by _ _); simpl; auto.
  - rewrite map_map. clear NE.
    induction l as [|x l IH]; simpl; auto. now rewrite H1, IH.
Qed.

Lemma IsAny_name_type (t : ty) : name_type t = true -> IsAny t = TBool false.
Proof.
  intros N. unfold name_type in N. rewrite forallb_forall in N.
  assert (F : forall a, In a (alts t) ->
                        cond0 a TNever (TBool true) (TBool false) = TBool false).
  { intros a Ha. specialize (N a Ha). destruct a; try discriminate; reflexivity. }
  unfold IsAny, extends_never.
  destruct t; try reflexivity;
    try (specialize (N _ (or_introl eq_refl)); discriminate N).
  unfold distribute.
  rewrite (map_ext_in _ (fun _ => TBool false)) by assumption.
  destruct (alts (TUnion ts)) eqn:E; [reflexivity|].
  rewrite mk_union_const; try reflexivity. discriminate.
Qed.

Lemma meta_name_other (D a : ty) :
  match a with
  | TStr s => is_meta_name s = false
  | TString => True
  | _ => False
  end ->
  meta_name D a = a.
Proof.
  destruct a; try contradiction; [reflexivity|].
  unfold is_meta_name, meta_name, cond0, cond, extends. intros M.
  cbn -[String.eqb].
  destruct (String.eqb s "Node"), (String.eqb s "Statement"),
    (String.eqb s "Expression"); try discriminate; reflexivity.
Qed.

Lemma ResolveNodeType_of_names (D st : ty) :
  name_type st = true -> checked st = true -> names_no_meta st = true ->
  ResolveNodeType st D = ty_and (ty_and TString (keyof (nodes_of D))) st.
Proof.
  intros N C M. unfold ResolveNodeType.
  rewrite IsAny_name_type by assumption.
  change (cond0 (TBool false) (TBool true) ?y ?n) with n.
  f_equal. apply distribute_id; auto.
  intros a Ha. apply meta_name_other.
  unfold name_type in N. unfold names_no_meta in M.
  rewrite forallb_forall in N, M. specialize (N a Ha). specialize (M a Ha).
  destruct a; try discriminate; auto. now destruct (is_meta_name s).
Qed.

Lemma ASTDefinition_types (D : ty) :
  ASTDefinition D = true ->
  name_type (index D (TStr "statementType")) = true
  /\ checked (index D (TStr "statementType")) = true
  /\ name_type (index D (TStr "expressionType")) = true
  /\ checked (index D (TStr "expressionType")) = true.
Proof.
  unfold ASTDefinition, index. destruct D; try discriminate.
  cbn [is_never is_union orb index1].
  destruct (lookup "nodes" props) as [[]|]; try discriminate.
  destruct (lookup "statementType" props); try discriminate.
  destruct (lookup "expressionType" props); try discriminate.
  intros H. repeat (apply andb_prop in H as [H ?]). auto.
Qed.

(** C4 (as amended).  When no constituent of [D.statementType] is itself a
    meta-name, resolving ["Statement"] yields the same type as resolving
    [D.statementType]; likewise for ["Expression"] and [D.expressionType]. *)
Theorem meta_names_resolve_to_their_types (D : ty) :
  ASTDefinition D = true ->
  (names_no_meta (index D (TStr "statementType")) = true ->
   ResolveNode (TStr "Statement") D
   = ResolveNode (index D (TStr "statementType")) D) /\
  (names_no_meta (index D (TStr "expressionType")) = true ->
   ResolveNode (TStr "Expression") D
   = ResolveNode (index D (TStr "expressionType")) D).
Proof.
  intros H. destruct (ASTDefinition_types _ H) as (N1 & C1 & N2 & C2).
  split; intros M; unfold ResolveNode; f_equal.
  - now rewrite (ResolveNodeType_of_names D (index D (TStr "statementType"))).
  - now rewrite (ResolveNodeType_of_names D (index D (TStr "expressionType"))).
Qed.

Lemma meta_names_resolve_to_their_types_witness :
  ResolveNode (TStr "Statement") ex_base
  = ResolveNode (index ex_base (TStr "statementType")) ex_base.
Proof.
  apply (meta_names_resolve_to_their_types ex_base eq_refl). reflexivity.
Defined.

(** C4, counterexample: with [statementType: "Expression"], resolving
    ["Statement"] looks for a node-type named ["Expression"] and finds none,
    while resolving [D.statementType] expands the meta-name ["Expression"]
    to the node [B]. *)
Lemma Statement_differs_from_statementType :
  ResolveNode (TStr "Statement") ex_statement_meta = TNever
  /\ ResolveNode (index ex_statement_meta (TStr "statementType")) ex_statement_meta
     = known_node ex_statement_meta (TStr "B")
  /\ ResolveNode (TStr "Statement") ex_statement_meta
     <> ResolveNode (index ex_statement_meta (TStr "statementType")) ex_statement_meta.
Proof.
  assert (E1 : ResolveNode (TStr "Statement") ex_statement_meta = TNever)
    by (vm_compute; reflexivity).
  assert (E2 : ResolveNode (index ex_statement_meta (TStr "statementType"))
                           ex_statement_meta
               = known_node ex_statement_meta (TStr "B"))
    by (vm_compute; reflexivity).
  repeat split; auto. rewrite E1, E2. discriminate.
Qed.

(* ===================================================================== *)
(** ** Reference resolution *)
(* ===================================================================== *)






(* ===================================================================== *)
(** ** The names a type denotes *)
(* ===================================================================== *)

Lemma has_union (B : string) (ts : list ty) :
  has B (TUnion ts) = existsb (has B) ts.
Proof. reflexivity. Qed.

Lemma has_inter (B : string) (ts : list ty) :
  has B (TInter ts) = forallb (has B) ts.
Proof. reflexivity. Qed.

Lemma existsb_flat_map {A B} (p : B -> bool) (f : A -> list B) (l : list A) :
  existsb p (flat_map f l) = existsb (fun x => existsb p (f x)) l.
Proof.
  induction l as [|x r IH]; simpl; auto.
  now rewrite existsb_app, IH.
Qed.

Lemma existsb_ext_in {A} (p q : A -> bool) (l : list A) :
  (forall x, In x l -> p x = q x) -> existsb p l = existsb q l.
Proof.
  induction l as [|x r IH]; simpl; intros H; auto.
  rewrite H by auto. f_equal. auto.
Qed.

Lemma existsb_map {A B} (p : B -> bool) (f : A -> B) (l : list A) :
  existsb p (map f l) = existsb (fun x => p (f x)) l.
Proof. induction l; simpl; congruence. Qed.

Lemma has_alts (B : string) (t : ty) : has B t = existsb (has B) (alts t).
Proof.
  induction t using ty_induction; try (cbn [alts existsb]; now rewrite orb_false_r).
  - reflexivity.
  - rewrite has_union. cbn [alts]. rewrite existsb_flat_map.
    apply existsb_ext_in. intros x Hx. rewrite Forall_forall in H. auto.
Qed.

Lemma has_of_members (B : string) (l : list ty) :
  has B (of_members l) = existsb (has B) l.
Proof.
  destruct l as [|x [|y r]]; try reflexivity.
  cbn [of_members existsb]. now rewrite orb_false_r.
Qed.

Lemma has_unit (B : string) (x : ty) :
  is_unit x = true -> has B x = true -> x = TStr B.
Proof.
  destruct x; intros U; try discriminate U; intros H; cbn in H;
    try discriminate H.
  apply String.eqb_eq in H. now subst.
Qed.

Lemma has_domain (B : string) (x : ty) (d : domain) :
  domain_of x = Some d -> has B x = true -> d = DString.
Proof.
  destruct x; intros E; try discriminate E; intros H; cbn in H;
    try discriminate H; now injection E as <-.
Qed.

Lemma has_nullable (B : string) (x : ty) :
  is_nullable x = true -> has B x = false.
Proof. destruct x; intros E; try discriminate E; reflexivity. Qed.

Lemma clash_has (B : string) (x y : ty) :
  clash x y = true -> has B x && has B y = false.
Proof.
  intros C. destruct (has B x) eqn:Hx, (has B y) eqn:Hy; auto. exfalso.
  unfold clash in C.
  apply orb_prop in C as [C|C]; [apply orb_prop in C as [C|C];
                                  [apply orb_prop in C as [C|C]|]|].
  - apply andb_prop in C as [C N]. apply andb_prop in C as [Ux Uy].
    rewrite (has_unit B x Ux Hx), (has_unit B y Uy Hy), ty_eqb_refl in N.
    discriminate.
  - destruct (domain_of x) eqn:Dx, (domain_of y) eqn:Dy; try discriminate.
    rewrite (has_domain B x _ Dx Hx), (has_domain B y _ Dy Hy) in C. discriminate.
  - apply andb_prop in C as [C _]. rewrite has_nullable in Hx by assumption.
    discriminate.
  - apply andb_prop in C as [_ C]. rewrite has_nullable in Hy by assumption.
    discriminate.
Qed.

Lemma has_empty_inter (B : string) (t : ty) :
  is_empty_inter t = true -> has B t = false.
Proof.
  destruct t; try discriminate. cbn [is_empty_inter]. rewrite has_inter.
  induction ts as [|x r IH]; cbn [empty_members forallb]; [discriminate|].
  intros E. apply orb_prop in E as [E|E].
  - apply existsb_exists in E as [y [Hy C]].
    apply (clash_has B) in C.
    destruct (has B x); auto. cbn in *.
    destruct (forallb (has B) r) eqn:F; auto.
    rewrite forallb_forall in F. rewrite F in C by assumption. discriminate.
  - rewrite IH by assumption. apply andb_false_r.
Qed.

Lemma In_dedupe (x : ty) (l : list ty) : In x (dedupe l) <-> In x l.
Proof.
  unfold dedupe. induction l as [|y r IH]; simpl; [tauto|].
  rewrite filter_In, IH. split.
  - tauto.
  - intros [->|H]; auto.
    destruct (ty_eqb y x) eqn:E; [left; now apply ty_eqb_eq|right; auto].
Qed.

Lemma existsb_same_elements {A} (p : A -> bool) (l m : list A) :
  (forall x, In x l <-> In x m) -> existsb p l = existsb p m.
Proof.
  intros H. apply Bool.eq_iff_eq_true. rewrite !existsb_exists.
  split; intros [x [Hx Px]]; exists x; split; auto; now apply H.
Qed.

Lemma forallb_same_elements {A} (p : A -> bool) (l m : list A) :
  (forall x, In x l <-> In x m) -> forallb p l = forallb p m.
Proof.
  intros H. apply Bool.eq_iff_eq_true. rewrite !forallb_forall.
  split; intros F x Hx; apply F; now apply H.
Qed.

Lemma has_any (B : string) (x : ty) : is_any x = true -> has B x = true.
Proof. now destruct x. Qed.

Lemma has_unknown (B : string) (x : ty) : is_unknown x = true -> has B x = true.
Proof. now destruct x. Qed.

(** The names of a union are the names of its members. *)
Lemma has_mk_union (B : string) (l : list ty) :
  has B (mk_union l) = existsb (has B) l.
Proof.
  rewrite (existsb_ext_in (has B) (fun x => existsb (has B) (alts x)))
    by (intros; apply has_alts).
  rewrite <- existsb_flat_map. unfold mk_union.
  set (flat := flat_map alts l).
  destruct (existsb is_any flat) eqn:A.
  { apply existsb_exists in A as [x [Hx Ax]]. symmetry.
    apply existsb_exists. exists x. split; auto. now apply has_any. }
  destruct (existsb is_unknown flat) eqn:U.
  { apply existsb_exists in U as [x [Hx Ux]]. symmetry.
    apply existsb_exists. exists x. split; auto. now apply has_unknown. }
  rewrite has_of_members.
  set (m := dedupe (filter (fun t => negb (is_empty_inter t)) flat)).
  assert (E1 : existsb (has B) m = existsb (has B) flat).
  { unfold m. rewrite (existsb_same_elements _ _ _ (fun x => In_dedupe x _)).
    apply Bool.eq_iff_eq_true. rewrite !existsb_exists.
    split; intros [x [Hx Px]]; exists x; split; auto.
    - now apply filter_In in Hx.
    - apply filter_In. split; auto.
      destruct (is_empty_inter x) eqn:E; auto.
      rewrite has_empty_inter in Px by assumption. discriminate. }
  rewrite <- E1. apply Bool.eq_iff_eq_true. rewrite !existsb_exists.
  split; intros [x [Hx Px]].
  - exists x. split; auto. now apply filter_In in Hx.
  - destruct (absorbed m x) eqn:Ab.
    + destruct x; try discriminate Ab; try discriminate Px.
      cbn [absorbed] in Ab. apply existsb_exists in Ab as [y [Hy Ey]].
      assert (y = TString) by (destruct y; try discriminate; reflexivity).
      subst y. exists TString. split; [|reflexivity].
      apply filter_In. split; auto.
    + exists x. split; auto. apply filter_In. split; auto. now rewrite Ab.
Qed.

Lemma has_parts (B : string) (x : ty) : has B x = forallb (has B) (parts x).
Proof.
  destruct x; try (cbn [parts forallb]; now rewrite andb_true_r).
  apply has_inter.
Qed.

(** The names of an intersection are the names common to its
    constituents. *)
Lemma has_inter_of (B : string) (l : list ty) :
  has B (inter_of l) = forallb (has B) l.
Proof.
  unfold inter_of.
  set (l1 := dedupe l).
  set (l2 := filter (fun t => negb (redundant l1 t)) l1).
  set (l3 := if existsb is_nonempty_object l2
             then filter (fun t => negb (is_empty_object t)) l2 else l2).
  assert (E1 : forallb (has B) l1 = forallb (has B) l)
    by apply (forallb_same_elements _ _ _ (fun x => In_dedupe x l)).
  assert (E2 : forallb (has B) l2 = forallb (has B) l1).
  { apply Bool.eq_iff_eq_true. rewrite !forallb_forall. split; intros F x Hx.
    - destruct (redundant l1 x) eqn:R.
      + destruct x; try discriminate R; [reflexivity|].
        cbn [redundant] in R. apply existsb_exists in R as [y [Hy Ey]].
        destruct y; try discriminate Ey.
        assert (In (TNum n) l2) by (apply filter_In; split; auto).
        apply F in H. discriminate H.
      + apply F. apply filter_In. split; auto. now rewrite R.
    - apply F. now apply filter_In in Hx. }
  assert (E3 : forallb (has B) l3 = forallb (has B) l2).
  { unfold l3. destruct (existsb is_nonempty_object l2); auto.
    apply Bool.eq_iff_eq_true. rewrite !forallb_forall. split; intros F x Hx.
    - destruct (is_empty_object x) eqn:R.
      + destruct x as [| | | | | | | | | | | |[|]| | | | | |]; try discriminate R.
        reflexivity.
      + apply F. apply filter_In. split; auto. now rewrite R.
    - apply F. now apply filter_In in Hx. }
  rewrite <- E1, <- E2, <- E3.
  destruct l3 as [|x [|y r]]; try reflexivity.
  cbn [forallb]. now rewrite andb_true_r.
Qed.

Lemma has_and_atom (B : string) (x y : ty) :
  is_any x = false -> is_any y = false ->
  has B (and_atom x y) = has B x && has B y.
Proof.
  intros Ax Ay. unfold and_atom.
  destruct x; try discriminate Ax;
    try (destruct y; try discriminate Ay;
         try (rewrite has_inter_of, forallb_app, <- !has_parts; reflexivity);
         try reflexivity;
         try (cbn; now rewrite ?andb_true_r, ?andb_false_r)).
Qed.

Lemma has_and_atom_intro (B : string) (x y : ty) :
  has B x = true -> has B y = true -> has B (and_atom x y) = true.
Proof.
  intros Hx Hy.
  destruct (is_any x) eqn:Ax; [now destruct x|].
  destruct (is_any y) eqn:Ay; [destruct y; try discriminate; now destruct x|].
  now rewrite has_and_atom, Hx, Hy.
Qed.

Lemma existsb_andb_l {A} (c : bool) (q : A -> bool) (l : list A) :
  existsb (fun y => c && q y) l = c && existsb q l.
Proof.
  destruct c; cbn; [reflexivity|]. induction l; cbn; auto.
Qed.

Lemma existsb_prod {A} (p q : A -> bool) (f : A -> A -> A) (r : A -> bool)
      (la lb : list A) :
  (forall x y, In x la -> In y lb -> r (f x y) = p x && q y) ->
  existsb r (flat_map (fun x => map (f x) lb) la)
  = existsb p la && existsb q lb.
Proof.
  intros H. rewrite existsb_flat_map.
  induction la as [|x la IH]; [reflexivity|].
  cbn [existsb]. rewrite IH by (intros; apply H; simpl; auto).
  rewrite existsb_map.
  rewrite (existsb_ext_in _ (fun y => p x && q y)) by (intros; apply H; simpl; auto).
  rewrite existsb_andb_l.
  now destruct (p x), (existsb p la), (existsb q lb).
Qed.

Lemma no_any_In (t a : ty) : no_any t = true -> In a (alts t) -> is_any a = false.
Proof.
  unfold no_any. rewrite forallb_forall. intros H Ha.
  specialize (H a Ha). now destruct (is_any a).
Qed.

Lemma alts_self (t : ty) :
  is_union t = false -> is_never t = false -> alts t = [t].
Proof. destruct t; try discriminate; reflexivity. Qed.

(** The names of [a & b] are the names common to [a] and [b]. *)
Lemma has_ty_and (B : string) (a b : ty) :
  no_any a = true -> no_any b = true ->
  has B (ty_and a b) = has B a && has B b.
Proof.
  intros Na Nb. unfold ty_and.
  destruct (is_never a) eqn:Va; [now destruct a|].
  destruct (is_never b) eqn:Vb;
    [destruct b; try discriminate; cbn; now rewrite andb_false_r|].
  cbn [orb].
  destruct (is_union a || is_union b) eqn:U.
  - rewrite has_mk_union, (has_alts B a), (has_alts B b).
    apply existsb_prod. intros x y Hx Hy.
    apply has_and_atom; eauto using no_any_In.
  - apply orb_false_elim in U as [Ua Ub].
    apply has_and_atom.
    + apply (no_any_In a a Na). rewrite alts_self by assumption. now left.
    + apply (no_any_In b b Nb). rewrite alts_self by assumption. now left.
Qed.

Lemma has_ty_and_intro (B : string) (a b : ty) :
  has B a = true -> has B b = true -> has B (ty_and a b) = true.
Proof.
  intros Ha Hb. unfold ty_and.
  destruct (is_never a) eqn:Va; [now destruct a|].
  destruct (is_never b) eqn:Vb; [now destruct b|].
  cbn [orb].
  destruct (is_union a || is_union b) eqn:U.
  - rewrite has_mk_union.
    rewrite has_alts in Ha, Hb.
    apply existsb_exists in Ha as [x [Hx Px]].
    apply existsb_exists in Hb as [y [Hy Py]].
    apply existsb_exists. exists (and_atom x y). split.
    + apply in_flat_map. exists x. split; auto. now apply in_map.
    + now apply has_and_atom_intro.
  - now apply has_and_atom_intro.
Qed.

(** The names of a distributive conditional type. *)
Lemma has_distribute (B : string) (t : ty) (f : ty -> ty) :
  has B (distribute t f) = existsb (fun a => has B (f a)) (alts t).
Proof.
  destruct t; try (cbn [distribute alts existsb]; now rewrite orb_false_r).
  - reflexivity.
  - unfold distribute. now rewrite has_mk_union, existsb_map.
Qed.

Lemma has_lits (B : string) (M : list string) :
  has B (lits M) = existsb (String.eqb B) M.
Proof. apply extends_lits. Qed.

Lemma no_any_lits (M : list string) : no_any (lits M) = true.
Proof.
  unfold no_any. rewrite alts_lits. apply forallb_forall.
  now intros a [x [<- _]]%in_map_iff.
Qed.

(** The constituents of a union come from its members. *)
Lemma alts_mk_union (a : ty) (l : list ty) :
  In a (alts (mk_union l)) -> In a (flat_map alts l).
Proof.
  unfold mk_union. set (flat := flat_map alts l).
  assert (At : forall x, In x flat -> alts x = [x]).
  { intros x [y [_ Hx]]%in_flat_map. now apply (alts_atom y). }
  destruct (existsb is_any flat) eqn:A.
  { apply existsb_exists in A as [x [Hx Ax]]. intros [<-|[]].
    now destruct x. }
  destruct (existsb is_unknown flat) eqn:U.
  { apply existsb_exists in U as [x [Hx Ux]]. intros [<-|[]].
    now destruct x. }
  set (l0 := dedupe (filter (fun t => negb (is_empty_inter t)) flat)).
  set (m := filter (fun t => negb (absorbed l0 t)) l0).
  assert (Sub : forall x, In x m -> In x flat).
  { intros x Hx. unfold m in Hx. apply filter_In in Hx as [Hx _].
    unfold l0 in Hx. rewrite In_dedupe in Hx. now apply filter_In in Hx. }
  intros Ha.
  assert (In a m).
  { destruct m as [|x [|y r]] eqn:Em; [contradiction| |].
    - cbn [of_members] in Ha. rewrite (At x) in Ha by (apply Sub; now left).
      assumption.
    - cbn [of_members alts] in Ha. apply in_flat_map in Ha as [z [Hz Ha]].
      rewrite (At z) in Ha by (now apply Sub). destruct Ha as [<-|[]]. assumption. }
  auto.
Qed.

Lemma alts_distribute (a t : ty) (f : ty -> ty) :
  In a (alts (distribute t f)) -> exists m, In m (alts t) /\ In a (alts (f m)).
Proof.
  destruct t; try (intros H; eexists; split; [now left|exact H]).
  - contradiction.
  - unfold distribute. intros H. apply alts_mk_union in H.
    rewrite flat_map_map in H. now apply in_flat_map in H.
Qed.

(* ===================================================================== *)
(** ** Parent inference *)
(* ===================================================================== *)

Lemma cond0_literal (c : string) (e y n : ty) :
  cond0 (TStr c) e y n = if has c e then y else n.
Proof. destruct e; reflexivity. Qed.

Lemma NoDup_parents (D : ty) (B : string) : NoDup (parents D B).
Proof. apply NoDup_filter, NoDup_node_names. Qed.

Lemma ParentNodeType_literal (D : ty) (B : string) :
  ASTDefinition D = true -> ParentNodeType (TStr B) D = lits (parents D B).
Proof.
  intros H. unfold ParentNodeType.
  rewrite (ASTDefinition_keys _ H), names_of_lits.
  rewrite (mk_union_lits _ (parents D B)).
  - unfold Extract. rewrite (distribute_lits _ (fun _ => true)) by reflexivity.
    rewrite (sdedupe_NoDup (parents D B)) by apply NoDup_parents.
    rewrite filter_all by reflexivity.
    now rewrite (sdedupe_NoDup (parents D B)) by apply NoDup_parents.
  - unfold parents. induction (node_names D) as [|P r IH]; [reflexivity|].
    cbn [map flat_map filter]. rewrite IH. unfold distribute.
    rewrite cond0_literal. now destruct (has B _).
Qed.

Lemma IsNever_known_node (D : ty) (x : string) :
  IsNever (known_node D (TStr x)) = TBool false.
Proof. reflexivity. Qed.

Lemma NeverToNull_nodes (D : ty) (l : list string) :
  NeverToNull (of_members (map (fun P => known_node D (TStr P)) l))
  = match l with
    | [] => TNull
    | _ => of_members (map (fun P => known_node D (TStr P)) l)
    end.
Proof.
  destruct l as [|x [|y r]]; try reflexivity.
  set (T := of_members _).
  assert (E : extends_never T = TBool false).
  { unfold extends_never, T, distribute. cbn [of_members map].
    change (alts (TUnion ?l)) with (flat_map alts l).
    change (known_node D (TStr x) :: known_node D (TStr y)
              :: map (fun P => known_node D (TStr P)) r)
      with (map (fun P => known_node D (TStr P)) (x :: y :: r)).
    rewrite (flat_map_alts_tagged (fun P => known_node D (TStr P))) by reflexivity.
    rewrite map_map.
    rewrite (map_ext _ (fun _ => TBool false)) by reflexivity.
    apply mk_union_const; try reflexivity. discriminate. }
  unfold NeverToNull, IsNever. rewrite E. reflexivity.
Qed.

(** The parent of a node-type is the union of the nodes of its parent
    candidates, and [null] when it has none. *)
Lemma ParentNode_spec (D : ty) (B : string) :
  ASTDefinition D = true ->
  ParentNode (TStr B) D
  = match parents D B with
    | [] => TNull
    | l => of_members (map (fun P => known_node D (TStr P)) l)
    end.
Proof.
  intros H. unfold ParentNode.
  rewrite ParentNodeType_literal by assumption.
  rewrite Node_lits; auto using NoDup_parents.
  - rewrite NeverToNull_nodes. now destruct (parents D B).
  - intros P HP. unfold parents in HP. now apply filter_In in HP.
Qed.

(** A name kept by a union is among its constituents, unless [string]
    absorbed it or the union collapsed to [any] or [unknown]. *)
Lemma mk_union_keeps (r : string) (l : list ty) :
  In (TStr r) (flat_map alts l) ->
  mk_union l = TAny \/ mk_union l = TUnknown
  \/ In (TStr r) (alts (mk_union l)) \/ In TString (alts (mk_union l)).
Proof.
  intros Hr. unfold mk_union. set (flat := flat_map alts l) in *.
  destruct (existsb is_any flat); auto.
  destruct (existsb is_unknown flat); auto.
  right. right.
  set (l0 := dedupe (filter (fun t => negb (is_empty_inter t)) flat)).
  set (m := filter (fun t => negb (absorbed l0 t)) l0).
  assert (At : forall x, In x m -> alts x = [x]).
  { intros x Hx. unfold m in Hx. apply filter_In in Hx as [Hx _].
    unfold l0 in Hx. rewrite In_dedupe in Hx. apply filter_In in Hx as [Hx _].
    apply in_flat_map in Hx as [y [_ Hx]]. now apply (alts_atom y). }
  assert (Al : forall x, In x m -> In x (alts (of_members m))).
  { intros x Hx. destruct m as [|a [|b t]] eqn:Em; [contradiction| |].
    - cbn [of_members]. destruct Hx as [<-|[]]. rewrite At; now left.
    - cbn [of_members alts]. apply in_flat_map. exists x. split; auto.
      rewrite At by assumption. now left. }
  assert (R0 : In (TStr r) l0).
  { unfold l0. rewrite In_dedupe. apply filter_In. split; auto. }
  destruct (absorbed l0 (TStr r)) eqn:Ab.
  - right. apply Al. cbn [absorbed] in Ab.
    apply existsb_exists in Ab as [y [Hy Ey]].
    assert (y = TString) by (destruct y; try discriminate; reflexivity).
    subst y. apply filter_In. split; auto.
  - left. apply Al. apply filter_In. split; auto. now rewrite Ab.
Qed.

Lemma has_cond0 (B : string) (c e y n : ty) :
  has B y = true -> has B n = true -> has B (cond0 c e y n) = true.
Proof.
  intros Hy Hn. unfold cond0, cond.
  destruct (is_any e || is_unknown e); auto.
  destruct (is_any c); [|now destruct (extends _ _ _)].
  rewrite has_mk_union. cbn [existsb]. now rewrite Hy.
Qed.

Lemma NodeRefType_single (r : string) : NodeRefType (NodeRef (TStr r)) = TStr r.
Proof. reflexivity. Qed.


Lemma index_obj (s : list (string * ty)) (p : string) (v : ty) :
  lookup p s = Some v -> index (TObj s) (TStr p) = v.
Proof. intros L. unfold index. cbn. now rewrite L. Qed.

Lemma lookup_Some_In (p : string) (v : ty) (s : list (string * ty)) :
  lookup p s = Some v -> In p (sdedupe (map fst s)).
Proof.
  intros L. rewrite In_sdedupe.
  destruct (in_dec string_dec p (map fst s)) as [|n]; auto.
  apply lookup_None in n. congruence.
Qed.

Lemma ASTDefinition_meta_types (D : ty) (a : ty) :
  ASTDefinition D = true -> is_any a = false ->
  meta_name D a = keyof (nodes_of D)
  \/ meta_name D a = index D (TStr "statementType")
  \/ meta_name D a = index D (TStr "expressionType")
  \/ meta_name D a = a.
Proof.
  intros H A. unfold meta_name, cond0, cond. rewrite A. cbn [is_any is_unknown orb].
  destruct (extends _ a (TStr "Node")); auto.
  destruct (extends _ a (TStr "Statement")); auto.
  destruct (extends _ a (TStr "Expression")); auto.
Qed.

Lemma name_type_no_any (t : ty) : name_type t = true -> no_any t = true.
Proof.
  unfold name_type, no_any. rewrite !forallb_forall.
  intros H a Ha. specialize (H a Ha). now destruct a.
Qed.

Lemma meta_name_no_any (D a : ty) :
  ASTDefinition D = true -> is_any a = false -> no_any a = true ->
  no_any (meta_name D a) = true.
Proof.
  intros H A N.
  destruct (ASTDefinition_types _ H) as (N1 & _ & N2 & _).
  destruct (ASTDefinition_meta_types D a H A) as [E|[E|[E|E]]]; rewrite E;
    auto using name_type_no_any.
  rewrite (ASTDefinition_keys _ H). apply no_any_lits.
Qed.

Lemma ASTDefinition_string_keys (D : ty) :
  ASTDefinition D = true ->
  ty_and TString (keyof (nodes_of D)) = lits (node_names D).
Proof.
  intros H. rewrite (ASTDefinition_keys _ H).
  apply ty_and_string_lits, NoDup_node_names.
Qed.

Lemma has_meta_any (D : ty) (B : string) :
  has B (keyof (nodes_of D)) = true -> has B (meta_name D TAny) = true.
Proof.
  intros HK. unfold meta_name, cond0, cond. cbn [is_any is_unknown orb].
  rewrite has_mk_union. cbn [existsb]. now rewrite HK.
Qed.

(** A node-shape with a reference that resolves to [B] makes its node-type
    a parent candidate of [B]. *)
Lemma reference_makes_parent (D : ty) (A B p r : string) (v : ty) :
  ASTDefinition D = true -> In A (node_names D) ->
  node_prop D A p = Some v ->
  NodeRefType v = TStr r ->
  has B (ResolveNodeType (TStr r) D) = true ->
  In A (parents D B).
Proof.
  intros H HA P NR HB. unfold parents. apply filter_In. split; auto.
  rewrite ASTDefinition_shape by assumption.
  rewrite ResolveNodeType_literal, ASTDefinition_string_keys in HB by assumption.
  rewrite has_ty_and in HB
    by (auto using no_any_lits; apply meta_name_no_any; auto).
  apply andb_prop in HB as [HK HM].
  unfold ChildNodeType, ResolveNodeType.
  rewrite ASTDefinition_string_keys by assumption.
  apply has_ty_and_intro; auto.
  rewrite (ASTDefinition_keys _ H).
  apply has_cond0; auto.
  rewrite has_distribute. apply existsb_exists.
  set (X := mk_union _).
  assert (K : mk_union (map (fun P0 => NodeRefType (index (TObj (shape_list D A)) (TStr P0)))
                            (names_of (keyof (TObj (shape_list D A))))) = X)
    by reflexivity.
  destruct (mk_union_keeps r
              (map (fun P0 => NodeRefType (index (TObj (shape_list D A)) (TStr P0)))
                   (names_of (keyof (TObj (shape_list D A))))))
    as [E|[E|[E|E]]].
  - rewrite flat_map_map. apply in_flat_map. exists p. split.
    + rewrite keyof_obj, names_of_lits. now apply (lookup_Some_In p v).
    + rewrite (index_obj _ _ v P), NR. now left.
  - exists TAny. rewrite K in E. rewrite E. split; [now left|].
    apply has_meta_any. now rewrite (ASTDefinition_keys _ H).
  - exists TUnknown. rewrite K in E. rewrite E. split; [now left|reflexivity].
  - exists (TStr r). rewrite K in E. split; auto.
  - exists TString. rewrite K in E. split; auto.
Qed.





Lemma name_type_atoms (t a : ty) :
  name_type t = true -> In a (alts t) ->
  match a with TStr _ | TString => True | _ => False end.
Proof.
  unfold name_type. rewrite forallb_forall. intros H Ha.
  specialize (H a Ha). now destruct a.
Qed.

Lemma no_any_atom (a : ty) :
  is_union a = false -> is_never a = false -> is_any a = false -> no_any a = true.
Proof. intros U N A. unfold no_any. rewrite alts_self by assumption. cbn. now rewrite A. Qed.

Lemma no_any_distribute_meta (D T : ty) :
  ASTDefinition D = true -> no_any T = true ->
  no_any (distribute T (meta_name D)) = true.
Proof.
  intros H N. unfold no_any. apply forallb_forall. intros a Ha.
  apply alts_distribute in Ha as [m [Hm Ha]].
  pose proof (no_any_In _ _ N Hm) as Am.
  destruct (alts_atom _ _ Hm) as (Um & Vm & _).
  pose proof (meta_name_no_any D m H Am (no_any_atom m Um Vm Am)) as M.
  now rewrite (no_any_In _ _ M Ha).
Qed.


Lemma ResolveNodeType_any (D : ty) :
  ResolveNodeType TAny D
  = ty_and (ty_and TString (keyof (nodes_of D))) (keyof (nodes_of D)).
Proof. reflexivity. Qed.

Lemma In_Identifier_ex_base : In "Identifier" (node_names ex_base).
Proof. now left. Defined.

(* ===================================================================== *)
(** ** Further facts about unions and intersections of names *)
(* ===================================================================== *)

Lemma NoDup_dedupe (l : list ty) : NoDup (dedupe l).
Proof.
  unfold dedupe. induction l as [|x r IH]; simpl; constructor.
  - rewrite filter_In. intros [_ H]. now rewrite ty_eqb_refl in H.
  - now apply NoDup_filter.
Qed.

Lemma dedupe_NoDup (l : list ty) : NoDup l -> dedupe l = l.
Proof.
  unfold dedupe. induction 1 as [|x r Hx _ IH]; simpl; auto.
  rewrite IH. f_equal. apply filter_all. intros y Hy.
  destruct (ty_eqb x y) eqn:E; auto.
  apply ty_eqb_eq in E. subst y. contradiction.
Qed.

Lemma flat_alts_atom (l : list ty) (a : ty) :
  In a (flat_map alts l) -> alts a = [a].
Proof. intros [t [_ Ha]]%in_flat_map. now apply (alts_atom t). Qed.

Lemma flat_map_alts_atoms (m : list ty) :
  (forall a, In a m -> alts a = [a]) -> flat_map alts m = m.
Proof.
  induction m as [|x r IH]; simpl; auto. intros H.
  rewrite (H x) by auto. simpl. f_equal. auto.
Qed.

Lemma alts_of_members (m : list ty) :
  (forall a, In a m -> alts a = [a]) -> alts (of_members m) = m.
Proof.
  intros H. destruct m as [|x [|y r]]; [reflexivity| |].
  - apply H. now left.
  - now apply flat_map_alts_atoms.
Qed.

Lemma absorbed_incl (m l : list ty) (x : ty) :
  incl m l -> absorbed m x = true -> absorbed l x = true.
Proof.
  intros I. destruct x; simpl; auto; rewrite !existsb_exists;
    intros [y [Hy E]]; exists y; auto.
Qed.

(** The result of a union construction: [any], [unknown], or the union of
    distinct constituents none of which another one absorbs. *)
Lemma mk_union_shape (l : list ty) :
  mk_union l = TAny \/ mk_union l = TUnknown \/
  exists m, mk_union l = of_members m /\ NoDup m /\
            forall a, In a m ->
                      alts a = [a] /\ is_any a = false /\ is_unknown a = false
                      /\ is_empty_inter a = false /\ absorbed m a = false.
Proof.
  unfold mk_union. set (flat := flat_map alts l).
  destruct (existsb is_any flat) eqn:A; auto.
  destruct (existsb is_unknown flat) eqn:U; auto.
  right. right.
  set (l0 := dedupe (filter (fun t => negb (is_empty_inter t)) flat)).
  exists (filter (fun t => negb (absorbed l0 t)) l0).
  split; [reflexivity|]. split.
  - apply NoDup_filter, NoDup_dedupe.
  - intros a Ha. apply filter_In in Ha as [Ha Ab].
    pose proof Ha as Ha'. unfold l0 in Ha'. rewrite In_dedupe in Ha'.
    apply filter_In in Ha' as [Hf Ne].
    split; [now apply (flat_alts_atom l)|].
    split; [|split; [|split]].
    + destruct (is_any a) eqn:E; auto.
      assert (existsb is_any flat = true) by (apply existsb_exists; eauto).
      congruence.
    + destruct (is_unknown a) eqn:E; auto.
      assert (existsb is_unknown flat = true) by (apply existsb_exists; eauto).
      congruence.
    + now destruct (is_empty_inter a).
    + destruct (absorbed (filter (fun t => negb (absorbed l0 t)) l0) a) eqn:E; auto.
      apply (absorbed_incl _ l0) in E.
      * rewrite E in Ab. discriminate.
      * intros y Hy. now apply filter_In in Hy.
Qed.

Lemma mk_union_of_shape (m : list ty) :
  NoDup m ->
  (forall a, In a m ->
             alts a = [a] /\ is_any a = false /\ is_unknown a = false
             /\ is_empty_inter a = false /\ absorbed m a = false) ->
  mk_union [of_members m] = of_members m.
Proof.
  intros ND H. unfold mk_union. cbn [flat_map]. rewrite app_nil_r.
  rewrite alts_of_members by (intros a Ha; apply (H a Ha)).
  rewrite (existsb_none is_any) by (intros a Ha; apply (H a Ha)).
  rewrite (existsb_none is_unknown) by (intros a Ha; apply (H a Ha)).
  rewrite (filter_all (fun t => negb (is_empty_inter t)) m).
  2:{ intros a Ha. destruct (H a Ha) as (_ & _ & _ & E & _). now rewrite E. }
  rewrite dedupe_NoDup by assumption.
  rewrite filter_all; auto.
  intros a Ha. destruct (H a Ha) as (_ & _ & _ & _ & E). now rewrite E.
Qed.

(** Union construction is idempotent. *)
Lemma mk_union_idem (l : list ty) : mk_union [mk_union l] = mk_union l.
Proof.
  destruct (mk_union_shape l) as [E|[E|[m (E & ND & H)]]]; rewrite E;
    try reflexivity.
  now apply mk_union_of_shape.
Qed.

Lemma checked_mk_union (l : list ty) : checked (mk_union l) = true.
Proof. unfold checked. rewrite mk_union_idem. apply ty_eqb_refl. Qed.

Lemma checked_eq (t : ty) : checked t = true -> mk_union [t] = t.
Proof. apply ty_eqb_eq. Qed.

(** [Extract<T, any>] is [T]. *)
Lemma Extract_any (m : ty -> string -> option ty) (T : ty) :
  (is_union T = true -> checked T = true) -> Extract m T TAny = T.
Proof.
  intros H. unfold Extract.
  destruct T; try reflexivity.
  apply distribute_id; auto.
Qed.

Lemma NoDup_all_equal {A} (c : A) (l : list A) :
  NoDup l -> (forall x, In x l -> x = c) -> l = [] \/ l = [c].
Proof.
  intros ND H. destruct l as [|x [|y r]]; auto.
  - right. f_equal. apply H. now left.
  - exfalso. inversion ND as [|? ? N _]; subst. apply N.
    rewrite (H x), (H y); simpl; auto.
Qed.

Lemma all_literals (l : list ty) :
  (forall a, In a l -> exists s, a = TStr s) ->
  l = map TStr (flat_map (fun t => match t with TStr s => [s] | _ => [] end) l).
Proof.
  induction l as [|x r IH]; simpl; auto. intros H.
  destruct (H x (or_introl eq_refl)) as [s ->]. simpl. f_equal. auto.
Qed.

(** A checked type that names node types is [string] or a union of
    distinct names. *)
Lemma name_type_checked_cases (t : ty) :
  name_type t = true -> checked t = true ->
  t = TString \/ exists L, NoDup L /\ t = lits L.
Proof.
  intros N C. apply checked_eq in C.
  unfold name_type in N. rewrite forallb_forall in N.
  destruct (existsb (ty_eqb TString) (alts t)) eqn:S.
  - left. apply existsb_exists in S as [y [Hy Ey]].
    apply ty_eqb_eq in Ey. subst y.
    destruct (mk_union_shape [t]) as [E|[E|[m (E & ND & H)]]].
    + rewrite C in E. subst t. discriminate (N TAny (or_introl eq_refl)).
    + rewrite C in E. subst t. discriminate (N TUnknown (or_introl eq_refl)).
    + rewrite C in E.
      assert (Hm : forall a, In a m <-> In a (alts t)).
      { intros a. rewrite E. rewrite alts_of_members; [tauto|].
        intros b Hb. apply (H b Hb). }
      assert (A : forall x, In x m -> x = TString).
      { intros x Hx. pose proof (N x (proj1 (Hm x) Hx)) as Nx.
        destruct (H x Hx) as (_ & _ & _ & _ & Ab).
        destruct x; try discriminate; auto.
        cbn [absorbed] in Ab.
        rewrite (proj2 (existsb_exists _ _)) in Ab; [discriminate|].
        exists TString. split; [now apply Hm|reflexivity]. }
      destruct (NoDup_all_equal TString m ND A) as [-> | ->].
      * apply (proj2 (Hm TString)) in Hy. contradiction.
      * exact E.
  - right.
    assert (A : forall a, In a (alts t) -> exists s, a = TStr s).
    { intros a Ha. specialize (N a Ha). destruct a; try discriminate; eauto.
      exfalso.
      assert (existsb (ty_eqb TString) (alts t) = true)
        by (apply existsb_exists; exists TString; auto).
      congruence. }
    apply all_literals in A. fold (names_of t) in A.
    exists (sdedupe (names_of t)). split; [apply NoDup_sdedupe|].
    rewrite <- C at 1. apply mk_union_lits.
    cbn [flat_map]. now rewrite app_nil_r.
Qed.

Lemma is_never_lits (M : list string) : M <> [] -> is_never (lits M) = false.
Proof. destruct M as [|x [|y r]]; [congruence| |]; reflexivity. Qed.

Lemma ty_and_union (a b : ty) :
  is_never a = false -> is_never b = false -> is_union a || is_union b = true ->
  ty_and a b = mk_union (flat_map (fun x => map (and_atom x) (alts b)) (alts a)).
Proof. intros Na Nb U. unfold ty_and. now rewrite Na, Nb, U. Qed.

Lemma and_atom_lit_string (a : string) : and_atom (TStr a) TString = TStr a.
Proof. reflexivity. Qed.

Lemma ty_and_lits_string (M : list string) :
  NoDup M -> ty_and (lits M) TString = lits M.
Proof.
  intros ND. destruct M as [|x [|y r]]; try reflexivity.
  rewrite ty_and_union; try reflexivity.
  rewrite alts_lits. cbn [alts].
  rewrite (mk_union_lits _ (x :: y :: r)).
  - now rewrite sdedupe_NoDup.
  - replace (flat_map (fun x0 => map (and_atom x0) [TString]) (map TStr (x :: y :: r)))
      with (map TStr (x :: y :: r)); [apply flat_map_alts_lits|].
    generalize (x :: y :: r). intros M.
    induction M as [|a M IH]; [reflexivity|].
    cbn [map flat_map app]. rewrite and_atom_lit_string. f_equal. exact IH.
Qed.

Lemma filter_eqb_NoDup (a : string) (L : list string) :
  NoDup L ->
  filter (String.eqb a) L = if existsb (String.eqb a) L then [a] else [].
Proof.
  induction 1 as [|x r Hx ND IH]; simpl; auto.
  destruct (String.eqb_spec a x) as [->|NE]; simpl.
  - now rewrite filter_eqb_absent.
  - exact IH.
Qed.

Lemma flat_map_filter_eqb (M L : list string) :
  NoDup L ->
  flat_map (fun a => filter (String.eqb a) L) M
  = filter (fun a => existsb (String.eqb a) L) M.
Proof.
  intros ND. induction M as [|x r IH]; simpl; auto.
  rewrite filter_eqb_NoDup by assumption.
  destruct (existsb (String.eqb x) L); simpl; now rewrite IH.
Qed.

(** The pairwise intersections of two lists of names. *)
Lemma cross_lits (M L : list string) :
  NoDup M -> NoDup L ->
  mk_union (flat_map (fun x => map (and_atom x) (map TStr L)) (map TStr M))
  = lits (filter (fun a => existsb (String.eqb a) L) M).
Proof.
  intros NM NL.
  assert (F : flat_map alts
                (flat_map (fun x0 => map (and_atom x0) (map TStr L)) (map TStr M))
              = flat_map (fun a => map (and_atom (TStr a)) (map TStr L)) M).
  { rewrite flat_map_nested, flat_map_map. apply flat_map_ext_in.
    intros a _. apply and_row. }
  rewrite (mk_union_filtered String.eqb TStr)
    with (L := filter (fun a => existsb (String.eqb a) L) M);
    auto using absorbed_lits; rewrite ?F.
  - change (dedupe_by String.eqb) with sdedupe.
    rewrite sdedupe_NoDup; [reflexivity|]. now apply NoDup_filter.
  - apply existsb_none. intros t [a [_ Ht]]%in_flat_map.
    destruct (and_row a L) as (_ & E2 & _).
    destruct (is_any t) eqn:A; auto.
    assert (existsb is_any (map (and_atom (TStr a)) (map TStr L)) = true)
      by (apply existsb_exists; eauto).
    congruence.
  - apply existsb_none. intros t [a [_ Ht]]%in_flat_map.
    destruct (and_row a L) as (_ & _ & E3 & _).
    destruct (is_unknown t) eqn:A; auto.
    assert (existsb is_unknown (map (and_atom (TStr a)) (map TStr L)) = true)
      by (apply existsb_exists; eauto).
    congruence.
  - rewrite filter_flat_map.
    rewrite <- (flat_map_filter_eqb M L NL). rewrite map_flat_map.
    apply flat_map_ext_in. intros a _. apply and_row.
Qed.

Lemma filter_none {A} (f : A -> bool) (l : list A) :
  (forall x, In x l -> f x = false) -> filter f l = [].
Proof.
  induction l as [|x r IH]; simpl; auto. intros H.
  rewrite (H x) by auto. auto.
Qed.

(** The intersection of two unions of distinct names is the union of the
    common names, except for two different single names, whose intersection
    is kept as such. *)
Lemma ty_and_lits_lits (M L : list string) :
  NoDup M -> NoDup L ->
  (forall a b, M = [a] -> L = [b] -> a = b) ->
  ty_and (lits M) (lits L) = lits (filter (fun a => existsb (String.eqb a) L) M).
Proof.
  intros NM NL Q.
  destruct M as [|x M']; [reflexivity|].
  destruct L as [|y L'].
  { rewrite filter_none by reflexivity.
    unfold ty_and. cbn [lits map of_members is_never]. now rewrite orb_true_r. }
  destruct M' as [|x' M'], L' as [|y' L'].
  - rewrite (Q x y eq_refl eq_refl). change (lits [y]) with (TStr y).
    unfold ty_and. cbn [is_never is_union orb].
    rewrite and_atom_lits, String.eqb_refl.
    cbn [filter existsb]. now rewrite String.eqb_refl.
  - rewrite ty_and_union; try reflexivity.
    rewrite !alts_lits. now apply cross_lits.
  - rewrite ty_and_union; try reflexivity.
    rewrite !alts_lits. now apply cross_lits.
  - rewrite ty_and_union; try reflexivity.
    rewrite !alts_lits. now apply cross_lits.
Qed.

(** The node-type names of the list [M] that a type names. *)
Lemma ty_and_lits_names (M : list string) (st : ty) :
  NoDup M -> name_type st = true -> checked st = true ->
  (forall a b, M = [a] -> st = TStr b -> a = b) ->
  ty_and (lits M) st = lits (filter (fun N => has N st) M).
Proof.
  intros ND N C Q.
  destruct (name_type_checked_cases st N C) as [->|[L [NL ->]]].
  - rewrite ty_and_lits_string by assumption.
    now rewrite filter_all.
  - rewrite ty_and_lits_lits; auto.
    + f_equal. apply filter_ext. intros a. now rewrite has_lits.
    + intros a b -> ->. now apply Q.
Qed.

(* ===================================================================== *)
(** ** The tests for [any] and [never] *)
(* ===================================================================== *)

(** A conditional type that maps every constituent to the same type. *)
Lemma distribute_const (T c : ty) (f : ty -> ty) :
  alts T <> [] -> (forall a, In a (alts T) -> f a = c) ->
  alts c = [c] -> is_any c = false -> is_unknown c = false ->
  is_empty_inter c = false -> (forall m, absorbed m c = false) ->
  distribute T f = c.
Proof.
  intros NE F H1 H2 H3 H4 H5.
  destruct (is_union T) eqn:U.
  - destruct T; try discriminate. unfold distribute.
    rewrite (map_ext_in f (fun _ => c)) by assumption.
    now apply mk_union_const.
  - destruct (is_never T) eqn:V.
    + destruct T; try discriminate. now contradiction NE.
    + rewrite distribute_atom by assumption. apply F.
      rewrite alts_self by assumption. now left.
Qed.

Lemma extends_never_inhabited (T : ty) :
  inhabited T = true -> extends_never T = TBool false.
Proof.
  unfold inhabited. intros H.
  assert (NE : alts T <> []) by (destruct (alts T); [discriminate|congruence]).
  assert (F : forall a, In a (alts T) ->
                        cond0 a TNever (TBool true) (TBool false) = TBool false).
  { destruct (alts T) as [|x r]; [congruence|].
    rewrite forallb_forall in H. intros a Ha. specialize (H a Ha).
    apply andb_prop in H as [A E].
    unfold cond0, cond. cbn [is_any is_unknown orb].
    apply negb_true_iff in A, E. rewrite A.
    unfold extends0 in E. now rewrite E. }
  unfold extends_never. now apply distribute_const.
Qed.

(** X1.  The tests [IsAny] and [IsNever] and the conversion [NeverToNull]:
    [IsAny] holds of [any] and [IsNever] of [never]; [NeverToNull] turns
    [never] into [null]; on [any] and on every type that has a constituent
    and whose constituents are neither [any] nor assignable to [never],
    [IsNever] is false and [NeverToNull] returns the type unchanged, and
    on the latter [IsAny] is false too. *)
Theorem never_and_any_tests (T : ty) :
  IsAny TAny = TBool true /\ IsNever TAny = TBool false /\ NeverToNull TAny = TAny /\
  IsAny TNever = TBool false /\ IsNever TNever = TBool true /\ NeverToNull TNever = TNull /\
  (inhabited T = true ->
   IsAny T = TBool false /\ IsNever T = TBool false /\ NeverToNull T = T).
Proof.
  repeat (split; [reflexivity|]).
  intros H. apply extends_never_inhabited in H.
  unfold NeverToNull, IsAny, IsNever. rewrite H. repeat split.
Qed.

Lemma never_and_any_tests_witness :
  IsNever (TUnion [TString; TNull]) = TBool false
  /\ NeverToNull (TUnion [TString; TNull]) = TUnion [TString; TNull].
Proof.
  destruct (never_and_any_tests (TUnion [TString; TNull]))
    as (_ & _ & _ & _ & _ & _ & H).
  destruct (H eq_refl) as (_ & H1 & H2). split; assumption.
Defined.

(* ===================================================================== *)
(** ** Resolution of names *)
(* ===================================================================== *)

Lemma has_literal (a b : string) : has a (TStr b) = String.eqb a b.
Proof. reflexivity. Qed.

Lemma filter_has_member (M : list string) (r : string) :
  NoDup M -> In r M -> filter (fun N => has N (TStr r)) M = [r].
Proof.
  intros ND Hr.
  rewrite (filter_ext _ (fun N => String.eqb r N))
    by (intros a; rewrite has_literal; apply String.eqb_sym).
  rewrite filter_eqb_NoDup by assumption.
  now rewrite (proj2 (existsb_eqb_In r M) Hr).
Qed.

Lemma filter_has_absent (M : list string) (r : string) :
  ~ In r M -> filter (fun N => has N (TStr r)) M = [].
Proof.
  intros Hr. apply filter_none. intros x Hx. rewrite has_literal.
  apply String.eqb_neq. intros ->. contradiction.
Qed.

(** The node-type names that a name type selects. *)
Lemma resolve_names (D st : ty) :
  ASTDefinition D = true -> name_type st = true -> checked st = true ->
  (forall a b, node_names D = [a] -> st = TStr b -> a = b) ->
  ty_and (ty_and TString (keyof (nodes_of D))) st
  = lits (filter (fun N => has N st) (node_names D)).
Proof.
  intros H N C Q. rewrite ASTDefinition_string_keys by assumption.
  apply ty_and_lits_names; auto using NoDup_node_names.
Qed.

Lemma Node_selected (D : ty) (f : string -> bool) :
  ASTDefinition D = true ->
  Node (lits (filter f (node_names D))) D
  = of_members (map (fun N => Node (TStr N) D) (filter f (node_names D))).
Proof.
  intros H. rewrite Node_lits; auto.
  - f_equal. apply map_ext_in. intros a Ha. apply filter_In in Ha as [Ha _].
    symmetry. now apply Node_known.
  - apply NoDup_filter, NoDup_node_names.
  - intros a Ha. now apply filter_In in Ha.
Qed.

Lemma checked_literal (r : string) : checked (TStr r) = true.
Proof.
  unfold checked. change (mk_union [TStr r]) with (TStr r). apply ty_eqb_refl.
Qed.

Lemma ResolveNodeType_known (D : ty) (r : string) :
  ASTDefinition D = true -> In r (node_names D) -> is_meta_name r = false ->
  ResolveNodeType (TStr r) D = TStr r.
Proof.
  intros H Hr M. rewrite ResolveNodeType_literal.
  rewrite (meta_name_other D (TStr r)) by exact M.
  rewrite resolve_names; [|assumption|reflexivity|apply checked_literal|].
  - rewrite filter_has_member; auto using NoDup_node_names.
  - intros a b E [= <-]. rewrite E in Hr. destruct Hr as [->|[]]. reflexivity.
Qed.

Lemma NodeProperty_reference (D : ty) (r : string) :
  ResolveNodeRef (NodeRef (TStr r)) D = ResolveNode (TStr r) D
  /\ NodeProperty (NodeRef (TStr r)) D = ResolveNode (TStr r) D
  /\ NodeProperty (TArr false (NodeRef (TStr r))) D
     = TArr true (ResolveNode (TStr r) D)
  /\ NodeProperty (TUnion [NodeRef (TStr r); TNull]) D
     = mk_union [ResolveNode (TStr r) D; TNull].
Proof. repeat split. Qed.

(** X2.  A name [r] of a node-type of the definition, not a meta-name,
    resolves to itself and to its own node; so does a reference
    [NodeRef<r>], and a sequence [NodeRef<r>[]] resolves to the read-only
    sequence of that node. *)
Theorem name_resolves_to_its_node (D : ty) (r : string) :
  ASTDefinition D = true -> In r (node_names D) -> is_meta_name r = false ->
  ResolveNodeType (TStr r) D = TStr r /\
  ResolveNode (TStr r) D = Node (TStr r) D /\
  ResolveNodeRef (NodeRef (TStr r)) D = Node (TStr r) D /\
  NodeProperty (NodeRef (TStr r)) D = Node (TStr r) D /\
  NodeProperty (TArr false (NodeRef (TStr r))) D = TArr true (Node (TStr r) D).
Proof.
  intros H Hr M.
  pose proof (ResolveNodeType_known D r H Hr M) as E.
  assert (R : ResolveNode (TStr r) D = Node (TStr r) D)
    by (unfold ResolveNode; now rewrite E).
  destruct (NodeProperty_reference D r) as (E1 & E2 & E3 & _).
  rewrite E1, E2, E3, R. repeat split. exact E.
Qed.

Lemma name_resolves_to_its_node_witness :
  NodeProperty (TArr false (NodeRef (TStr "Identifier"))) ex_base
  = TArr true (Node (TStr "Identifier") ex_base).
Proof.
  apply (name_resolves_to_its_node ex_base "Identifier" eq_refl
                                   In_Identifier_ex_base eq_refl).
Defined.

(** X3.  In a definition that does not have exactly one node-type, a name
    that is neither a node-type nor a meta-name resolves to [never]: a
    reference to it becomes [never], and a sequence of such references a
    read-only sequence of [never], whereas [Node] of such a name is not
    [never]. *)
Theorem missing_name_resolves_to_never (D : ty) (r : string) :
  ASTDefinition D = true -> ~ In r (node_names D) -> is_meta_name r = false ->
  List.length (node_names D) <> 1 ->
  ResolveNodeType (TStr r) D = TNever /\
  ResolveNode (TStr r) D = TNever /\
  NodeProperty (NodeRef (TStr r)) D = TNever /\
  NodeProperty (TArr false (NodeRef (TStr r))) D = TArr true TNever /\
  Node (TStr r) D <> TNever.
Proof.
  intros H Hr M L.
  assert (E : ResolveNodeType (TStr r) D = TNever).
  { rewrite ResolveNodeType_literal.
    rewrite (meta_name_other D (TStr r)) by exact M.
    rewrite resolve_names; [|assumption|reflexivity|apply checked_literal|].
    - now rewrite filter_has_absent.
    - intros a b E _. rewrite E in L. now contradiction L. }
  assert (R : ResolveNode (TStr r) D = TNever)
    by (unfold ResolveNode; now rewrite E).
  destruct (NodeProperty_reference D r) as (_ & E2 & E3 & _).
  rewrite E2, E3, R. repeat split; auto.
  rewrite Node_unknown, unknown_type_literal by assumption.
  destruct (String.eqb "UNKNOWN TYPE:" r); discriminate.
Qed.

Lemma missing_name_resolves_to_never_witness :
  NodeProperty (TArr false (NodeRef (TStr "Bogus"))) ex_base = TArr true TNever.
Proof.
  apply (missing_name_resolves_to_never ex_base "Bogus" eq_refl).
  - intros [H|[H|[]]]; discriminate H.
  - reflexivity.
  - vm_compute. discriminate.
Defined.

Lemma meta_name_Statement (D : ty) :
  meta_name D (TStr "Statement") = index D (TStr "statementType").
Proof. reflexivity. Qed.

Lemma meta_name_Expression (D : ty) :
  meta_name D (TStr "Expression") = index D (TStr "expressionType").
Proof. reflexivity. Qed.

Lemma ResolveNode_names (D st : ty) :
  ASTDefinition D = true -> name_type st = true -> checked st = true ->
  List.length (node_names D) <> 1 ->
  Node (ty_and (ty_and TString (keyof (nodes_of D))) st) D
  = of_members (map (fun N => Node (TStr N) D)
                    (filter (fun N => has N st) (node_names D))).
Proof.
  intros H N C L. rewrite resolve_names; auto.
  - now apply Node_selected.
  - intros a b E _. rewrite E in L. now contradiction L.
Qed.

Lemma lists_index (D : ty) (k N : string) :
  ASTDefinition D = true -> (k = "statementType" \/ k = "expressionType") ->
  lists D k N = has N (index D (TStr k)).
Proof.
  intros H Hk. unfold lists, field, ASTDefinition in *.
  destruct D; try discriminate.
  destruct (lookup "nodes" props) as [[]|]; try discriminate.
  destruct (lookup "statementType" props) as [st|] eqn:S; try discriminate.
  destruct (lookup "expressionType" props) as [ex|] eqn:X; try discriminate.
  destruct Hk as [-> | ->].
  - rewrite S. now rewrite (index_obj _ _ st S).
  - rewrite X. now rewrite (index_obj _ _ ex X).
Qed.

(** X4.  In a definition that does not have exactly one node-type, the
    meta-name ["Statement"] resolves to the union of the nodes of exactly
    the node-types that [statementType] names, and ["Expression"] to the
    union of the nodes of the node-types that [expressionType] names; a
    name listed there that is not a node-type contributes nothing. *)
Theorem meta_names_select_listed_nodes (D : ty) :
  ASTDefinition D = true -> List.length (node_names D) <> 1 ->
  ResolveNode (TStr "Statement") D
  = of_members (map (fun N => Node (TStr N) D)
                    (filter (fun N => lists D "statementType" N) (node_names D)))
  /\
  ResolveNode (TStr "Expression") D
  = of_members (map (fun N => Node (TStr N) D)
                    (filter (fun N => lists D "expressionType" N) (node_names D))).
Proof.
  intros H L.
  destruct (ASTDefinition_types D H) as (N1 & C1 & N2 & C2).
  split; unfold ResolveNode; rewrite ResolveNodeType_literal.
  - rewrite meta_name_Statement, ResolveNode_names by assumption.
    do 2 f_equal. apply filter_ext. intros a. symmetry.
    apply lists_index; auto.
  - rewrite meta_name_Expression, ResolveNode_names by assumption.
    do 2 f_equal. apply filter_ext. intros a. symmetry.
    apply lists_index; auto.
Qed.

Lemma meta_names_select_listed_nodes_witness :
  ResolveNode (TStr "Statement") ex_base = Node (TStr "Identifier") ex_base.
Proof.
  refine (proj1 (meta_names_select_listed_nodes ex_base eq_refl _)).
  vm_compute. discriminate.
Defined.

(** X5.  The type [any] resolves to every node-type name of the definition,
    and to the union of all its nodes. *)
Theorem any_resolves_to_all_nodes (D : ty) :
  ASTDefinition D = true ->
  ResolveNodeType TAny D = lits (node_names D) /\
  ResolveNode TAny D
  = of_members (map (fun N => Node (TStr N) D) (node_names D)).
Proof.
  intros H.
  assert (E : ResolveNodeType TAny D = lits (node_names D)).
  { rewrite ResolveNodeType_any, ASTDefinition_string_keys, ASTDefinition_keys
      by assumption.
    apply ty_and_lits_self, NoDup_node_names. }
  split; [exact E|]. unfold ResolveNode. rewrite E.
  rewrite <- (filter_all (fun _ => true) (node_names D)) by reflexivity.
  now apply Node_selected.
Qed.

Lemma any_resolves_to_all_nodes_witness :
  ResolveNode TAny ex_base
  = TUnion [Node (TStr "Identifier") ex_base; Node (TStr "Program") ex_base].
Proof. apply (any_resolves_to_all_nodes ex_base eq_refl). Defined.

(** X6.  The members of a resolved node that the definition declares as
    references: a property declared [NodeRef<r>] has the type that [r]
    resolves to, a property declared [NodeRef<r>[]] the read-only sequence
    of it, and a property declared [NodeRef<r> | null] the union of it with
    [null]. *)
Theorem reference_members_are_resolved (D : ty) (N p r : string) :
  ASTDefinition D = true -> In N (node_names D) -> is_common_key p = false ->
  (node_prop D N p = Some (NodeRef (TStr r)) ->
   property (Node (TStr N) D) p = Some (ResolveNode (TStr r) D)) /\
  (node_prop D N p = Some (TArr false (NodeRef (TStr r))) ->
   property (Node (TStr N) D) p = Some (TArr true (ResolveNode (TStr r) D))) /\
  (node_prop D N p = Some (TUnion [NodeRef (TStr r); TNull]) ->
   property (Node (TStr N) D) p = Some (mk_union [ResolveNode (TStr r) D; TNull])).
Proof.
  intros H HN C.
  rewrite Node_known, property_known_node, C, NodeBody_member_spec, C
    by assumption.
  destruct (NodeProperty_reference D r) as (_ & E2 & E3 & E4).
  repeat split; intros ->; now rewrite ?E2, ?E3, ?E4.
Qed.

Lemma reference_members_are_resolved_witness :
  property (Node (TStr "Program") ex_base) "body"
  = Some (TArr true (ResolveNode (TStr "Statement") ex_base)).
Proof.
  apply (reference_members_are_resolved ex_base "Program" "body" "Statement"
                                        eq_refl In_Program_ex_base eq_refl).
  reflexivity.
Defined.

(* ===================================================================== *)
(** ** [ExtractNode] *)
(* ===================================================================== *)

Lemma has_meta_names (T : string) :
  has T (TUnion [TStr "Node"; TStr "Statement"; TStr "Expression"]) = is_meta_name T.
Proof.
  rewrite has_union. cbn [existsb]. rewrite !has_literal.
  unfold is_meta_name. now rewrite orb_false_r, orb_assoc.
Qed.

Lemma ExtractNode_literal (D F : ty) (T : string) :
  ExtractNode D (TStr T) F
  = Extract node_members
      (if is_meta_name T then ResolveNode (TStr T) D
       else Extract node_members (ResolveNode (TStr "Node") D)
                    (TObj [("type", TStr T)]))
      F.
Proof.
  unfold ExtractNode. f_equal.
  change (distribute (TStr T) ?f) with (f (TStr T)). cbv beta.
  now rewrite cond0_literal, has_meta_names.
Qed.

Lemma inter_of_with_literal (l : list ty) (s : string) :
  In (TStr s) l -> is_union (inter_of l) = false.
Proof.
  intros H. unfold inter_of.
  set (l1 := dedupe l).
  set (l2 := filter (fun t => negb (redundant l1 t)) l1).
  set (l3 := if existsb is_nonempty_object l2
             then filter (fun t => negb (is_empty_object t)) l2 else l2).
  assert (H3 : In (TStr s) l3).
  { assert (H2 : In (TStr s) l2).
    { apply filter_In. split; [now apply In_dedupe|reflexivity]. }
    unfold l3. destruct (existsb is_nonempty_object l2); auto.
    apply filter_In. now split. }
  destruct l3 as [|t [|t' r]]; try reflexivity.
  destruct H3 as [->|[]]. reflexivity.
Qed.

Lemma unknown_type_not_union (X : ty) :
  is_union X = false -> is_never X = false -> is_union (unknown_type X) = false.
Proof.
  intros U N. unfold unknown_type.
  change (ty_and empty_object (TStr "UNKNOWN TYPE:"))
    with (TInter [empty_object; TStr "UNKNOWN TYPE:"]).
  unfold ty_and. rewrite U, N. cbn [is_never is_union orb].
  destruct X; try reflexivity;
    apply (inter_of_with_literal _ "UNKNOWN TYPE:"); simpl; auto.
Qed.

(** A resolved type that is a union is in checked form. *)
Lemma Node_union_checked (X D : ty) :
  is_union (Node X D) = true -> checked (Node X D) = true.
Proof.
  unfold Node.
  destruct (is_union X) eqn:U.
  { destruct X; try discriminate. intros _. apply checked_mk_union. }
  destruct (is_never X) eqn:V.
  { destruct X; try discriminate. }
  rewrite distribute_atom by assumption.
  unfold cond0, cond.
  destruct (is_any (keyof (nodes_of D)) || is_unknown (keyof (nodes_of D))).
  { rewrite known_node_eq. discriminate. }
  destruct (is_any X).
  { intros _. apply checked_mk_union. }
  destruct (extends no_members X (keyof (nodes_of D))).
  - rewrite known_node_eq. discriminate.
  - now rewrite unknown_type_not_union.
Qed.

(** X7.  With the default filter [any], [ExtractNode] at a meta-name is the
    resolution of that meta-name: at ["Node"], the default type of the
    aliases [Node] and [AST], it is the union of all nodes of the
    definition. *)
Theorem ExtractNode_of_meta_name (D : ty) (T : string) :
  is_meta_name T = true ->
  ExtractNode D (TStr T) TAny = ResolveNode (TStr T) D /\
  (ASTDefinition D = true ->
   ExtractNode D (TStr "Node") TAny
   = of_members (map (fun N => Node (TStr N) D) (node_names D))).
Proof.
  intros M.
  assert (G : forall T, is_meta_name T = true ->
                        ExtractNode D (TStr T) TAny = ResolveNode (TStr T) D).
  { intros T' M'. rewrite ExtractNode_literal, M'.
    apply Extract_any. apply Node_union_checked. }
  split; [now apply G|].
  intros H. rewrite (G "Node" eq_refl), ResolveNode_Node by assumption.
  f_equal. apply map_ext_in. intros a Ha. symmetry. now apply Node_known.
Qed.

Lemma ExtractNode_of_meta_name_witness :
  ExtractNode ex_base (TStr "Expression") TAny = ResolveNode (TStr "Expression") ex_base.
Proof. apply (ExtractNode_of_meta_name ex_base "Expression" eq_refl). Defined.

(** Distribution of a conditional type over a union of nodes, when each
    node is either kept or dropped. *)
Lemma distribute_nodes (D : ty) (f : ty -> ty) (g : string -> bool) (M : list string) :
  NoDup M ->
  (forall x, In x M ->
             f (known_node D (TStr x)) = if g x then known_node D (TStr x) else TNever) ->
  distribute (of_members (map (fun P => known_node D (TStr P)) M)) f
  = of_members (map (fun P => known_node D (TStr P)) (filter g M)).
Proof.
  intros ND Hf.
  destruct M as [|x [|y r]].
  - reflexivity.
  - cbn [map of_members filter]. rewrite distribute_atom by reflexivity.
    rewrite Hf by (now left). now destruct (g x).
  - remember (x :: y :: r) as M eqn:EM.
    replace (of_members (map (fun P => known_node D (TStr P)) M))
      with (TUnion (map (fun P => known_node D (TStr P)) M)) by (now subst M).
    unfold distribute.
    change (alts (TUnion (map (fun P => known_node D (TStr P)) M)))
      with (flat_map alts (map (fun P => known_node D (TStr P)) M)).
    rewrite (flat_map_alts_tagged (fun P => known_node D (TStr P)))
      by reflexivity.
    rewrite (mk_union_nodes D _ (filter g M)).
    + rewrite sdedupe_NoDup; [reflexivity|]. now apply NoDup_filter.
    + clear EM ND. induction M as [|a M IH]; [reflexivity|].
      cbn [map flat_map filter]. rewrite Hf by (now left).
      rewrite IH by (intros z Hz; apply Hf; now right).
      now destruct (g a).
Qed.

(** A node whose body takes its [type] member from the node-type name is
    assignable to [{ type: N }] for its own name [N]. *)
Lemma known_node_has_type (D : ty) (N : string) :
  ASTDefinition D = true -> In N (node_names D) ->
  node_prop D N "type" = None ->
  extends node_members (known_node D (TStr N)) (TObj [("type", TStr N)]) = true.
Proof.
  intros H HN HT.
  pose proof (NodeBody_member_spec D N "type" H HN) as B.
  rewrite HT in B. cbn in B.
  rewrite known_node_eq. unfold extends, NodeFallback.
  cbn [extends_to existsb forallb declared declared1 node_members flat_map
       is_empty_object negb andb orb app NodeCommon_member String.eqb
       Ascii.eqb Bool.eqb].
  rewrite B. cbn. now rewrite String.eqb_refl.
Qed.

(** The nodes whose [type] member is [T]. *)
Lemma Extract_type (D : ty) (T : string) :
  ASTDefinition D = true ->
  (forall P, In P (node_names D) -> node_prop D P "type" = None) ->
  Extract node_members (ResolveNode (TStr "Node") D) (TObj [("type", TStr T)])
  = if existsb (String.eqb T) (node_names D) then known_node D (TStr T) else TNever.
Proof.
  intros H NT. rewrite ResolveNode_Node by assumption.
  unfold Extract.
  rewrite (distribute_nodes D _ (String.eqb T)); auto using NoDup_node_names.
  - rewrite filter_eqb_NoDup by apply NoDup_node_names.
    now destruct (existsb (String.eqb T) (node_names D)).
  - intros x Hx. unfold cond. rewrite known_node_eq. cbn [is_any is_unknown orb].
    rewrite <- known_node_eq.
    destruct (String.eqb_spec T x) as [<-|NE].
    + now rewrite known_node_has_type by auto.
    + rewrite known_node_not_type; auto.
Qed.

Lemma ExtractNode_known (D : ty) (N : string) :
  ASTDefinition D = true -> In N (node_names D) -> is_meta_name N = false ->
  (forall P, In P (node_names D) -> node_prop D P "type" = None) ->
  ExtractNode D (TStr N) TAny = Node (TStr N) D.
Proof.
  intros H HN M NT.
  rewrite ExtractNode_literal, M, Extract_type by assumption.
  rewrite (proj2 (existsb_eqb_In N (node_names D)) HN).
  rewrite Node_known by assumption.
  apply Extract_any. rewrite known_node_eq. discriminate.
Qed.

(** X8.  In a definition no node-shape of which declares [type] itself,
    [ExtractNode] with the default filter [any] at the name of a
    node-type, not a meta-name, is the node of that node-type: it has the
    three common members, the name as its [type], and [undefined] for
    every undeclared key. *)
Theorem ExtractNode_of_node_type (D : ty) (N : string) :
  ASTDefinition D = true -> In N (node_names D) -> is_meta_name N = false ->
  (forall P, In P (node_names D) -> node_prop D P "type" = None) ->
  ExtractNode D (TStr N) TAny = Node (TStr N) D /\
  property (ExtractNode D (TStr N) TAny) "type" = Some (TStr N) /\
  property (ExtractNode D (TStr N) TAny) "range" = Some Range /\
  property (ExtractNode D (TStr N) TAny) "loc" = Some Location /\
  property (ExtractNode D (TStr N) TAny) "parent" = Some (ParentNode (TStr N) D) /\
  (forall k, is_common_key k = false -> k <> "type" -> node_prop D N k = None ->

             property (ExtractNode D (TStr N) TAny) k = Some TUndefined).
Proof.
  intros H HN M NT.
  rewrite ExtractNode_known, Node_known by assumption.
  split; [reflexivity|].
  split; [|split; [|split; [|split]]];
    try (rewrite property_known_node by assumption; reflexivity).
  - rewrite property_known_node, NodeBody_member_spec by assumption.
    cbn [is_common_key String.eqb Ascii.eqb Bool.eqb orb].
    now rewrite (NT N HN).
  - intros k C NE U.
    rewrite property_known_node, NodeBody_member_spec, C, U by assumption.
    apply String.eqb_neq in NE. now rewrite NE.
Qed.

Lemma ex_base_no_type (P : string) :
  In P (node_names ex_base) -> node_prop ex_base P "type" = None.
Proof. intros [<-|[<-|[]]]; reflexivity. Defined.

Lemma ExtractNode_of_node_type_witness :
  ExtractNode ex_base (TStr "Program") TAny = Node (TStr "Program") ex_base.
Proof.
  apply (proj1 (ExtractNode_of_node_type ex_base "Program" eq_refl
                                         In_Program_ex_base eq_refl ex_base_no_type)).
Defined.

(** A node is assignable to a filter with one property, not a member of
    [NodeCommon], when its body declares the property with an assignable
    type. *)
Lemma known_node_extends_filter (D : ty) (N k : string) (fv : ty) :
  is_common_key k = false ->
  extends node_members (known_node D (TStr N)) (TObj [(k, fv)])
  = match NodeBody_member D (TStr N) k with
    | Some v => extends node_members v fv
    | None => false
    end.
Proof.
  intros C. rewrite known_node_eq. unfold extends, NodeFallback.
  cbn [extends_to existsb forallb declared declared1 node_members flat_map
       is_empty_object negb andb orb app].
  rewrite (NodeCommon_member_spec D (TStr N) k C).
  destruct (NodeBody_member D (TStr N) k) as [v|]; cbn [app fold_left];
    [|reflexivity].
  now destruct (extends_to node_members fv v).
Qed.

(** X9.  [ExtractNode] with a filter of one property [k], not a member of
    [NodeCommon], at the name [N] of a node-type, in a definition no
    node-shape of which declares [type] itself: when the node-shape
    declares [k], the node is selected if the resolved type of [k] is
    assignable to the type the filter asks for, and the result is [never]
    otherwise; when the node-shape does not declare [k] (and [k] is not
    [type]), the result is [never] whatever the filter asks for. *)
Theorem ExtractNode_filters_by_member (D : ty) (N k : string) (fv : ty) :
  ASTDefinition D = true -> In N (node_names D) -> is_meta_name N = false ->
  (forall P, In P (node_names D) -> node_prop D P "type" = None) ->
  is_common_key k = false -> is_any fv = false -> is_unknown fv = false ->
  (forall v, node_prop D N k = Some v ->
             ExtractNode D (TStr N) (TObj [(k, fv)])
             = if extends node_members (NodeProperty v D) fv
               then Node (TStr N) D else TNever) /\
  (node_prop D N k = None -> k <> "type" ->
   ExtractNode D (TStr N) (TObj [(k, fv)]) = TNever).
Proof.
  intros H HN M NT C A U.
  assert (E : ExtractNode D (TStr N) (TObj [(k, fv)])
              = match NodeBody_member D (TStr N) k with
                | Some v => if extends node_members v fv
                            then known_node D (TStr N) else TNever
                | None => TNever
                end).
  { rewrite ExtractNode_literal, M, Extract_type by assumption.
    rewrite (proj2 (existsb_eqb_In N (node_names D)) HN).
    unfold Extract. rewrite known_node_eq, distribute_atom by reflexivity.
    rewrite <- known_node_eq. unfold cond. cbn [is_any is_unknown orb].
    rewrite known_node_eq at 1. cbn [is_any].
    rewrite known_node_extends_filter by assumption.
    now destruct (NodeBody_member D (TStr N) k). }
  rewrite E, NodeBody_member_spec, C, Node_known by assumption.
  split.
  - now intros v ->.
  - intros -> NE. apply String.eqb_neq in NE. now rewrite NE.
Qed.

Lemma ExtractNode_filters_by_member_witness :
  ExtractNode ex_base (TStr "Identifier") (TObj [("name", TString)])
  = Node (TStr "Identifier") ex_base
  /\ ExtractNode ex_base (TStr "Identifier") (TObj [("name", TNumber)]) = TNever
  /\ ExtractNode ex_base (TStr "Identifier") (TObj [("computed", TUndefined)]) = TNever.
Proof.
  split; [|split].
  - apply (proj1 (ExtractNode_filters_by_member ex_base "Identifier" "name" TString
                    eq_refl In_Identifier_ex_base eq_refl ex_base_no_type
                    eq_refl eq_refl eq_refl) TString).
    reflexivity.
  - apply (proj1 (ExtractNode_filters_by_member ex_base "Identifier" "name" TNumber
                    eq_refl In_Identifier_ex_base eq_refl ex_base_no_type
                    eq_refl eq_refl eq_refl) TString).
    reflexivity.
  - apply (proj2 (ExtractNode_filters_by_member ex_base "Identifier" "computed"
                    TUndefined
                    eq_refl In_Identifier_ex_base eq_refl ex_base_no_type
                    eq_refl eq_refl eq_refl)).
    + reflexivity.
    + discriminate.
Defined.

(* ===================================================================== *)
(** ** The computed parent *)
(* ===================================================================== *)

Lemma IsAny_cases (T : ty) : IsAny T = TBool true \/ IsAny T = TBool false.
Proof.
  unfold IsAny, cond0, cond.
  destruct (is_any (extends_never T) || is_unknown (extends_never T)); auto.
  cbn [is_any boolean].
  destruct (extends no_members _ (extends_never T)); auto.
Qed.

Lemma mk_union_any_or_not (l : list ty) :
  mk_union l = TAny \/ no_any (mk_union l) = true.
Proof.
  destruct (mk_union_shape l) as [E|[E|[m (E & ND & H)]]]; auto; right; rewrite E.
  - reflexivity.
  - unfold no_any. rewrite alts_of_members by (intros a Ha; apply (H a Ha)).
    apply forallb_forall. intros a Ha.
    destruct (H a Ha) as (_ & A & _). now rewrite A.
Qed.

(** The names that [ResolveNodeType] yields are node-type names. *)
Lemma ResolveNodeType_names_nodes (D : ty) (l : list ty) (B : string) :
  ASTDefinition D = true ->
  has B (ResolveNodeType (mk_union l) D) = true -> In B (node_names D).
Proof.
  intros H. unfold ResolveNodeType.
  rewrite ASTDefinition_string_keys, ASTDefinition_keys by assumption.
  destruct (IsAny_cases (mk_union l)) as [E|E]; rewrite E.
  - change (cond0 (TBool true) (TBool true) ?y ?n) with y.
    rewrite ty_and_lits_self by apply NoDup_node_names.
    rewrite has_lits. apply existsb_eqb_In.
  - change (cond0 (TBool false) (TBool true) ?y ?n) with n.
    destruct (mk_union_any_or_not l) as [A|A].
    + rewrite A in E. change (IsAny TAny) with (TBool true) in E. discriminate E.
    + rewrite has_ty_and by (auto using no_any_lits, no_any_distribute_meta).
      intros [K _]%andb_prop. rewrite has_lits in K. now apply existsb_eqb_In.
Qed.

Lemma parents_of_missing (D : ty) (B : string) :
  ASTDefinition D = true -> ~ In B (node_names D) -> parents D B = [].
Proof.
  intros H HB. unfold parents. apply filter_none. intros P HP.
  destruct (has B (ChildNodeType (index (nodes_of D) (TStr P)) D)) eqn:E; auto.
  unfold ChildNodeType in E. apply ResolveNodeType_names_nodes in E; auto.
  contradiction.
Qed.

(** X10.  The parent computed for a name [B] is [null] when no node-type
    of the definition refers to [B], and otherwise the union of the nodes
    of the node-types that refer to it, all of them node-types of the
    definition; it is never [never], and it is [null] for a name that is
    not a node-type of the definition. *)
Theorem parent_is_null_or_referrers (D : ty) (B : string) :
  ASTDefinition D = true ->
  (parents D B = [] -> ParentNode (TStr B) D = TNull) /\
  (parents D B <> [] ->
   ParentNode (TStr B) D
   = of_members (map (fun P => Node (TStr P) D) (parents D B))) /\
  incl (parents D B) (node_names D) /\
  ParentNode (TStr B) D <> TNever /\
  (~ In B (node_names D) -> ParentNode (TStr B) D = TNull).
Proof.
  intros H.
  assert (I : incl (parents D B) (node_names D)).
  { intros P HP. unfold parents in HP. now apply filter_In in HP. }
  pose proof (ParentNode_spec D B H) as S.
  split; [|split; [|split; [|split]]].
  - intros E. now rewrite E in S.
  - intros NE. rewrite S.
    destruct (parents D B) as [|x l] eqn:E; [congruence|].
    f_equal. apply map_ext_in. intros a Ha. symmetry. apply Node_known; auto.
  - exact I.
  - rewrite S. destruct (parents D B) as [|x [|y l]].
    + discriminate.
    + cbn [map of_members]. rewrite known_node_eq. discriminate.
    + discriminate.
  - intros HB. rewrite S. now rewrite parents_of_missing.
Qed.

Lemma parent_is_null_or_referrers_witness :
  ParentNode (TStr "Identifier") ex_base = Node (TStr "Program") ex_base
  /\ ParentNode (TStr "Bogus") ex_base = TNull.
Proof.
  destruct (parent_is_null_or_referrers ex_base "Identifier" eq_refl)
    as (_ & H & _).
  destruct (parent_is_null_or_referrers ex_base "Bogus" eq_refl)
    as (_ & _ & _ & _ & G).
  split.
  - apply H. vm_compute. discriminate.
  - apply G. intros [E|[E|[]]]; discriminate E.
Defined.

(* ===================================================================== *)
(** ** The definition built by [Extends] *)
(* ===================================================================== *)

(** A slot of the batch of four: an enhancement, or [never] past the end of
    the list. *)
Lemma ASTEnhancement_slot (E : ty) : ASTEnhancement E = true -> slot_ok E = true.
Proof.
  unfold ASTEnhancement, slot_ok. intros H.
  apply andb_prop in H as [H _]. apply andb_prop in H as [H _]. now rewrite H.
Qed.

Lemma ASTDefinition_enhancement (D : ty) :
  ASTDefinition D = true -> ASTEnhancement D = true.
Proof.
  unfold ASTDefinition, ASTEnhancement, nodes_ok, names_ok, field.
  destruct D; try discriminate.
  destruct (lookup "nodes" props) as [[]|]; try discriminate.
  destruct (lookup "statementType" props) as [st|]; try discriminate.
  destruct (lookup "expressionType" props) as [ex|]; try discriminate.
  intros H. repeat (apply andb_prop in H as [H ?]).
  now repeat (apply andb_true_intro; split).
Qed.

Lemma At_slots (es : list ty) (P : ty -> Prop) :
  P TNever -> (forall E, In E es -> P E) ->
  P (At0 es) /\ P (At1 es) /\ P (At2 es) /\ P (At3 es).
Proof.
  intros HN H.
  destruct es as [|a [|b [|c [|d r]]]]; cbn [At0 At1 At2 At3];
    repeat split; auto; apply H; simpl; auto.
Qed.

Lemma Shift4_incl (es : list ty) : incl (Shift4 es) es.
Proof.
  destruct es as [|a [|b [|c [|d r]]]]; cbn [Shift4];
    try (intros x []). intros x Hx. simpl. auto.
Qed.

Lemma existsb_batches (f : ty -> bool) (es : list ty) :
  f TNever = false ->
  f (At0 es) || f (At1 es) || f (At2 es) || f (At3 es) || existsb f (Shift4 es)
  = existsb f es.
Proof.
  intros H.
  destruct es as [|a [|b [|c [|d r]]]]; cbn [At0 At1 At2 At3 Shift4 existsb];
    rewrite ?H, ?orb_false_r, ?orb_assoc; reflexivity.
Qed.

Lemma ExtendsRec_nil (D : ty) : ExtendsRec D [] = D.
Proof. now simp ExtendsRec. Qed.

(** Induction on the batches of four that [ExtendsRec] takes. *)
Lemma ExtendsRec_induction (Q : ty -> list ty -> Prop) :
  (forall D, Q D []) ->
  (forall D es, es <> [] -> Q (merged D es) (Shift4 es) -> Q D es) ->
  forall D es, Q D es.
Proof.
  intros H0 HS D es.
  remember (List.length es) as n eqn:En. revert D es En.
  induction n as [n IH] using lt_wf_ind. intros D es En.
  destruct es as [|e r]; [apply H0|].
  apply HS; [discriminate|].
  apply (IH (List.length (Shift4 (e :: r)))); [|reflexivity].
  subst n. destruct r as [|a [|b [|c r]]]; simpl; lia.
Qed.

(** *** The members [statementType] and [expressionType] *)

Lemma cond0_name (a : ty) :
  match a with TStr _ | TString => True | _ => False end ->
  cond0 a TString a TNever = a.
Proof. destruct a; try contradiction; reflexivity. Qed.

Lemma Prop_names (E : ty) (k : string) :
  ASTEnhancement E = true \/ E = TNever ->
  (k = "statementType" \/ k = "expressionType") ->
  name_type (Prop_ E k TString TNever) = true
  /\ forall B, has B (Prop_ E k TString TNever) = lists E k B.
Proof.
  intros [H| ->] Hk; [|split; reflexivity].
  assert (N : names_ok E k = true).
  { unfold ASTEnhancement in H.
    apply andb_prop in H as [H N2]. apply andb_prop in H as [_ N1].
    now destruct Hk as [-> | ->]. }
  unfold names_ok in N. unfold lists, Prop_, infer_prop.
  destruct E; try discriminate H. cbn [field] in *.
  destruct (lookup k props) as [s|]; [|split; reflexivity].
  assert (F : forall a, In a (alts s) -> cond0 a TString a TNever = a).
  { intros a Ha. apply cond0_name. now apply (name_type_atoms s). }
  split.
  - unfold name_type. apply forallb_forall. intros a Ha.
    apply alts_distribute in Ha as [m [Hm Ha]].
    rewrite F in Ha by assumption.
    destruct (alts_atom _ _ Hm) as (_ & _ & Am). rewrite Am in Ha.
    destruct Ha as [<-|[]].
    pose proof (name_type_atoms s m N Hm). now destruct m.
  - intros B. rewrite has_distribute.
    rewrite (existsb_ext_in _ (has B)) by (intros a Ha; now rewrite F).
    symmetry. apply has_alts.
Qed.

Lemma field_merged (D : ty) (es : list ty) (k : string) :
  (k = "statementType" \/ k = "expressionType") ->
  field (merged D es) k
  = Some (mk_union [ Prop_ D k TString TNever;
                     Prop_ (At0 es) k TString TNever;
                     Prop_ (At1 es) k TString TNever;
                     Prop_ (At2 es) k TString TNever;
                     Prop_ (At3 es) k TString TNever ]).
Proof. intros [-> | ->]; reflexivity. Qed.

Lemma name_type_mk_union (l : list ty) :
  (forall t, In t l -> name_type t = true) -> name_type (mk_union l) = true.
Proof.
  intros H. unfold name_type. apply forallb_forall. intros a Ha.
  apply alts_mk_union in Ha. apply in_flat_map in Ha as [t [Ht Ha]].
  pose proof (name_type_atoms t a (H t Ht) Ha). now destruct a.
Qed.

(** The names that the merged definition lists are those that the base and
    the enhancements of the batch list. *)
Lemma lists_merged (D : ty) (es : list ty) (k B : string) :
  ASTEnhancement D = true -> forallb ASTEnhancement es = true ->
  (k = "statementType" \/ k = "expressionType") ->
  lists (merged D es) k B
  = lists D k B || lists (At0 es) k B || lists (At1 es) k B
    || lists (At2 es) k B || lists (At3 es) k B.
Proof.
  intros HD He Hk. rewrite forallb_forall in He.
  destruct (At_slots es (fun E => ASTEnhancement E = true \/ E = TNever))
    as (H0 & H1 & H2 & H3); auto.
  unfold lists at 1. rewrite field_merged by assumption.
  rewrite has_mk_union. cbn [existsb].
  rewrite (proj2 (Prop_names D k (or_introl HD) Hk)).
  rewrite (proj2 (Prop_names _ k H0 Hk)), (proj2 (Prop_names _ k H1 Hk)).
  rewrite (proj2 (Prop_names _ k H2 Hk)), (proj2 (Prop_names _ k H3 Hk)).
  now rewrite orb_false_r, !orb_assoc.
Qed.

(** *** The member [nodes] *)

Lemma nodes_list_merged (D : ty) (es : list ty) :
  slot_ok D = true -> slot_ok (At0 es) = true -> slot_ok (At1 es) = true ->
  slot_ok (At2 es) = true -> slot_ok (At3 es) = true ->
  nodes_list (merged D es)
  = map (fun P =>
           (P, MergeNodeProperties
                 (TObj (shape_list D P)) (TObj (shape_list (At0 es) P))
                 (TObj (shape_list (At1 es) P)) (TObj (shape_list (At2 es) P))
                 (TObj (shape_list (At3 es) P))))
        (merge_keys (nodes_list D) (nodes_list (At0 es)) (nodes_list (At1 es))
                    (nodes_list (At2 es)) (nodes_list (At3 es))).
Proof.
  intros HD H0 H1 H2 H3.
  unfold nodes_list at 1. unfold merged.
  cbn [field lookup String.eqb Ascii.eqb Bool.eqb].
  rewrite !Prop_nodes by assumption.
  unfold MergeNodes. rewrite names_of_five_keyof.
  apply map_ext. intros P. now rewrite !Prop_shape by assumption.
Qed.

Lemma node_names_merge_keys (D : ty) (es : list ty) :
  slot_ok D = true -> slot_ok (At0 es) = true -> slot_ok (At1 es) = true ->
  slot_ok (At2 es) = true -> slot_ok (At3 es) = true ->
  node_names (merged D es)
  = merge_keys (nodes_list D) (nodes_list (At0 es)) (nodes_list (At1 es))
               (nodes_list (At2 es)) (nodes_list (At3 es)).
Proof.
  intros HD H0 H1 H2 H3. unfold node_names at 1.
  rewrite nodes_list_merged by assumption.
  rewrite map_map. cbn [fst]. rewrite map_id.
  unfold merge_keys. apply sdedupe_idem.
Qed.

Lemma In_merge_keys_iff (k : string) (a b c d e : list (string * ty)) :
  In k (merge_keys a b c d e)
  <-> In k (map fst a) \/ In k (map fst b) \/ In k (map fst c)
      \/ In k (map fst d) \/ In k (map fst e).
Proof.
  unfold merge_keys. rewrite In_sdedupe, !in_app_iff, !In_sdedupe. tauto.
Qed.

Lemma In_node_names (E : ty) (N : string) :
  In N (node_names E) <-> In N (map fst (nodes_list E)).
Proof. unfold node_names. apply In_sdedupe. Qed.

Lemma slots_of_enhancements (D : ty) (es : list ty) :
  ASTEnhancement D = true -> forallb ASTEnhancement es = true ->
  slot_ok D = true /\ slot_ok (At0 es) = true /\ slot_ok (At1 es) = true
  /\ slot_ok (At2 es) = true /\ slot_ok (At3 es) = true.
Proof.
  intros HD He. rewrite forallb_forall in He.
  split; [now apply ASTEnhancement_slot|].
  apply (At_slots es (fun E => slot_ok E = true)); [reflexivity|].
  intros E HE. auto using ASTEnhancement_slot.
Qed.

(** One step of [ExtendsRec] builds a definition, whatever its base is. *)
Lemma ASTDefinition_merged (D : ty) (es : list ty) :
  ASTEnhancement D = true -> forallb ASTEnhancement es = true ->
  ASTDefinition (merged D es) = true.
Proof.
  intros HD He.
  destruct (slots_of_enhancements D es HD He) as (S & S0 & S1 & S2 & S3).
  pose proof (nodes_list_merged D es S S0 S1 S2 S3) as NL.
  unfold nodes_list in NL at 1.
  assert (FS : field (merged D es) "statementType" = _)
    by (apply field_merged; now left).
  assert (FE : field (merged D es) "expressionType" = _)
    by (apply field_merged; now right).
  assert (NT : forall k, k = "statementType" \/ k = "expressionType" ->
                         name_type (mk_union [ Prop_ D k TString TNever;
                                               Prop_ (At0 es) k TString TNever;
                                               Prop_ (At1 es) k TString TNever;
                                               Prop_ (At2 es) k TString TNever;
                                               Prop_ (At3 es) k TString TNever ])
                         = true).
  { intros k Hk. rewrite forallb_forall in He.
    destruct (At_slots es (fun E => ASTEnhancement E = true \/ E = TNever))
      as (H0 & H1 & H2 & H3); auto.
    apply name_type_mk_union.
    intros t [<-|[<-|[<-|[<-|[<-|[]]]]]]; apply Prop_names; auto. }
  unfold merged in *. cbn [field] in *.
  unfold ASTDefinition. rewrite FS, FE.
  destruct (lookup "nodes" _) as [[]|] eqn:L; try discriminate L.
  rewrite NL, !checked_mk_union, !NT by auto.
  rewrite !andb_true_r. apply forallb_forall.
  intros x [P [<- _]]%in_map_iff. reflexivity.
Qed.

Lemma ASTEnhancement_Shift4 (es : list ty) :
  forallb ASTEnhancement es = true -> forallb ASTEnhancement (Shift4 es) = true.
Proof.
  rewrite !forallb_forall. intros H x Hx. now apply H, Shift4_incl.
Qed.

(** X11.  [Extends] keeps the form of a definition: the result of extending
    a definition by any list of enhancements is again a definition, with an
    object type of node-shapes as [nodes] and with [statementType] and
    [expressionType] naming node types. *)
Theorem Extends_builds_a_definition (D : ty) (es : list ty) :
  ASTDefinition D = true -> forallb ASTEnhancement es = true ->
  ASTDefinition (Extends D (Many es)) = true /\
  (forall E, ASTEnhancement E = true -> ASTDefinition (Extends D (One E)) = true).
Proof.
  intros HD He.
  assert (G : forall D es,
             ASTDefinition D = true -> forallb ASTEnhancement es = true ->
             ASTDefinition (ExtendsRec D es) = true).
  { clear. intros D es. revert D es.
    apply (ExtendsRec_induction
             (fun D es => ASTDefinition D = true ->
                          forallb ASTEnhancement es = true ->
                          ASTDefinition (ExtendsRec D es) = true)).
    - intros D HD _. now rewrite ExtendsRec_nil.
    - intros D es NE IH HD He. rewrite ExtendsRec_step by assumption.
      apply IH; auto using ASTEnhancement_Shift4.
      apply ASTDefinition_merged; auto using ASTDefinition_enhancement. }
  split.
  - now apply G.
  - intros E HE. apply G; auto. cbn. now rewrite HE.
Qed.

Lemma Extends_builds_a_definition_witness :
  ASTDefinition (Extends ex_base (Many [ex_enh_comments; ex_enh_tokens])) = true.
Proof.
  exact (proj1 (Extends_builds_a_definition
                  ex_base [ex_enh_comments; ex_enh_tokens] eq_refl eq_refl)).
Defined.

(** X12.  The names that the extended definition lists as statements are
    exactly those that the base definition or one of the enhancements
    lists, whatever the length of the enhancement list; likewise for the
    expressions. *)
Theorem Extends_unites_listed_names (D : ty) (es : list ty) (k B : string) :
  ASTDefinition D = true -> forallb ASTEnhancement es = true ->
  (k = "statementType" \/ k = "expressionType") ->
  lists (Extends D (Many es)) k B
  = lists D k B || existsb (fun E => lists E k B) es.
Proof.
  intros HD He Hk. apply ASTDefinition_enhancement in HD.
  unfold Extends. revert D es HD He.
  apply (ExtendsRec_induction
           (fun D es => ASTEnhancement D = true ->
                        forallb ASTEnhancement es = true ->
                        lists (ExtendsRec D es) k B
                        = lists D k B || existsb (fun E => lists E k B) es)).
  - intros D _ _. rewrite ExtendsRec_nil. cbn [existsb]. now rewrite orb_false_r.
  - intros D es NE IH HD He. rewrite ExtendsRec_step by assumption.
    rewrite IH.
    + rewrite lists_merged by assumption.
      rewrite <- (existsb_batches (fun E => lists E k B) es) by reflexivity.
      now rewrite !orb_assoc.
    + apply ASTDefinition_enhancement. now apply ASTDefinition_merged.
    + now apply ASTEnhancement_Shift4.
Qed.

Lemma Extends_unites_listed_names_witness :
  lists (Extends ex_base (Many [ex_enh_comments;
                                TObj [("statementType", TStr "Program")]]))
        "statementType" "Program" = true.
Proof.
  rewrite (Extends_unites_listed_names
             ex_base [ex_enh_comments; TObj [("statementType", TStr "Program")]]
             "statementType" "Program" eq_refl eq_refl (or_introl eq_refl)).
  reflexivity.
Defined.

Lemma declares_merged (D : ty) (es : list ty) (N p : string) :
  ASTEnhancement D = true -> forallb ASTEnhancement es = true ->
  declares (merged D es) N p
  = declares D N p || declares (At0 es) N p || declares (At1 es) N p
    || declares (At2 es) N p || declares (At3 es) N p.
Proof.
  intros HD He.
  destruct (slots_of_enhancements D es HD He) as (S & S0 & S1 & S2 & S3).
  unfold declares at 1. rewrite node_prop_merged by assumption.
  cbn [existsb]. fold (declares D N p) (declares (At0 es) N p)
    (declares (At1 es) N p) (declares (At2 es) N p) (declares (At3 es) N p).
  rewrite orb_false_r, !orb_assoc.
  now destruct (declares D N p || declares (At0 es) N p || declares (At1 es) N p
                || declares (At2 es) N p || declares (At3 es) N p).
Qed.

Lemma node_names_merged (D : ty) (es : list ty) (N : string) :
  ASTEnhancement D = true -> forallb ASTEnhancement es = true ->
  In N (node_names (merged D es))
  <-> In N (node_names D) \/ In N (node_names (At0 es))
      \/ In N (node_names (At1 es)) \/ In N (node_names (At2 es))
      \/ In N (node_names (At3 es)).
Proof.
  intros HD He.
  destruct (slots_of_enhancements D es HD He) as (S & S0 & S1 & S2 & S3).
  rewrite node_names_merge_keys by assumption.
  rewrite In_merge_keys_iff, !In_node_names. tauto.
Qed.

Lemma In_batches (P : ty -> Prop) (es : list ty) :
  ~ P TNever ->
  (P (At0 es) \/ P (At1 es) \/ P (At2 es) \/ P (At3 es)
   \/ exists E, In E (Shift4 es) /\ P E)
  <-> exists E, In E es /\ P E.
Proof.
  intros HN.
  destruct es as [|a [|b [|c [|d r]]]]; cbn [At0 At1 At2 At3 Shift4];
    (split; [intros H|intros [E [HE PE]]]);
    repeat match goal with
           | H : _ \/ _ |- _ => destruct H as [H|H]
           | H : exists _, _ |- _ => destruct H as [? [? ?]]
           | H : In _ [] |- _ => destruct H
           | H : In _ (_ :: _) |- _ => destruct H as [<-|H]
           end;
    try contradiction; eauto 8 using in_eq, in_cons.
Qed.

(** X13.  The node-types and the properties of the extended definition are
    exactly those that the base definition or one of the enhancements
    declares, whatever the length of the enhancement list: an extension
    loses no node-type and no property, and it invents none. *)
Theorem Extends_unites_declarations (D : ty) (es : list ty) (N p : string) :
  ASTDefinition D = true -> forallb ASTEnhancement es = true ->
  (In N (node_names (Extends D (Many es)))
   <-> In N (node_names D) \/ exists E, In E es /\ In N (node_names E)) /\
  declares (Extends D (Many es)) N p
  = declares D N p || existsb (fun E => declares E N p) es.
Proof.
  intros HD He. apply ASTDefinition_enhancement in HD.
  unfold Extends. revert D es HD He.
  apply (ExtendsRec_induction
           (fun D es =>
              ASTEnhancement D = true -> forallb ASTEnhancement es = true ->
              (In N (node_names (ExtendsRec D es))
               <-> In N (node_names D) \/ exists E, In E es /\ In N (node_names E)) /\
              declares (ExtendsRec D es) N p
              = declares D N p || existsb (fun E => declares E N p) es)).
  - intros D _ _. rewrite ExtendsRec_nil. split.
    + split; auto. intros [H|[E [[] _]]]. exact H.
    + cbn [existsb]. now rewrite orb_false_r.
  - intros D es NE IH HD He. rewrite ExtendsRec_step by assumption.
    destruct IH as [IH1 IH2].
    + apply ASTDefinition_enhancement. now apply ASTDefinition_merged.
    + now apply ASTEnhancement_Shift4.
    + split.
      * rewrite IH1, node_names_merged by assumption.
        rewrite <- (In_batches (fun E => In N (node_names E)) es)
          by (intros []).
        tauto.
      * rewrite IH2, declares_merged by assumption.
        rewrite <- (existsb_batches (fun E => declares E N p) es) by reflexivity.
        now rewrite !orb_assoc.
Qed.

Lemma Extends_unites_declarations_witness :
  declares (Extends ex_base (Many [ex_enh_comments; ex_enh_tokens]))
           "Program" "tokens" = true.
Proof.
  rewrite (proj2 (Extends_unites_declarations
                    ex_base [ex_enh_comments; ex_enh_tokens] "Program" "tokens"
                    eq_refl eq_refl)).
  reflexivity.
Defined.

(* ===================================================================== *)
(** ** The types of the merged properties *)
(* ===================================================================== *)

Lemma UniteArray_array (e : ty) : UniteArray (TArr false e) = TArr false e.
Proof.
  unfold UniteArray, extends0, extends.
  now rewrite extends_to_arr, extends_to_any.
Qed.

(** X14.  [UniteArray] is idempotent: it yields a mutable sequence type
    when its argument is assignable to [any[]] and its argument otherwise,
    and applying it again changes nothing. *)
Theorem UniteArray_idempotent (T : ty) :
  UniteArray (UniteArray T) = UniteArray T /\
  (UniteArray T = T \/ exists e, UniteArray T = TArr false e).
Proof.
  assert (C : UniteArray T = T \/ exists e, UniteArray T = TArr false e).
  { unfold UniteArray. destruct (extends0 T (TArr false TAny)); eauto. }
  split; [|exact C].
  destruct C as [E|[e E]]; rewrite E; [exact E|apply UniteArray_array].
Qed.

Lemma mk_union_with_nevers (v : ty) :
  mk_union [v; TNever; TNever; TNever; TNever] = mk_union [v].
Proof. unfold mk_union. cbn [flat_map alts app]. reflexivity. Qed.

Lemma declared_type_undeclared (E : ty) (N p : string) :
  declares E N p = false -> declared_type E N p = TNever.
Proof.
  unfold declares, declared_type. now destruct (node_prop E N p).
Qed.

(** A property that the base declares and no enhancement of the batch
    declares. *)
Lemma node_prop_merged_base (D : ty) (es : list ty) (N p : string) (v : ty) :
  ASTEnhancement D = true -> forallb ASTEnhancement es = true ->
  node_prop D N p = Some v ->
  (forall E, In E es -> declares E N p = false) ->
  node_prop (merged D es) N p = Some (UniteArray (mk_union [v])).
Proof.
  intros HD He Hv Hn.
  destruct (slots_of_enhancements D es HD He) as (S & S0 & S1 & S2 & S3).
  destruct (At_slots es (fun E => declares E N p = false))
    as (H0 & H1 & H2 & H3); auto.
  rewrite node_prop_merged by assumption.
  cbn [existsb map]. rewrite Hv. cbn [orb].
  rewrite (declared_type_undeclared (At0 es) N p H0).
  rewrite (declared_type_undeclared (At1 es) N p H1).
  rewrite (declared_type_undeclared (At2 es) N p H2).
  rewrite (declared_type_undeclared (At3 es) N p H3).
  unfold declared_type. rewrite Hv. now rewrite mk_union_with_nevers.
Qed.

Lemma UniteArray_plain (v : ty) :
  not_sequence v = true \/ (exists e, v = TArr false e) -> UniteArray v = v.
Proof.
  intros [H|[e ->]]; [|apply UniteArray_array].
  unfold not_sequence in H. apply negb_true_iff in H.
  unfold UniteArray. now rewrite H.
Qed.

(** X15.  A property of the base definition that no enhancement declares
    keeps its type through any number of enhancements, provided the type
    is in checked form and is either not assignable to [any[]] or a
    mutable sequence type. *)
Theorem Extends_keeps_untouched_property (D : ty) (es : list ty) (N p : string) (v : ty) :
  ASTDefinition D = true -> forallb ASTEnhancement es = true ->
  node_prop D N p = Some v ->
  (forall E, In E es -> declares E N p = false) ->
  checked v = true ->
  not_sequence v = true \/ (exists e, v = TArr false e) ->
  node_prop (Extends D (Many es)) N p = Some v.
Proof.
  intros HD He Hv Hn C Pl. apply ASTDefinition_enhancement in HD.
  unfold Extends. revert D es HD He Hv Hn.
  apply (ExtendsRec_induction
           (fun D es =>
              ASTEnhancement D = true -> forallb ASTEnhancement es = true ->
              node_prop D N p = Some v ->
              (forall E, In E es -> declares E N p = false) ->
              node_prop (ExtendsRec D es) N p = Some v)).
  - intros D _ _ Hv _. now rewrite ExtendsRec_nil.
  - intros D es NE IH HD He Hv Hn. rewrite ExtendsRec_step by assumption.
    apply IH.
    + apply ASTDefinition_enhancement. now apply ASTDefinition_merged.
    + now apply ASTEnhancement_Shift4.
    + rewrite (node_prop_merged_base D es N p v) by assumption.
      now rewrite (checked_eq v C), UniteArray_plain.
    + intros E HE. now apply Hn, Shift4_incl.
Qed.

Lemma Extends_keeps_untouched_property_witness :
  node_prop (Extends ex_base (Many [ex_enh_comments; ex_enh_tokens]))
            "Program" "body"
  = Some (TArr false (NodeRef (TStr "Statement"))).
Proof.
  apply (Extends_keeps_untouched_property
           ex_base [ex_enh_comments; ex_enh_tokens] "Program" "body"
           (TArr false (NodeRef (TStr "Statement"))) eq_refl eq_refl eq_refl).
  - intros E [<-|[<-|[]]]; reflexivity.
  - reflexivity.
  - right. eexists. reflexivity.
Defined.

Lemma mk_union_with_any (l : list ty) : mk_union (TAny :: l) = TAny.
Proof. reflexivity. Qed.

Lemma ExtendsRec_one_batch (D : ty) (es : list ty) :
  es <> [] -> List.length es <= 4 -> ExtendsRec D es = merged D es.
Proof.
  intros NE L. rewrite ExtendsRec_step by assumption.
  destruct es as [|a [|b [|c [|d [|e r]]]]]; cbn [Shift4];
    try apply ExtendsRec_nil.
  simpl in L. lia.
Qed.

(** X16.  A property that the base definition declares with the type [any]
    has the type [any[]] after the merge with one to four enhancements,
    whatever they declare: [any] passes the test [[T] extends [any[]]] of
    [UniteArray]. *)
Theorem Extends_turns_any_into_sequence (D : ty) (es : list ty) (N p : string) :
  ASTDefinition D = true -> forallb ASTEnhancement es = true ->
  es <> [] -> List.length es <= 4 ->
  node_prop D N p = Some TAny ->
  node_prop (Extends D (Many es)) N p = Some (TArr false TAny) /\
  (forall E, es = [E] ->
             node_prop (Extends D (One E)) N p = Some (TArr false TAny)).
Proof.
  intros HD He NE L Hv. apply ASTDefinition_enhancement in HD.
  assert (G : node_prop (ExtendsRec D es) N p = Some (TArr false TAny)).
  { destruct (slots_of_enhancements D es HD He) as (S & S0 & S1 & S2 & S3).
    rewrite ExtendsRec_one_batch, node_prop_merged by assumption.
    cbn [existsb map]. rewrite Hv. cbn [orb].
    unfold declared_type at 1. rewrite Hv.
    now rewrite mk_union_with_any. }
  split; [exact G|]. intros E ->. exact G.
Qed.

Lemma Extends_turns_any_into_sequence_witness :
  node_prop (Extends (TObj [("nodes", TObj [("Literal", TObj [("value", TAny)])]);
                            ("statementType", TNever);
                            ("expressionType", TStr "Literal")])
                     (One (TObj [("nodes", TObj [])])))
            "Literal" "value"
  = Some (TArr false TAny).
Proof.
  refine (proj2 (Extends_turns_any_into_sequence
                   (TObj [("nodes", TObj [("Literal", TObj [("value", TAny)])]);
                          ("statementType", TNever);
                          ("expressionType", TStr "Literal")])
                   [TObj [("nodes", TObj [])]] "Literal" "value"
                   eq_refl eq_refl _ _ eq_refl) _ eq_refl).
  - discriminate.
  - simpl. lia.
Defined.

(** X17.  The batches of [ExtendsRec] compose: extending by a list whose
    first part has a multiple of four elements is extending by that first
    part and then by the rest. *)
Theorem ExtendsRec_composes (k : nat) (D : ty) (es1 es2 : list ty) :
  List.length es1 = 4 * k ->
  ExtendsRec D (es1 ++ es2) = ExtendsRec (ExtendsRec D es1) es2.
Proof.
  revert D es1. induction k as [|k IH]; intros D es1 L.
  - destruct es1; [|discriminate L]. now rewrite ExtendsRec_nil.
  - destruct es1 as [|a [|b [|c [|d r]]]]; try (simpl in L; lia).
    rewrite (ExtendsRec_step D (a :: b :: c :: d :: r)) by discriminate.
    rewrite (ExtendsRec_step D ((a :: b :: c :: d :: r) ++ es2)) by discriminate.
    cbn [Shift4 app].
    rewrite (merged_firstn D (a :: b :: c :: d :: r ++ es2)).
    rewrite (merged_firstn D (a :: b :: c :: d :: r)).
    cbn [firstn]. apply IH. simpl in L. lia.
Qed.

Lemma ExtendsRec_composes_witness :
  ExtendsRec ex_base ([ex_enh_comments; ex_enh_tokens; ex_enh_name_a; ex_enh_name_b]
                      ++ [ex_enh_comments])
  = ExtendsRec (ExtendsRec ex_base [ex_enh_comments; ex_enh_tokens;
                                    ex_enh_name_a; ex_enh_name_b])
               [ex_enh_comments].
Proof. apply (ExtendsRec_composes 1). reflexivity. Defined.

(* ===================================================================== *)
(** ** The definitions built with [Extends] in the sources *)
(* ===================================================================== *)

Lemma Extends_One (D E : ty) : Extends D (One E) = merged D [E].
Proof.
  unfold Extends. apply ExtendsRec_one_batch; [discriminate|simpl; lia].
Qed.

Lemma ASTDefinition_field (D : ty) (k : string) :
  ASTDefinition D = true -> (k = "statementType" \/ k = "expressionType") ->
  exists s, field D k = Some s /\ index D (TStr k) = s
            /\ name_type s = true /\ checked s = true.
Proof.
  intros H Hk. unfold ASTDefinition in H.
  destruct D; try discriminate. cbn [field].
  destruct (lookup "nodes" props) as [[]|]; try discriminate.
  destruct (lookup "statementType" props) as [st|] eqn:S; try discriminate.
  destruct (lookup "expressionType" props) as [ex|] eqn:X; try discriminate.
  repeat (apply andb_prop in H as [H ?]).
  destruct Hk as [-> | ->]; eexists; (split; [eassumption|]);
    (split; [now apply index_obj|]); auto.
Qed.

(** A member [statementType] or [expressionType] of the base that no
    enhancement of the batch declares is kept as it is. *)
Lemma index_merged_untouched (D : ty) (es : list ty) (k : string) :
  ASTDefinition D = true -> (k = "statementType" \/ k = "expressionType") ->
  Prop_ (At0 es) k TString TNever = TNever ->
  Prop_ (At1 es) k TString TNever = TNever ->
  Prop_ (At2 es) k TString TNever = TNever ->
  Prop_ (At3 es) k TString TNever = TNever ->
  index (merged D es) (TStr k) = index D (TStr k).
Proof.
  intros H Hk E0 E1 E2 E3.
  destruct (ASTDefinition_field D k H Hk) as (s & F & I & N & C).
  pose proof (field_merged D es k Hk) as FM.
  unfold merged in *. cbn [field] in FM. rewrite (index_obj _ _ _ FM).
  rewrite E0, E1, E2, E3, I, mk_union_with_nevers.
  assert (P : Prop_ D k TString TNever = s).
  { unfold Prop_, infer_prop. destruct D; try discriminate F.
    cbn [field] in F. rewrite F. apply distribute_id; auto.
    intros a Ha. apply cond0_name. now apply (name_type_atoms s). }
  rewrite P. now apply checked_eq.
Qed.

Lemma lists_has (D : ty) (k B : string) :
  ASTDefinition D = true -> (k = "statementType" \/ k = "expressionType") ->
  has B (index D (TStr k)) = lists D k B.
Proof. intros H Hk. symmetry. now apply lists_index. Qed.

Lemma length_two_distinct (l : list string) (a b : string) :
  In a l -> In b l -> a <> b -> List.length l <> 1.
Proof.
  destruct l as [|x [|y r]]; simpl; try discriminate.
  intros [<-|[]] [<-|[]] NE. now contradiction NE.
Qed.

Lemma AsyncFunction_no_type (P : string) :
  declares ES2017.AsyncFunction P "type" = false.
Proof.
  unfold declares, node_prop, shape_list.
  let l := eval vm_compute in (nodes_list ES2017.AsyncFunction) in
  change (nodes_list ES2017.AsyncFunction) with l.
  cbn [lookup].
  repeat match goal with
         | |- context [String.eqb P ?s] => destruct (String.eqb P s)
         end; reflexivity.
Qed.

Lemma declares_false (E : ty) (N p : string) :
  declares E N p = false <-> node_prop E N p = None.
Proof. unfold declares. destruct (node_prop E N p); split; congruence. Qed.

(** X18.  The ES2017 definition, for every ES2016 definition it extends:
    it is a definition; its node-types are those of ES2016 and the four
    that the enhancement [AsyncFunction] names; its statements are those
    of ES2016 and its expressions those of ES2016 and [AwaitExpression];
    the three function nodes have the member [async: boolean] when ES2016
    does not declare [async] for them; when ES2016 does not declare
    [argument] for [AwaitExpression], the [argument] of the node
    [AwaitExpression] is the union of the expression nodes of ES2017; and
    one of these expression nodes is the node [AwaitExpression] itself. *)
Theorem es2017_adds_async_functions (es2016 : ty) :
  ASTDefinition es2016 = true ->
  ASTDefinition (ES2017.ASTDefinition es2016) = true /\
  (forall N, In N (node_names (ES2017.ASTDefinition es2016))
             <-> In N (node_names es2016)
                 \/ In N ["ArrowFunctionExpression"; "FunctionDeclaration";
                          "FunctionExpression"; "AwaitExpression"]) /\
  index (ES2017.ASTDefinition es2016) (TStr "statementType")
  = index es2016 (TStr "statementType") /\
  (forall B, has B (index (ES2017.ASTDefinition es2016) (TStr "expressionType"))
             = has B (index es2016 (TStr "expressionType"))
               || String.eqb B "AwaitExpression") /\
  (forall F, In F ["ArrowFunctionExpression"; "FunctionDeclaration";
                   "FunctionExpression"] ->
             declares es2016 F "async" = false ->
             property (Node (TStr F) (ES2017.ASTDefinition es2016)) "async"
             = Some boolean) /\
  (declares es2016 "AwaitExpression" "argument" = false ->
   property (Node (TStr "AwaitExpression") (ES2017.ASTDefinition es2016)) "argument"
   = Some (ResolveNode (TStr "Expression") (ES2017.ASTDefinition es2016))) /\
  In (Node (TStr "AwaitExpression") (ES2017.ASTDefinition es2016))
     (alts (ResolveNode (TStr "Expression") (ES2017.ASTDefinition es2016))).
Proof.
  intros H. unfold ES2017.ASTDefinition. rewrite Extends_One.
  set (E := ES2017.AsyncFunction).
  pose proof (ASTDefinition_enhancement _ H) as HE.
  assert (He : forallb ASTEnhancement [E] = true) by reflexivity.
  pose proof (ASTDefinition_merged es2016 [E] HE He) as HD.
  destruct (slots_of_enhancements es2016 [E] HE He) as (S & S0 & S1 & S2 & S3).
  assert (Names : forall N,
             In N (node_names (merged es2016 [E]))
             <-> In N (node_names es2016)
                 \/ In N ["ArrowFunctionExpression"; "FunctionDeclaration";
                          "FunctionExpression"; "AwaitExpression"]).
  { intros N. rewrite node_names_merged by assumption.
    cbn [At0 At1 At2 At3].
    change (node_names E) with ["ArrowFunctionExpression"; "FunctionDeclaration";
                                "FunctionExpression"; "AwaitExpression"].
    change (node_names TNever) with (@nil string). simpl. tauto. }
  assert (Exprs : forall B,
             has B (index (merged es2016 [E]) (TStr "expressionType"))
             = has B (index es2016 (TStr "expressionType"))
               || String.eqb B "AwaitExpression").
  { intros B. rewrite !lists_has, lists_merged by auto.
    cbn [At0 At1 At2 At3].
    change (lists E "expressionType" B) with (String.eqb B "AwaitExpression").
    change (lists TNever "expressionType" B) with false.
    now rewrite !orb_false_r. }
  assert (Await : In "AwaitExpression" (node_names (merged es2016 [E])))
    by (apply Names; right; simpl; auto).
  split; [exact HD|]. split; [exact Names|].
  split; [apply index_merged_untouched; auto|].
  split; [exact Exprs|].
  split; [|split].
  - intros F HF NA.
    assert (HN : In F (node_names (merged es2016 [E])))
      by (apply Names; right; simpl in *; tauto).
    assert (P : node_prop (merged es2016 [E]) F "async" = Some boolean).
    { rewrite node_prop_merged by assumption.
      cbn [existsb map At0 At1 At2 At3].
      fold (declares es2016 F "async"). rewrite NA.
      rewrite (declared_type_undeclared es2016 F "async" NA).
      destruct HF as [<-|[<-|[<-|[]]]]; reflexivity. }
    rewrite Node_known, property_known_node, NodeBody_member_spec by assumption.
    cbn [is_common_key String.eqb Ascii.eqb Bool.eqb orb]. now rewrite P.
  - intros NA.
    assert (P : node_prop (merged es2016 [E]) "AwaitExpression" "argument"
                = Some (NodeRef (TStr "Expression"))).
    { rewrite node_prop_merged by assumption.
      cbn [existsb map At0 At1 At2 At3].
      fold (declares es2016 "AwaitExpression" "argument"). rewrite NA.
      rewrite (declared_type_undeclared es2016 _ _ NA). reflexivity. }
    rewrite Node_known, property_known_node, NodeBody_member_spec by assumption.
    cbn [is_common_key String.eqb Ascii.eqb Bool.eqb orb]. rewrite P.
    now rewrite (proj1 (proj2 (NodeProperty_reference _ "Expression"))).
  - destruct (ASTDefinition_types _ HD) as (_ & _ & N2 & C2).
    unfold ResolveNode. rewrite ResolveNodeType_literal, meta_name_Expression.
    rewrite ResolveNode_names; auto.
    + rewrite alts_of_members.
      * apply (in_map (fun N => Node (TStr N) (merged es2016 [E]))).
        apply filter_In. split; [exact Await|].
        rewrite Exprs. apply orb_true_r.
      * intros a [N [<- HN]]%in_map_iff. apply filter_In in HN as [HN _].
        now rewrite Node_known.
    + apply (length_two_distinct _ "AwaitExpression" "FunctionExpression");
        [exact Await| |discriminate].
      apply Names. right. simpl. auto.
Qed.

Lemma es2017_adds_async_functions_witness :
  In (Node (TStr "AwaitExpression") (ES2017.ASTDefinition ex_base))
     (alts (ResolveNode (TStr "Expression") (ES2017.ASTDefinition ex_base))).
Proof.
  exact (proj2 (proj2 (proj2 (proj2 (proj2 (proj2
           (es2017_adds_async_functions ex_base eq_refl))))))).
Defined.

Lemma node_prop_missing (E : ty) (N p : string) :
  ~ In N (node_names E) -> node_prop E N p = None.
Proof.
  intros HN. unfold node_prop, shape_list.
  rewrite In_node_names in HN. apply lookup_None in HN. now rewrite HN.
Qed.

Lemma no_type_everywhere (D : ty) :
  (forall P, In P (node_names D) -> node_prop D P "type" = None) ->
  forall P, declares D P "type" = false.
Proof.
  intros H P. apply declares_false.
  destruct (in_dec string_dec P (node_names D)) as [I|I]; auto.
  now apply node_prop_missing.
Qed.

(** X19.  The alias [Node] of the ES2017 definition, for every ES2016
    definition it extends, no node-shape of which declares [type] itself:
    with the default filter, [Node<"AwaitExpression">] is the node
    [AwaitExpression] and [Node<N>] is the node of every node-type [N] of
    ES2016 that is not a meta-name; with its default type ["Node"] the
    alias is the union of all ES2017 nodes. *)
Theorem es2017_Node_alias (es2016 : ty) :
  ASTDefinition es2016 = true ->
  (forall P, In P (node_names es2016) -> node_prop es2016 P "type" = None) ->
  ES2017.Node es2016 (TStr "AwaitExpression") TAny
  = Node (TStr "AwaitExpression") (ES2017.ASTDefinition es2016) /\
  (forall N, In N (node_names es2016) -> is_meta_name N = false ->
             ES2017.Node es2016 (TStr N) TAny
             = Node (TStr N) (ES2017.ASTDefinition es2016)) /\
  ES2017.Node es2016 (TStr "Node") TAny
  = of_members (map (fun N => Node (TStr N) (ES2017.ASTDefinition es2016))
                    (node_names (ES2017.ASTDefinition es2016))).
Proof.
  intros H NT. unfold ES2017.Node, ES2017.ASTDefinition. rewrite Extends_One.
  set (E := ES2017.AsyncFunction).
  pose proof (ASTDefinition_enhancement _ H) as HE.
  assert (He : forallb ASTEnhancement [E] = true) by reflexivity.
  pose proof (ASTDefinition_merged es2016 [E] HE He) as HD.
  assert (NT' : forall P, In P (node_names (merged es2016 [E])) ->
                          node_prop (merged es2016 [E]) P "type" = None).
  { intros P _. apply declares_false. rewrite declares_merged by assumption.
    cbn [At0 At1 At2 At3]. rewrite (no_type_everywhere es2016 NT). unfold E.
    now rewrite AsyncFunction_no_type. }
  assert (Names : forall N,
             In N (node_names es2016)
             \/ In N ["ArrowFunctionExpression"; "FunctionDeclaration";
                      "FunctionExpression"; "AwaitExpression"] ->
             In N (node_names (merged es2016 [E]))).
  { intros N HN. rewrite node_names_merged by assumption.
    cbn [At0 At1 At2 At3].
    change (node_names E) with ["ArrowFunctionExpression"; "FunctionDeclaration";
                                "FunctionExpression"; "AwaitExpression"].
    tauto. }
  split; [|split].
  - apply ExtractNode_known; auto. apply Names. right. simpl. auto.
  - intros N HN M. apply ExtractNode_known; auto.
  - rewrite ExtractNode_literal. cbn [is_meta_name String.eqb Ascii.eqb Bool.eqb orb].
    rewrite Extract_any by apply Node_union_checked.
    rewrite ResolveNode_Node by assumption.
    f_equal. apply map_ext_in. intros a Ha. symmetry. now apply Node_known.
Qed.

Lemma es2017_Node_alias_witness :
  ES2017.Node ex_base (TStr "AwaitExpression") TAny
  = Node (TStr "AwaitExpression") (ES2017.ASTDefinition ex_base).
Proof.
  exact (proj1 (es2017_Node_alias ex_base eq_refl ex_base_no_type)).
Defined.

(** X20.  The definition that the rules use, for every ES2019 definition
    it extends with the enhancement [{ nodes: {} }]: it is a definition
    with the node-types, the statements, the expressions and the declared
    properties of ES2019; a property keeps its type when that type is in
    checked form and is either not assignable to [any[]] or a mutable
    sequence type; and the alias [AST], with its default type and filter,
    is the union of the nodes of all the node-types of ES2019. *)
Theorem rule_definition_keeps_ES2019 (ES2019 : ty) :
  ASTDefinition ES2019 = true ->
  ASTDefinition (Rule.ASTDefinition ES2019) = true /\
  node_names (Rule.ASTDefinition ES2019) = node_names ES2019 /\
  index (Rule.ASTDefinition ES2019) (TStr "statementType")
  = index ES2019 (TStr "statementType") /\
  index (Rule.ASTDefinition ES2019) (TStr "expressionType")
  = index ES2019 (TStr "expressionType") /\
  (forall N p, declares (Rule.ASTDefinition ES2019) N p = declares ES2019 N p) /\
  (forall N p v,
      node_prop ES2019 N p = Some v -> checked v = true ->
      not_sequence v = true \/ (exists e, v = TArr false e) ->
      node_prop (Rule.ASTDefinition ES2019) N p = Some v) /\
  Rule.AST ES2019 (TStr "Node") TAny
  = of_members (map (fun N => Node (TStr N) (Rule.ASTDefinition ES2019))
                    (node_names ES2019)).
Proof.
  intros H. unfold Rule.AST, Rule.ASTDefinition. rewrite Extends_One.
  set (E := TObj [("nodes", TObj [])]).
  pose proof (ASTDefinition_enhancement _ H) as HE.
  assert (He : forallb ASTEnhancement [E] = true) by reflexivity.
  pose proof (ASTDefinition_merged ES2019 [E] HE He) as HD.
  destruct (slots_of_enhancements ES2019 [E] HE He) as (S & S0 & S1 & S2 & S3).
  assert (Names : node_names (merged ES2019 [E]) = node_names ES2019).
  { rewrite node_names_merge_keys by assumption.
    cbn [At0 At1 At2 At3].
    change (nodes_list E) with (@nil (string * ty)).
    change (nodes_list TNever) with (@nil (string * ty)).
    unfold merge_keys, node_names. cbn [map app].
    change (sdedupe []) with (@nil string).
    rewrite !app_nil_r. apply sdedupe_idem. }
  split; [exact HD|]. split; [exact Names|].
  split; [apply index_merged_untouched; auto|].
  split; [apply index_merged_untouched; auto|].
  split; [|split].
  - intros N p. rewrite declares_merged by assumption.
    cbn [At0 At1 At2 At3].
    change (declares E N p) with false. change (declares TNever N p) with false.
    now rewrite !orb_false_r.
  - intros N p v Hv C Pl.
    rewrite (node_prop_merged_base ES2019 [E] N p v) by
      (auto; intros E' [<-|[]]; reflexivity).
    now rewrite (checked_eq v C), UniteArray_plain.
  - rewrite ExtractNode_literal. cbn [is_meta_name String.eqb Ascii.eqb Bool.eqb orb].
    rewrite Extract_any by apply Node_union_checked.
    rewrite ResolveNode_Node, Names by assumption.
    f_equal. apply map_ext_in. intros a Ha. symmetry. apply Node_known; auto.
    now rewrite Names.
Qed.

Lemma rule_definition_keeps_ES2019_witness :
  node_names (Rule.ASTDefinition ex_base) = node_names ex_base.
Proof.
  exact (proj1 (proj2 (rule_definition_keeps_ES2019 ex_base eq_refl))).
Defined.

(* ===================================================================== *)
(** ** Unions of names, and references that [NodeRefType] does not see *)
(* ===================================================================== *)

Lemma unknown_type_empty (x : string) :
  x <> "UNKNOWN TYPE:" ->
  unknown_type (TStr x) = TInter [empty_object; TStr "UNKNOWN TYPE:"; TStr x]
  /\ is_empty_inter (unknown_type (TStr x)) = true.
Proof.
  intros NE. rewrite unknown_type_literal.
  assert (E : String.eqb "UNKNOWN TYPE:" x = false)
    by (apply String.eqb_neq; congruence).
  rewrite E. split; [reflexivity|].
  cbn [is_empty_inter empty_members existsb]. unfold clash at 3.
  cbn [is_unit andb ty_eqb]. rewrite E. reflexivity.
Qed.

Lemma mixed_names (D : ty) (g : string -> bool) (M : list string) :
  ~ In "UNKNOWN TYPE:" M ->
  let ts := map (fun x => if g x then known_node D (TStr x)
                          else unknown_type (TStr x)) M in
  existsb is_any (flat_map alts ts) = false
  /\ existsb is_unknown (flat_map alts ts) = false
  /\ filter (fun t => negb (is_empty_inter t)) (flat_map alts ts)
     = map (fun P => known_node D (TStr P)) (filter g M).
Proof.
  intros NU. cbv zeta.
  induction M as [|a M IH]; [repeat split|].
  assert (Na : a <> "UNKNOWN TYPE:") by (intros ->; apply NU; now left).
  destruct IH as (I1 & I2 & I3); [intros H; apply NU; now right|].
  destruct (unknown_type_empty a Na) as (U1 & U2).
  cbn [map flat_map filter]. destruct (g a).
  - rewrite known_node_eq. cbn [alts app existsb is_any is_unknown orb filter
                                is_empty_inter empty_members].
    rewrite <- known_node_eq.
    change (existsb (clash (TNodeCommon D (TStr a)))
                    [TNodeBody D (TStr a); NodeFallback]
            || (existsb (clash (TNodeBody D (TStr a))) [NodeFallback] || false))
      with false.
    cbn [negb map]. now rewrite I1, I2, I3.
  - rewrite U1 at 1 2 3. cbn [alts app existsb is_any is_unknown orb filter].
    rewrite <- U1, U2. cbn [negb]. now rewrite I1, I2, I3.
Qed.

(** X21.  [Node] distributes over a union of names: for two or more
    distinct names, none of them the text of the marker, it is the union
    of the nodes of those names that are node-types of the definition.
    The names that are not node-types contribute nothing: their
    unknown-type marker does not survive in the union. *)
Theorem Node_of_union_drops_unknown_names (D : ty) (M : list string) :
  ASTDefinition D = true -> NoDup M -> 2 <= List.length M ->
  ~ In "UNKNOWN TYPE:" M ->
  Node (lits M) D
  = of_members (map (fun N => Node (TStr N) D)
                    (filter (fun N => existsb (String.eqb N) (node_names D)) M)).
Proof.
  intros H ND L NU.
  set (g := fun N => existsb (String.eqb N) (node_names D)).
  assert (K : map (fun N => Node (TStr N) D) (filter g M)
              = map (fun P => known_node D (TStr P)) (filter g M)).
  { apply map_ext_in. intros a Ha. apply filter_In in Ha as [_ Ha].
    rewrite Node_literal by assumption. fold (g a). now rewrite Ha. }
  rewrite K.
  destruct M as [|x [|y r]]; try (simpl in L; lia).
  remember (x :: y :: r) as M' eqn:EM.
  replace (lits M') with (TUnion (map TStr M')) by (now subst M').
  unfold Node, distribute.
  change (alts (TUnion (map TStr M'))) with (flat_map alts (map TStr M')).
  rewrite flat_map_alts_lits, map_map.
  rewrite (map_ext _ (fun x => if g x then known_node D (TStr x)
                               else unknown_type (TStr x)))
    by (intros a; exact (Node_literal D a H)).
  destruct (mixed_names D g M' NU) as (E1 & E2 & E3).
  rewrite (mk_union_filtered String.eqb (fun P => known_node D (TStr P)))
    with (L := filter g M'); auto.
  - change (dedupe_by String.eqb) with sdedupe.
    rewrite sdedupe_NoDup; [reflexivity|]. now apply NoDup_filter.
  - intros a b. apply known_node_eqb.
Qed.

Lemma Node_of_union_drops_unknown_names_witness :
  Node (TUnion [TStr "Identifier"; TStr "Bogus"]) ex_base
  = Node (TStr "Identifier") ex_base.
Proof.
  apply (Node_of_union_drops_unknown_names ex_base ["Identifier"; "Bogus"] eq_refl).
  - repeat constructor; simpl; intuition discriminate.
  - simpl. lia.
  - simpl. intuition discriminate.
Defined.

Lemma ResolveNodeType_never (D : ty) : ResolveNodeType TNever D = TNever.
Proof.
  unfold ResolveNodeType. change (IsAny TNever) with (TBool false).
  change (cond0 (TBool false) (TBool true) ?y ?n) with n.
  cbn [distribute]. unfold ty_and at 1. cbn [is_never]. now rewrite orb_true_r.
Qed.

Lemma ChildNodeType_single (D : ty) (p : string) (v : ty) :
  NodeRefType v = TNever -> ChildNodeType (TObj [(p, v)]) D = TNever.
Proof.
  intros E. unfold ChildNodeType.
  rewrite keyof_obj. change (sdedupe (map fst [(p, v)])) with [p].
  rewrite names_of_lits. cbn [map].
  rewrite (index_obj [(p, v)] p v) by (cbn [lookup]; now rewrite String.eqb_refl).
  rewrite E. change (mk_union [TNever]) with TNever.
  apply ResolveNodeType_never.
Qed.

(** X22.  A property, other than [range], [loc] and [parent], declared
    as a sequence whose elements are a reference or [null],
    [(NodeRef<r> | null)[]], is resolved element by element in the node,
    but [NodeRefType] finds no reference in it: a node-type of the
    definition whose only property is such a sequence is a parent candidate
    of no name. *)
Theorem nullable_elements_give_no_parent (D : ty) (A p r : string) :
  ASTDefinition D = true -> In A (node_names D) -> is_common_key p = false ->
  shape_list D A = [(p, TArr false (TUnion [NodeRef (TStr r); TNull]))] ->
  property (Node (TStr A) D) p
  = Some (TArr true (mk_union [ResolveNode (TStr r) D; TNull])) /\
  NodeRefType (TArr false (TUnion [NodeRef (TStr r); TNull])) = TNever /\
  forall B, ~ In A (parents D B).
Proof.
  intros H HA C S. split; [|split].
  - rewrite Node_known, property_known_node, C, NodeBody_member_spec, C
      by assumption.
    unfold node_prop. rewrite S. cbn [lookup]. rewrite String.eqb_refl.
    reflexivity.
  - reflexivity.
  - intros B HB. unfold parents in HB. apply filter_In in HB as [_ HB].
    rewrite ASTDefinition_shape, S in HB by assumption.
    rewrite ChildNodeType_single in HB by reflexivity. discriminate HB.
Qed.

Lemma nullable_elements_give_no_parent_witness :
  NodeRefType (TArr false (TUnion [NodeRef (TStr "Identifier"); TNull])) = TNever
  /\ ~ In "ArrayExpression"
          (parents (TObj [("nodes",
                            TObj [("Identifier", TObj [("name", TString)]);
                                  ("ArrayExpression",
                                    TObj [("elements",
                                            TArr false
                                              (TUnion [NodeRef (TStr "Identifier");
                                                       TNull]))])]);
                          ("statementType", TNever);
                          ("expressionType", TStr "Identifier")])
                   "Identifier").
Proof.
  pose proof (nullable_elements_give_no_parent
                (TObj [("nodes",
                         TObj [("Identifier", TObj [("name", TString)]);
                               ("ArrayExpression",
                                 TObj [("elements",
                                         TArr false
                                           (TUnion [NodeRef (TStr "Identifier");
                                                    TNull]))])]);
                       ("statementType", TNever);
                       ("expressionType", TStr "Identifier")])
                "ArrayExpression" "elements" "Identifier" eq_refl) as H.
  destruct H as (_ & H1 & H2).
  - simpl. auto.
  - reflexivity.
  - reflexivity.
  - split; [exact H1|apply H2].
Defined.

(** X23.  The type of a property after the merge of a base definition with
    one to four enhancements: the property exists when the base or one of
    the enhancements declares it, and its type is then [UniteArray] of the
    union of the declared types, the base first and the enhancements in
    their order. *)
Theorem Extends_merges_declared_types (D : ty) (es : list ty) (N p : string) :
  ASTDefinition D = true -> forallb ASTEnhancement es = true ->
  es <> [] -> List.length es <= 4 ->
  node_prop (Extends D (Many es)) N p
  = if declares D N p || existsb (fun E => declares E N p) es
    then Some (UniteArray (mk_union (map (fun E => declared_type E N p) (D :: es))))
    else None.
Proof.
  intros HD He NE L. apply ASTDefinition_enhancement in HD.
  destruct (slots_of_enhancements D es HD He) as (S & S0 & S1 & S2 & S3).
  unfold Extends. rewrite ExtendsRec_one_batch, node_prop_merged by assumption.
  assert (X : existsb (fun E => match node_prop E N p with
                                | Some _ => true
                                | None => false
                                end) [D; At0 es; At1 es; At2 es; At3 es]
              = declares D N p || existsb (fun E => declares E N p) es).
  { rewrite <- (existsb_batches (fun E => declares E N p) es) by reflexivity.
    cbn [existsb]. fold (declares D N p) (declares (At0 es) N p)
      (declares (At1 es) N p) (declares (At2 es) N p) (declares (At3 es) N p).
    destruct es as [|a [|b [|c [|d [|e r]]]]]; cbn [Shift4 existsb];
      try (simpl in L; lia); now rewrite !orb_false_r, ?orb_assoc. }
  rewrite X.
  destruct (declares D N p || existsb (fun E => declares E N p) es); [|reflexivity].
  do 2 f_equal.
  destruct es as [|a [|b [|c [|d [|e r]]]]]; try congruence;
    try (simpl in L; lia);
    cbn [At0 At1 At2 At3 map];
    change (declared_type TNever N p) with TNever;
    unfold mk_union; cbn [flat_map alts app]; rewrite ?app_nil_r; reflexivity.
Qed.

Lemma Extends_merges_declared_types_witness :
  node_prop (Extends ex_base (Many [ex_enh_name_a])) "Identifier" "name"
  = Some (TUnion [TString; TArr false TNumber]).
Proof.
  rewrite (Extends_merges_declared_types ex_base [ex_enh_name_a] "Identifier" "name"
             eq_refl eq_refl).
  - reflexivity.
  - discriminate.
  - simpl. lia.
Defined.

(** X24.  [ExtractNode] at the meta-name ["Node"] with a filter other than
    [any] and [unknown] selects, among all the nodes of the definition,
    exactly those that are assignable to the filter. *)
Theorem ExtractNode_selects_assignable_nodes (D F : ty) :
  ASTDefinition D = true -> is_any F = false -> is_unknown F = false ->
  ExtractNode D (TStr "Node") F
  = of_members (map (fun N => Node (TStr N) D)
                    (filter (fun N => extends node_members (Node (TStr N) D) F)
                            (node_names D))).
Proof.
  intros H A U. rewrite ExtractNode_literal.
  cbn [is_meta_name String.eqb Ascii.eqb Bool.eqb orb].
  rewrite ResolveNode_Node by assumption. unfold Extract.
  rewrite (distribute_nodes D _
             (fun N => extends node_members (known_node D (TStr N)) F)).
  - rewrite (filter_ext_in _ (fun N => extends node_members (Node (TStr N) D) F))
      by (intros a Ha; now rewrite Node_known).
    f_equal. apply map_ext_in. intros a Ha. apply filter_In in Ha as [Ha _].
    symmetry. now apply Node_known.
  - apply NoDup_node_names.
  - intros x Hx. unfold cond. rewrite A, U. cbn [orb].
    rewrite known_node_eq at 1. cbn [is_any]. reflexivity.
Qed.

Lemma ExtractNode_selects_assignable_nodes_witness :
  ExtractNode ex_base (TStr "Node") (TObj [("name", TString)])
  = Node (TStr "Identifier") ex_base.
Proof.
  rewrite (ExtractNode_selects_assignable_nodes ex_base (TObj [("name", TString)])
             eq_refl eq_refl eq_refl).
  reflexivity.
Defined.

(** X25.  In the ES2017 definition, for every ES2016 definition it extends
    that does not declare [argument] for [AwaitExpression]: the parent
    computed for every node-type that the definition lists as an
    expression includes the node [AwaitExpression], whose [argument]
    refers to the expressions; in particular the parent of
    [AwaitExpression] includes [AwaitExpression] itself. *)
Theorem es2017_await_is_a_parent_of_expressions (es2016 : ty) (B : string) :
  ASTDefinition es2016 = true ->
  declares es2016 "AwaitExpression" "argument" = false ->
  (In B (node_names (ES2017.ASTDefinition es2016)) ->
   has B (index (ES2017.ASTDefinition es2016) (TStr "expressionType")) = true ->
   In (Node (TStr "AwaitExpression") (ES2017.ASTDefinition es2016))
      (alts (ParentNode (TStr B) (ES2017.ASTDefinition es2016)))) /\
  In (Node (TStr "AwaitExpression") (ES2017.ASTDefinition es2016))
     (alts (ParentNode (TStr "AwaitExpression") (ES2017.ASTDefinition es2016))).
Proof.
  intros H NA. unfold ES2017.ASTDefinition. rewrite Extends_One.
  set (E := ES2017.AsyncFunction).
  pose proof (ASTDefinition_enhancement _ H) as HE.
  assert (He : forallb ASTEnhancement [E] = true) by reflexivity.
  pose proof (ASTDefinition_merged es2016 [E] HE He) as HD.
  destruct (slots_of_enhancements es2016 [E] HE He) as (S & S0 & S1 & S2 & S3).
  assert (Await : In "AwaitExpression" (node_names (merged es2016 [E]))).
  { rewrite node_names_merged by assumption. right. left.
    cbn [At0]. unfold E. simpl. auto. }
  assert (P : node_prop (merged es2016 [E]) "AwaitExpression" "argument"
              = Some (NodeRef (TStr "Expression"))).
  { rewrite node_prop_merged by assumption.
    cbn [existsb map At0 At1 At2 At3].
    fold (declares es2016 "AwaitExpression" "argument"). rewrite NA.
    rewrite (declared_type_undeclared es2016 _ _ NA). reflexivity. }
  assert (G : forall B,
             In B (node_names (merged es2016 [E])) ->
             has B (index (merged es2016 [E]) (TStr "expressionType")) = true ->
             In (Node (TStr "AwaitExpression") (merged es2016 [E]))
                (alts (ParentNode (TStr B) (merged es2016 [E])))).
  { intros B' HB HX.
    assert (PA : In "AwaitExpression" (parents (merged es2016 [E]) B')).
    { apply (reference_makes_parent _ "AwaitExpression" B' "argument" "Expression"
                                    _ HD Await P (NodeRefType_single "Expression")).
      rewrite ResolveNodeType_literal, meta_name_Expression.
      apply has_ty_and_intro; [|exact HX].
      rewrite ASTDefinition_string_keys, has_lits by assumption.
      now apply existsb_eqb_In. }
    rewrite ParentNode_spec, Node_known by assumption.
    destruct (parents (merged es2016 [E]) B') as [|x l] eqn:EP; [contradiction|].
    rewrite (alts_of_tagged (fun P => known_node (merged es2016 [E]) (TStr P)))
      by reflexivity.
    now apply (in_map (fun P => known_node (merged es2016 [E]) (TStr P))). }
  split; [apply G|]. apply G; [exact Await|].
  rewrite lists_has, lists_merged by auto.
  cbn [At0]. unfold E.
  change (lists ES2017.AsyncFunction "expressionType" "AwaitExpression") with true.
  now rewrite orb_true_r.
Qed.

Lemma es2017_await_is_a_parent_of_expressions_witness :
  In (Node (TStr "AwaitExpression") (ES2017.ASTDefinition ex_base))
     (alts (ParentNode (TStr "AwaitExpression") (ES2017.ASTDefinition ex_base))).
Proof.
  exact (proj2 (es2017_await_is_a_parent_of_expressions
                  ex_base "AwaitExpression" eq_refl eq_refl)).
Defined.

(* ===================================================================== *)
(** ** The constituents that survive in a union *)
(* ===================================================================== *)

(** A constituent that is not an empty intersection survives in a union
    without [any] and [unknown], unless it is a literal and the union has
    the primitive type of the literal. *)
Lemma mk_union_survivor (l : list ty) (x : ty) :
  existsb is_any (flat_map alts l) = false ->
  existsb is_unknown (flat_map alts l) = false ->
  In x (flat_map alts l) -> is_empty_inter x = false ->
  exists M, mk_union l = of_members M /\ alts (of_members M) = M /\
            (In x M \/ (exists s, x = TStr s /\ In TString M)
             \/ (exists n, x = TNum n /\ In TNumber M)).
Proof.
  intros A U Hx E. unfold mk_union. rewrite A, U.
  set (L := dedupe (filter (fun t => negb (is_empty_inter t)) (flat_map alts l))).
  exists (filter (fun t => negb (absorbed L t)) L). split; [reflexivity|].
  split.
  { apply alts_of_members. intros a Ha. apply filter_In in Ha as [Ha _].
    unfold L in Ha. rewrite In_dedupe in Ha. apply filter_In in Ha as [Ha _].
    apply in_flat_map in Ha as [y [_ Ha]]. now apply (alts_atom y). }
  assert (HL : In x L).
  { apply In_dedupe, filter_In. split; auto. now rewrite E. }
  assert (P : forall y, In y L -> absorbed L y = false ->
                        In y (filter (fun t => negb (absorbed L t)) L)).
  { intros y Hy Ay. apply filter_In. split; auto. now rewrite Ay. }
  destruct (absorbed L x) eqn:Ab; [|left; now apply P].
  right. destruct x; try discriminate Ab; cbn [absorbed] in Ab;
    apply existsb_exists in Ab as [y [Hy Ey]]; apply ty_eqb_eq in Ey; subst y.
  - left. exists s. split; auto.
  - right. exists n. split; auto.
Qed.

(* ===================================================================== *)
(** ** C7: values that reference resolution does not resolve *)
(* ===================================================================== *)








(* ===================================================================== *)
(** ** C3: the merge of two enhancements *)
(* ===================================================================== *)

Lemma extends_of_members (M : list ty) (t : ty) :
  extends0 (of_members M) t = forallb (fun s => extends0 s t) M.
Proof.
  destruct M as [|x [|y r]]; [now destruct t| |].
  - cbn [of_members forallb]. now rewrite andb_true_r.
  - cbn [of_members]. unfold extends0, extends. apply extends_to_union.
Qed.

(** A union without [any] one of whose constituents is inhabited and is not
    a sequence is not a sequence. *)
Lemma mk_union_not_sequence (l : list ty) (c : ty) :
  existsb is_any (flat_map alts l) = false ->
  In c (flat_map alts l) -> is_empty_inter c = false ->
  extends0 c (TArr false TAny) = false ->
  extends0 (mk_union l) (TArr false TAny) = false.
Proof.
  intros A Hc E X.
  destruct (existsb is_unknown (flat_map alts l)) eqn:U.
  - unfold mk_union. now rewrite A, U.
  - destruct (mk_union_survivor l c A U Hc E) as (M & -> & _ & HM).
    rewrite extends_of_members.
    destruct (forallb (fun s => extends0 s (TArr false TAny)) M) eqn:F; auto.
    rewrite forallb_forall in F.
    destruct HM as [H|[(s & _ & H)|(n & _ & H)]]; specialize (F _ H);
      [congruence| |]; discriminate F.
Qed.

(** A union with a mutable sequence among its constituents and with a
    constituent that is not a sequence is no sequence type, mutable or
    read-only. *)
Lemma mk_union_no_array (l : list ty) (a c : ty) :
  existsb is_any (flat_map alts l) = false ->
  In (TArr false a) (flat_map alts l) ->
  In c (flat_map alts l) -> is_empty_inter c = false ->
  extends0 c (TArr false TAny) = false ->
  forall ro e, mk_union l <> TArr ro e.
Proof.
  intros A Ha Hc E X ro e Eq.
  pose proof (mk_union_not_sequence l c A Hc E X) as NS.
  destruct (existsb is_unknown (flat_map alts l)) eqn:U.
  - unfold mk_union in Eq. rewrite A, U in Eq. discriminate Eq.
  - destruct (mk_union_survivor l (TArr false a) A U Ha eq_refl)
      as (M & EM & _ & HM).
    rewrite EM in Eq, NS. destruct M as [|x [|y r]]; try discriminate Eq.
    cbn [of_members] in Eq, NS. subst x.
    destruct HM as [[H|[]]|[(s & Hs & _)|(n & Hn & _)]]; try discriminate.
    injection H as Hro He. subst ro e.
    unfold extends0, extends in NS.
    rewrite extends_to_arr, extends_to_any in NS. discriminate NS.
Qed.

Lemma mk_union_two_arrays (r1 r2 : bool) (A B : ty) :
  TArr r1 A <> TArr r2 B ->
  mk_union [TNever; TArr r1 A; TArr r2 B; TNever; TNever]
  = TUnion [TArr r1 A; TArr r2 B].
Proof.
  intros NE. unfold mk_union. cbn [flat_map alts app].
  cbn [existsb is_any is_unknown orb filter is_empty_inter negb].
  unfold dedupe. cbn [dedupe_by filter].
  rewrite (ty_eqb_neq _ _ NE). cbn [negb filter absorbed]. reflexivity.
Qed.

Lemma UniteArray_readonly (r1 r2 : bool) (A B : ty) :
  r1 || r2 = true ->
  UniteArray (TUnion [TArr r1 A; TArr r2 B]) = TUnion [TArr r1 A; TArr r2 B].
Proof.
  intros R. unfold UniteArray, extends0, extends.
  rewrite extends_to_union. cbn [forallb]. rewrite !extends_to_arr.
  destruct r1, r2; try discriminate R; cbn [implb andb];
    now rewrite ?andb_false_r.
Qed.

(** C3 (as amended).  Merging two enhancements into a base: a property
    that one of them declares for a node-type is present in the merged
    node-shape, so two distinct properties added by the two enhancements are
    both present.  When both declare the same property with mutable sequence
    types [A[]] and [B[]] of different element types, the merged property is
    [UniteArray] of the union of the type the base declares with [A[]] and
    [B[]]: the single sequence type [(A | B)[]] when the base does not
    declare the property or declares it as [never]; the single sequence
    type of the union of the distinct element types when the base declares
    a mutable sequence type [C[]] too; [any[]] when the base declares
    [any]; and, when the type the base declares has no [any] and has an
    inhabited constituent that is not a mutable sequence, the union of that
    type with the two distinct sequence types [A[]] and [B[]], which is no
    sequence type.  When one of the two sequence types is read-only and the
    base does not declare the property, the merged property is the union of
    the two sequence types. *)
Theorem merge_two_enhancements (D E1 E2 : ty) (N : string) :
  nodes_ok D = true -> nodes_ok E1 = true -> nodes_ok E2 = true ->
  (forall p q A B,
      p <> q ->
      node_prop E1 N p = Some A -> node_prop E2 N q = Some B ->
      (exists a, node_prop (Extends D (Many [E1; E2])) N p = Some a) /\
      (exists b, node_prop (Extends D (Many [E1; E2])) N q = Some b)) /\
  (forall p A B,
      A <> B ->
      node_prop E1 N p = Some (TArr false A) ->
      node_prop E2 N p = Some (TArr false B) ->
      (node_prop D N p = None ->
       node_prop (Extends D (Many [E1; E2])) N p
       = Some (TArr false (mk_union [A; B]))) /\
      (forall C,
          node_prop D N p = Some (TArr false C) ->
          node_prop (Extends D (Many [E1; E2])) N p
          = Some (TArr false (mk_union (dedupe [C; A; B])))) /\
      (node_prop D N p = Some TNever ->
       node_prop (Extends D (Many [E1; E2])) N p
       = Some (TArr false (mk_union [A; B]))) /\
      (node_prop D N p = Some TAny ->
       node_prop (Extends D (Many [E1; E2])) N p = Some (TArr false TAny)) /\
      (forall v,
          node_prop D N p = Some v ->
          node_prop (Extends D (Many [E1; E2])) N p
          = Some (UniteArray (mk_union [v; TArr false A; TArr false B]))) /\
      (forall v c,
          node_prop D N p = Some v -> no_any v = true ->
          In c (alts v) -> is_empty_inter c = false ->
          extends0 c (TArr false TAny) = false ->
          node_prop (Extends D (Many [E1; E2])) N p
          = Some (mk_union [v; TArr false A; TArr false B]) /\
          forall ro e,
            node_prop (Extends D (Many [E1; E2])) N p <> Some (TArr ro e))) /\
  (forall p r1 r2 A B,
      TArr r1 A <> TArr r2 B -> r1 || r2 = true ->
      node_prop E1 N p = Some (TArr r1 A) ->
      node_prop E2 N p = Some (TArr r2 B) ->
      node_prop D N p = None ->
      node_prop (Extends D (Many [E1; E2])) N p
      = Some (TUnion [TArr r1 A; TArr r2 B])).
Proof.
  intros HD H1 H2.
  assert (SD : slot_ok D = true) by (unfold slot_ok; now rewrite HD).
  assert (S1 : slot_ok E1 = true) by (unfold slot_ok; now rewrite H1).
  assert (S2 : slot_ok E2 = true) by (unfold slot_ok; now rewrite H2).
  assert (M : forall p,
             node_prop (Extends D (Many [E1; E2])) N p
             = if existsb (fun E => match node_prop E N p with
                                    | Some _ => true | None => false end)
                          [D; E1; E2; TNever; TNever]
               then Some (UniteArray
                            (mk_union (map (fun E => declared_type E N p)
                                           [D; E1; E2; TNever; TNever])))
               else None).
  { intros p. rewrite Extends_two.
    now rewrite (node_prop_merged D [E1; E2] N p SD S1 S2 eq_refl eq_refl). }
  assert (G : forall p v A B,
             node_prop D N p = Some v ->
             node_prop E1 N p = Some (TArr false A) ->
             node_prop E2 N p = Some (TArr false B) ->
             node_prop (Extends D (Many [E1; E2])) N p
             = Some (UniteArray (mk_union [v; TArr false A; TArr false B]))).
  { intros p v A B PD Pp Pq. rewrite M. cbn [existsb map]. unfold declared_type.
    rewrite PD, Pp, Pq. cbn [orb].
    change (match @None ty with Some v0 => v0 | None => TNever end) with TNever.
    do 2 f_equal; unfold mk_union; cbn [flat_map alts app];
      now rewrite ?app_nil_r. }
  split; [|split].
  - intros p q A B _ Pp Pq. split; eexists; rewrite M; cbn [existsb].
    + rewrite Pp, orb_true_r. reflexivity.
    + rewrite Pq, !orb_true_r. reflexivity.
  - intros p A B NE Pp Pq.
    assert (AB : dedupe [A; B] = [A; B]).
    { unfold dedupe. cbn. now rewrite (ty_eqb_neq _ _ NE). }
    assert (Nn : node_prop (Extends D (Many [E1; E2])) N p
                 = Some (UniteArray (mk_union [TNever; TArr false A; TArr false B;
                                               TNever; TNever])) ->
                 node_prop (Extends D (Many [E1; E2])) N p
                 = Some (TArr false (mk_union [A; B]))).
    { intros ->. rewrite (mk_union_arrays _ [A; B]) by reflexivity.
      rewrite UniteArray_arrays by apply dedupe_cons_ne.
      now rewrite AB. }
    split; [|split; [|split; [|split; [|split]]]].
    + intros PD. apply Nn. rewrite M. cbn [existsb map]. unfold declared_type.
      rewrite PD, Pp, Pq. cbn [orb]. reflexivity.
    + intros C PD. rewrite M. cbn [existsb map]. unfold declared_type.
      rewrite PD, Pp, Pq. cbn [orb].
      rewrite (mk_union_arrays _ [C; A; B]) by reflexivity.
      rewrite UniteArray_arrays by apply dedupe_cons_ne.
      f_equal. f_equal. unfold elem_union.
      destruct (dedupe [C; A; B]) as [|x [|y r]] eqn:E; auto.
      exfalso. unfold dedupe in E. cbn in E.
      rewrite (ty_eqb_neq _ _ NE) in E.
      destruct (ty_eqb C A) eqn:CA; destruct (ty_eqb C B) eqn:CB;
        cbn in E; rewrite ?CB in E; cbn in E; try discriminate.
      apply ty_eqb_eq in CA. apply ty_eqb_eq in CB. congruence.
    + intros PD. apply Nn. rewrite M. cbn [existsb map]. unfold declared_type.
      rewrite PD, Pp, Pq. cbn [orb]. reflexivity.
    + intros PD. rewrite (G p TAny A B PD Pp Pq), mk_union_with_any.
      reflexivity.
    + intros v PD. now apply G.
    + intros v c PD NA Hc Ec Xc.
      assert (F : flat_map alts [v; TArr false A; TArr false B]
                  = (alts v ++ [TArr false A; TArr false B])%list)
        by (cbn [flat_map alts app]; reflexivity).
      assert (An : existsb is_any (flat_map alts [v; TArr false A; TArr false B])
                   = false).
      { rewrite F, existsb_app. cbn [existsb is_any orb].
        rewrite orb_false_r. unfold no_any in NA.
        apply existsb_none. intros t Ht. rewrite forallb_forall in NA.
        specialize (NA t Ht). now destruct (is_any t). }
      assert (Ic : In c (flat_map alts [v; TArr false A; TArr false B]))
        by (rewrite F; apply in_or_app; now left).
      assert (Ia : In (TArr false A)
                      (flat_map alts [v; TArr false A; TArr false B]))
        by (rewrite F; apply in_or_app; right; now left).
      rewrite (G p v A B PD Pp Pq).
      unfold UniteArray.
      rewrite (mk_union_not_sequence _ c An Ic Ec Xc).
      split; [reflexivity|]. intros ro e Eq. injection Eq as Eq.
      exact (mk_union_no_array _ A c An Ia Ic Ec Xc ro e Eq).
  - intros p r1 r2 A B NE R Pp Pq PD. rewrite M. cbn [existsb map].
    unfold declared_type. rewrite PD, Pp, Pq. cbn [orb].
    change (match @None ty with Some v0 => v0 | None => TNever end) with TNever.
    rewrite mk_union_two_arrays by assumption.
    now rewrite UniteArray_readonly.
Qed.

Lemma merge_two_enhancements_witness :
  node_prop (Extends ex_base (Many [ex_enh_comments; ex_enh_tokens])) "Program" "comments"
  = Some (TArr false (mk_union [TString; TNumber]))
  /\ node_prop (Extends ex_base (Many [ex_enh_name_a; ex_enh_name_b]))
               "Identifier" "name"
     = Some (mk_union [TString; TArr false TNumber; TArr false TSymbol])
  /\ node_prop (Extends ex_base
                  (Many [TObj [("nodes",
                                 TObj [("Program",
                                         TObj [("comments", TArr true TString)])])];
                         ex_enh_tokens]))
               "Program" "comments"
     = Some (TUnion [TArr true TString; TArr false TNumber]).
Proof.
  split; [|split].
  - destruct (merge_two_enhancements ex_base ex_enh_comments ex_enh_tokens
                "Program" eq_refl eq_refl eq_refl) as (_ & H & _).
    destruct (H "comments" TString TNumber) as (K & _);
      [discriminate|reflexivity|reflexivity|].
    apply K. reflexivity.
  - destruct (merge_two_enhancements ex_base ex_enh_name_a ex_enh_name_b
                "Identifier" eq_refl eq_refl eq_refl) as (_ & H & _).
    destruct (H "name" TNumber TSymbol) as (_ & _ & _ & _ & _ & K);
      [discriminate|reflexivity|reflexivity|].
    apply (K TString TString); [reflexivity|reflexivity|now left
                                |reflexivity|reflexivity].
  - destruct (merge_two_enhancements ex_base
                (TObj [("nodes",
                         TObj [("Program",
                                 TObj [("comments", TArr true TString)])])])
                ex_enh_tokens "Program" eq_refl eq_refl eq_refl) as (_ & _ & H).
    apply (H "comments" true false TString TNumber);
      [discriminate|reflexivity|reflexivity|reflexivity|reflexivity].
Defined.

(** C3, counterexample to the claim for every base definition: the base
    declares [Identifier.name] as [string], both enhancements redeclare it
    as sequences, and the merged property is the union of [string] with the
    two distinct sequence types. *)
Lemma merge_sequences_over_scalar :
  node_prop (Extends ex_base (Many [ex_enh_name_a; ex_enh_name_b])) "Identifier" "name"
  = Some (TUnion [TString; TArr false TNumber; TArr false TSymbol])
  /\ ~ (exists e, node_prop (Extends ex_base (Many [ex_enh_name_a; ex_enh_name_b]))
                            "Identifier" "name" = Some (TArr false e)).
Proof.
  assert (E : node_prop (Extends ex_base (Many [ex_enh_name_a; ex_enh_name_b]))
                        "Identifier" "name"
              = Some (TUnion [TString; TArr false TNumber; TArr false TSymbol]))
    by (vm_compute; reflexivity).
  split; [exact E|]. intros [e He]. rewrite E in He. discriminate.
Qed.

(* ===================================================================== *)
(** ** C8: four enhancements per step *)
(* ===================================================================== *)

(** What the four positions read is what the first four elements of the
    list are. *)
Lemma positions_firstn (f : ty -> bool) (es : list ty) :
  f TNever = false ->
  f (At0 es) || (f (At1 es) || (f (At2 es) || f (At3 es)))
  = existsb f (firstn 4 es).
Proof.
  intros H. destruct es as [|a [|b [|c [|d r]]]];
    cbn [At0 At1 At2 At3 firstn existsb]; now rewrite ?H, ?orb_false_r.
Qed.

Lemma In_positions_firstn (P : ty -> Prop) (es : list ty) :
  ~ P TNever ->
  (P (At0 es) \/ P (At1 es) \/ P (At2 es) \/ P (At3 es))
  <-> exists E, In E (firstn 4 es) /\ P E.
Proof.
  intros H. destruct es as [|a [|b [|c [|d r]]]];
    cbn [At0 At1 At2 At3 firstn]; split;
    try (intros [E [HE PE]]; cbn [In] in HE;
         decompose [or] HE; subst; try contradiction; tauto);
    intros HP; decompose [or] HP; try contradiction;
    eauto 8 using in_eq, in_cons.
Qed.

Lemma declared_types_firstn (D : ty) (es : list ty) (N p : string) :
  mk_union (map (fun E => declared_type E N p) [D; At0 es; At1 es; At2 es; At3 es])
  = mk_union (map (fun E => declared_type E N p) (D :: firstn 4 es)).
Proof.
  destruct es as [|a [|b [|c [|d r]]]];
    cbn [At0 At1 At2 At3 map firstn];
    change (declared_type TNever N p) with TNever;
    unfold mk_union; cbn [flat_map alts app]; rewrite ?app_nil_r; reflexivity.
Qed.

Lemma merged_first_four (D : ty) (es : list ty) :
  ASTDefinition D = true -> forallb ASTEnhancement es = true ->
  ASTDefinition (merged D es) = true /\
  (forall k B, k = "statementType" \/ k = "expressionType" ->
     lists (merged D es) k B
     = lists D k B || existsb (fun E => lists E k B) (firstn 4 es)) /\
  (forall N, In N (node_names (merged D es))
             <-> In N (node_names D)
                 \/ exists E, In E (firstn 4 es) /\ In N (node_names E)) /\
  (forall N p,
     node_prop (merged D es) N p
     = if declares D N p || existsb (fun E => declares E N p) (firstn 4 es)
       then Some (UniteArray
                    (mk_union (map (fun E => declared_type E N p)
                                   (D :: firstn 4 es))))
       else None).
Proof.
  intros HD He. apply ASTDefinition_enhancement in HD.
  destruct (slots_of_enhancements D es HD He) as (S & S0 & S1 & S2 & S3).
  split; [now apply ASTDefinition_merged|]. split; [|split].
  - intros k B Hk. rewrite lists_merged by assumption.
    rewrite <- (positions_firstn (fun E => lists E k B) es) by reflexivity.
    now rewrite <- !orb_assoc.
  - intros N. rewrite node_names_merged by assumption.
    rewrite <- (In_positions_firstn (fun E => In N (node_names E)) es)
      by (intros []).
    tauto.
  - intros N p. rewrite node_prop_merged by assumption.
    rewrite declared_types_firstn. cbn [existsb].
    fold (declares D N p) (declares (At0 es) N p) (declares (At1 es) N p)
         (declares (At2 es) N p) (declares (At3 es) N p).
    rewrite orb_false_r.
    now rewrite (positions_firstn (fun E => declares E N p) es) by reflexivity.
Qed.

Lemma ExtendsRec_declares (N p : string) (D : ty) (es : list ty) :
  ASTDefinition D = true -> forallb ASTEnhancement es = true ->
  declares (ExtendsRec D es) N p
  = declares D N p || existsb (fun E => declares E N p) es.
Proof.
  intros HD He. apply ASTDefinition_enhancement in HD. revert D es HD He.
  apply (ExtendsRec_induction
           (fun D es =>
              ASTEnhancement D = true -> forallb ASTEnhancement es = true ->
              declares (ExtendsRec D es) N p
              = declares D N p || existsb (fun E => declares E N p) es)).
  - intros D _ _. rewrite ExtendsRec_nil. cbn [existsb]. now rewrite orb_false_r.
  - intros D es NE IH HD He. rewrite ExtendsRec_step by assumption.
    rewrite IH.
    + rewrite declares_merged by assumption.
      rewrite <- (existsb_batches (fun E => declares E N p) es) by reflexivity.
      now rewrite !orb_assoc.
    + apply ASTDefinition_enhancement. now apply ASTDefinition_merged.
    + now apply ASTEnhancement_Shift4.
Qed.

(** C8.  [ExtendsRec] reads the enhancements at positions 0 to 3 of the
    list (positions past the end read as [never]), merges them into the
    base, and recurses on the list without its first four elements with the
    merged definition as the new base; it stops, returning the base, exactly
    when the list is empty, which happens after one step per started batch
    of four.  The merged definition of a step is made of the base and of
    exactly the first four enhancements of the list: it is a definition, it
    lists as statements and as expressions the names that the base or one
    of the first four enhancements lists, its node-types are theirs, and
    each of its properties is declared by one of them and has the type
    [UniteArray] of the union of the types they declare for it; the
    enhancements after the fourth have no part in it.  At the end every
    enhancement of the list has been merged: the result declares exactly
    the properties that the base or one of the enhancements declares. *)
Theorem ExtendsRec_four_at_a_time (D : ty) (es : list ty) :
  Shift4 es = skipn 4 es /\
  merged D es = merged D (firstn 4 es) /\
  (ASTDefinition D = true -> forallb ASTEnhancement es = true ->
   ASTDefinition (merged D es) = true /\
   (forall k B, k = "statementType" \/ k = "expressionType" ->
      lists (merged D es) k B
      = lists D k B || existsb (fun E => lists E k B) (firstn 4 es)) /\
   (forall N, In N (node_names (merged D es))
              <-> In N (node_names D)
                  \/ exists E, In E (firstn 4 es) /\ In N (node_names E)) /\
   (forall N p,
      node_prop (merged D es) N p
      = if declares D N p || existsb (fun E => declares E N p) (firstn 4 es)
        then Some (UniteArray
                     (mk_union (map (fun E => declared_type E N p)
                                    (D :: firstn 4 es))))
        else None) /\
   (forall N p,
      declares (ExtendsRec D es) N p
      = declares D N p || existsb (fun E => declares E N p) es)) /\
  ExtendsRec D [] = D /\
  (es <> [] -> ExtendsRec D es = ExtendsRec (merged D es) (skipn 4 es)) /\
  exists n,
    List.length es <= 4 * n < List.length es + 4 /\
    ExtendsRec D es = fst (Nat.iter n one_step (D, es)) /\
    forall k, snd (Nat.iter k one_step (D, es)) = [] <-> n <= k.
Proof.
  split; [apply Shift4_skipn|].
  split; [apply merged_firstn|].
  split.
  { intros HD He.
    destruct (merged_first_four D es HD He) as (M1 & M2 & M3 & M4).
    repeat split; auto; try (now apply M3).
    intros N p. now apply ExtendsRec_declares. }
  split; [now simp ExtendsRec|].
  split; [intros H; rewrite <- Shift4_skipn; now apply ExtendsRec_step|].
  exists ((List.length es + 3) / 4).
  assert (Hn : List.length es <= 4 * ((List.length es + 3) / 4) < List.length es + 4).
  { pose proof (Nat.div_mod_eq (List.length es + 3) 4) as E.
    pose proof (Nat.mod_upper_bound (List.length es + 3) 4) as B. lia. }
  split; [exact Hn|]. split; [now apply ExtendsRec_iter|].
  intros k. rewrite iter_one_step_list, <- skipn_all_iff. lia.
Qed.

Lemma ExtendsRec_four_at_a_time_witness :
  let es := [ex_enh_comments; ex_enh_tokens; ex_enh_name_a; ex_enh_name_b;
             ex_enh_source_type] in
  node_prop (merged ex_base es) "Identifier" "name"
  = Some (TUnion [TString; TArr false TNumber; TArr false TSymbol])
  /\ node_prop (merged ex_base es) "Program" "sourceType" = None
  /\ declares (ExtendsRec ex_base es) "Program" "sourceType" = true
  /\ ExtendsRec ex_base es
     = ExtendsRec (merged ex_base es) [ex_enh_source_type].
Proof.
  intros es.
  destruct (ExtendsRec_four_at_a_time ex_base es)
    as (_ & _ & H & _ & S & _).
  destruct (H eq_refl eq_refl) as (_ & _ & _ & M & R).
  split; [|split; [|split]].
  - rewrite M. reflexivity.
  - rewrite M. reflexivity.
  - rewrite R. reflexivity.
  - apply S. discriminate.
Defined.

(* ===================================================================== *)
(** ** C2: parents and the references that [NodeRefType] finds *)
(* ===================================================================== *)








